(** * Link-update engine of markdown-wikilink-updater ([src/pure-get-edits.ts])

    A shallow embedding of [pureGetEdits] and of the functions it calls, and
    the properties of the engine stated over it.

    Conventions.
    - A JavaScript string is a [list ascii]: one element per code unit, with
      code units restricted to the 8-bit range.  [js "..."] writes a literal.
    - Line and column numbers, offsets and lengths are [nat].
    - A computation that may throw or loop is an [outcome]. *)

From Stdlib Require Import Ascii String List Arith Bool Lia Sorted.
Import ListNotations.

Set Implicit Arguments.

(* ===================================================================== *)
(** ** Strings *)
(* ===================================================================== *)

Definition str := list ascii.

Definition js (s : string) : str := list_ascii_of_string s.

Fixpoint str_eqb (a b : str) : bool :=
  match a, b with
  | [], [] => true
  | x :: a', y :: b' => Ascii.eqb x y && str_eqb a' b'
  | _, _ => false
  end.

(** [s.startsWith(p)] *)
Fixpoint startsWith (p s : str) : bool :=
  match p, s with
  | [], _ => true
  | x :: p', y :: s' => Ascii.eqb x y && startsWith p' s'
  | _ :: _, [] => false
  end.

(** [s.includes(p)] *)
Fixpoint includes (p s : str) : bool :=
  startsWith p s ||
  match s with
  | [] => false
  | _ :: s' => includes p s'
  end.

(** [s.substring(0, n)] and [s.substring(n)] *)
Definition substring_to (n : nat) (s : str) : str := firstn n s.
Definition substring_from (n : nat) (s : str) : str := skipn n s.

(** [s.substring(a, b)] for [a <= b] *)
Definition substring (a b : nat) (s : str) : str := firstn (b - a) (skipn a s).

(** [s.slice(0, -3)] *)
Definition slice_0_m3 (s : str) : str := firstn (length s - 3) s.

(** [s.split(sep)] for a one-character separator: never the empty list. *)
Fixpoint split (sep : ascii) (s : str) : list str :=
  match s with
  | [] => [[]]
  | c :: s' =>
      if Ascii.eqb c sep then [] :: split sep s'
      else match split sep s' with
           | [] => [[c]]
           | l :: ls => (c :: l) :: ls
           end
  end.

(** [parts.join(sep)] *)
Fixpoint join_with (sep : str) (parts : list str) : str :=
  match parts with
  | [] => []
  | [p] => p
  | p :: ps => p ++ sep ++ join_with sep ps
  end.

Definition LF : ascii := ascii_of_nat 10.
Definition CR : ascii := ascii_of_nat 13.

(** [windowsToPosix]: [path.replace(/\/g, "/")] *)
Definition windowsToPosix (path : str) : str :=
  map (fun c => if Ascii.eqb c "\"%char then "/"%char else c) path.

(* ===================================================================== *)
(** ** Outcomes: a result, an exception, or a loop that never ends *)
(* ===================================================================== *)

Inductive outcome (A : Type) : Type :=
| Ok (a : A)
| Throws
| Diverges.

Arguments Ok {A} a.
Arguments Throws {A}.
Arguments Diverges {A}.

Definition bind {A B : Type} (m : outcome A) (f : A -> outcome B) : outcome B :=
  match m with
  | Ok a => f a
  | Throws => Throws
  | Diverges => Diverges
  end.

Declare Scope outcome_scope.
Delimit Scope outcome_scope with outcome.
Notation "x <- m ;; k" := (bind m (fun x => k))
  (at level 61, m at next level, right associativity) : outcome_scope.
Local Open Scope outcome_scope.

(** Runs [f] on every element in order and concatenates what it yields; the
    first exception or non-terminating call ends the whole run. *)
Fixpoint concatMapM {A B : Type} (f : A -> outcome (list B)) (l : list A)
  : outcome (list B) :=
  match l with
  | [] => Ok []
  | a :: l' =>
      xs <- f a ;;
      ys <- concatMapM f l' ;;
      Ok (xs ++ ys)
  end.

(* ===================================================================== *)
(** ** Regular expressions

    A backtracking matcher for the constructs the engine's five patterns
    use: literal characters, character classes, sequencing, capture groups,
    greedy and lazy [*] and [+] over a character class, a greedy optional
    group, and [^] without the [m] flag ([REmpty], the empty pattern, only
    closes an empty sequence).  Alternatives are tried in the
    order ECMAScript tries them, so the first successful match is the one
    [RegExp.prototype.exec] reports. *)
(* ===================================================================== *)

Module Regex.

Inductive regex : Type :=
| RChar (c : ascii)
| RSet (p : ascii -> bool)
| RSeq (r1 r2 : regex)
| RGroup (n : nat) (r : regex)
| RStar (greedy : bool) (p : ascii -> bool)
| RPlus (greedy : bool) (p : ascii -> bool)
| ROpt (r : regex)
| RBol
| REmpty.

(** Captures: group number, start offset and captured text, latest first. *)
Definition caps := list (nat * (nat * str)).

Fixpoint capture (n : nat) (c : caps) : option (nat * str) :=
  match c with
  | [] => None
  | (m, v) :: c' => if Nat.eqb n m then Some v else capture n c'
  end.

Definition capText (n : nat) (c : caps) : option str :=
  option_map snd (capture n c).

Section Loops.
Variable A : Type.
Variable p : ascii -> bool.
Variable k : str -> nat -> option A.

(** [p*]: as many characters as possible first, then fewer. *)
Fixpoint greedy_star (s : str) (i : nat) : option A :=
  match s with
  | a :: s' =>
      if p a then
        match greedy_star s' (S i) with
        | Some r => Some r
        | None => k s i
        end
      else k s i
  | [] => k s i
  end.

(** [p*?]: as few characters as possible first, then more. *)
Fixpoint lazy_star (s : str) (i : nat) : option A :=
  match k s i with
  | Some r => Some r
  | None =>
      match s with
      | a :: s' => if p a then lazy_star s' (S i) else None
      | [] => None
      end
  end.

Definition plus (greedy : bool) (s : str) (i : nat) : option A :=
  match s with
  | a :: s' =>
      if p a then (if greedy then greedy_star else lazy_star) s' (S i)
      else None
  | [] => None
  end.
End Loops.

Definition result := (nat * caps)%type.
Definition cont := str -> nat -> caps -> option result.

(** [rmatch r k s i c]: match [r] at offset [i], where [s] is the input from
    [i] on and [c] the captures so far, then continue with [k]. *)
Fixpoint rmatch (r : regex) (k : cont) (s : str) (i : nat) (c : caps)
  : option result :=
  match r with
  | RChar a =>
      match s with
      | b :: s' => if Ascii.eqb a b then k s' (S i) c else None
      | [] => None
      end
  | RSet p =>
      match s with
      | b :: s' => if p b then k s' (S i) c else None
      | [] => None
      end
  | RSeq r1 r2 => rmatch r1 (rmatch r2 k) s i c
  | RGroup n r1 =>
      rmatch r1 (fun s' i' c' => k s' i' ((n, (i, firstn (i' - i) s)) :: c')) s i c
  | RStar g p =>
      (if g then greedy_star p else lazy_star p) (fun s' i' => k s' i' c) s i
  | RPlus g p => plus p (fun s' i' => k s' i' c) g s i
  | ROpt r1 =>
      match rmatch r1 k s i c with
      | Some x => Some x
      | None => k s i c
      end
  | RBol => if Nat.eqb i 0 then k s i c else None
  | REmpty => k s i c
  end.

Record rmatch_result : Type := mkMatch {
  m_index : nat;     (* match.index *)
  m_end : nat;       (* offset just after the match *)
  m_caps : caps
}.

(** The first offset, from [i] on, at which [r] matches. *)
Fixpoint search (r : regex) (s : str) (i : nat) : option rmatch_result :=
  match rmatch r (fun _ e c => Some (e, c)) s i [] with
  | Some (e, c) => Some (mkMatch i e c)
  | None =>
      match s with
      | _ :: s' => search r s' (S i)
      | [] => None
      end
  end.

(** [regex.exec(input)] with [regex.lastIndex = lastIndex]. *)
Definition exec (r : regex) (input : str) (lastIndex : nat) : option rmatch_result :=
  if Nat.ltb (length input) lastIndex then None
  else search r (skipn lastIndex input) lastIndex.

(** [input.match(regex)] for a pattern without the [g] flag. *)
Definition match_ (r : regex) (input : str) : option rmatch_result :=
  search r input 0.

(** A sequence of patterns, and a literal string. *)
Fixpoint RCat (rs : list regex) : regex :=
  match rs with
  | [] => REmpty
  | [r] => r
  | r :: rs' => RSeq r (RCat rs')
  end.

Definition RLit (s : string) : regex := RCat (map RChar (js s)).

(** Character classes. *)
Definition is_not (a : ascii) : ascii -> bool := fun c => negb (Ascii.eqb c a).

(** [\s], within the 8-bit range: TAB, LF, VT, FF, CR, space, NBSP. *)
Definition is_space (c : ascii) : bool :=
  let n := nat_of_ascii c in
  ((9 <=? n) && (n <=? 13)) || (n =? 32) || (n =? 160).

(** [[^\s\/]] *)
Definition is_fragment_char (c : ascii) : bool :=
  negb (is_space c) && negb (Ascii.eqb c "/"%char).

(** [['\"]] and [[^'\"]] *)
Definition DQUOTE : ascii := ascii_of_nat 34.
Definition is_quote (c : ascii) : bool :=
  Ascii.eqb c "'"%char || Ascii.eqb c DQUOTE.
Definition is_not_quote (c : ascii) : bool := negb (is_quote c).

(** [.]: any character but a line terminator. *)
Definition is_dot (c : ascii) : bool :=
  negb (Ascii.eqb c LF) && negb (Ascii.eqb c CR).

End Regex.
Import Regex.

(* ===================================================================== *)
(** ** The five patterns of [pure-get-edits.ts] *)
(* ===================================================================== *)

(** [wikilinkRegex], flags [gm]; spaced out:
    [( \[\[ ) ( [^\)]+? ) ( #[^\s\/]+ )? \]\]] *)
Definition wikilinkRegex : regex :=
  RCat [ RGroup 1 (RLit "[[");
         RGroup 2 (RPlus false (is_not ")"));
         ROpt (RGroup 3 (RSeq (RChar "#") (RPlus true is_fragment_char)));
         RLit "]]" ].

(** [mdLinkRegex], no flags; spaced out:
    [\[ ( [^\]]* ) \]\( ( [^\)]+ ) \)] *)
Definition mdLinkRegex : regex :=
  RCat [ RChar "[";
         RGroup 1 (RStar true (is_not "]"));
         RLit "](";
         RGroup 2 (RPlus true (is_not ")"));
         RChar ")" ].

(** [mdLinkRegexGlobal], flags [gm]; spaced out:
    [( \[ [^\]]* \]\( ) ( [^\)]+? ) ( #[^\s\/]+ )? \)] *)
Definition mdLinkRegexGlobal : regex :=
  RCat [ RGroup 1 (RCat [RChar "["; RStar true (is_not "]"); RLit "]("]);
         RGroup 2 (RPlus false (is_not ")"));
         ROpt (RGroup 3 (RSeq (RChar "#") (RPlus true is_fragment_char)));
         RChar ")" ].

(** [imgRegex], flags [gm]; spaced out, with Q for the double quote:
    [( <img \s [^>]*? src \s* = \s* ['Q] ) ( [^'Q]*? ) ['Q] [^>]*? >] *)
Definition imgRegex : regex :=
  RCat [ RGroup 1 (RCat [ RLit "<img"; RSet is_space; RStar false (is_not ">");
                          RLit "src"; RStar true is_space; RChar "=";
                          RStar true is_space; RSet is_quote ]);
         RGroup 2 (RStar false is_not_quote);
         RSet is_quote;
         RStar false (is_not ">");
         RChar ">" ].

(** [headingRegex], no flags: [^ ( #+ SPACE ) ( .+ )] *)
Definition headingRegex : regex :=
  RCat [ RBol;
         RGroup 1 (RSeq (RPlus true (Ascii.eqb "#")) (RChar " "));
         RGroup 2 (RPlus true is_dot) ].

(* ===================================================================== *)
(** ** Data model ([./models] is not part of the sources at hand; the
       records follow the fields the engine reads and writes) *)
(* ===================================================================== *)

Record File : Type := mkFile {
  fpath : str;
  content : str
}.

Definition FileList := list File.

Inductive ChangeEvent : Type :=
| RenameEvent (pathBefore pathAfter : str)
| SaveEvent (path contentBefore contentAfter : str).

Record Position : Type := mkPosition {
  pline : nat;
  character : nat
}.

Record Range : Type := mkRange {
  start : Position;
  end_ : Position
}.

Record Edit : Type := mkEdit {
  path : str;
  range : Range;
  newText : str;
  requiresPathToExist : option str
}.

Record Options : Type := mkOptions {
  exclude : option (list str);
  include : option (list str);
  workspacePath : option str
}.

Record LinkOccurrence : Type := mkLink {
  target : str;
  line : nat;
  col : nat;
  replaceFileExtension : bool
}.

(* ===================================================================== *)
(** ** Link extraction: [getMatchingLinks] and [getAllLinks] *)
(* ===================================================================== *)

(** The [while ((match = regex.exec(fileContent)) !== null)] loop.  The
    pattern object's [lastIndex] is the loop's only state; each turn uses one
    unit of fuel, and a loop that outlives its fuel is reported as
    [Diverges].  Destructuring a capture that did not take part in the match
    gives [undefined], on which [.length] and [.replace] throw. *)
Fixpoint matchLoop (fuel : nat) (regex : regex) (fileContent : str)
    (lastIndex : nat) (replaceFileExtension : bool)
  : outcome (list LinkOccurrence) :=
  match fuel with
  | 0 => Diverges
  | S fuel' =>
      match exec regex fileContent lastIndex with
      | None => Ok []
      | Some m =>
          match capText 1 (m_caps m), capText 2 (m_caps m) with
          | Some prefix, Some target0 =>
              let target := windowsToPosix target0 in
              let index := m_index m + length prefix in
              let lines := split LF (substring_to index fileContent) in
              let line := length lines - 1 in
              let col := length (nth line lines []) in
              rest <- matchLoop fuel' regex fileContent (m_end m)
                        replaceFileExtension ;;
              Ok (mkLink target line col replaceFileExtension :: rest)
          | _, _ => Throws
          end
      end
  end.

(** [fileContent] is [None] for [undefined]; the empty string is falsy too. *)
Definition getMatchingLinks (regex : regex) (fileContent : option str)
    (replaceFileExtension : bool) : outcome (list LinkOccurrence) :=
  match fileContent with
  | None => Ok []
  | Some [] => Ok []
  | Some c => matchLoop (S (length c)) regex c 0 replaceFileExtension
  end.

Definition getAllLinks (fileContent : option str) : outcome (list LinkOccurrence) :=
  md <- getMatchingLinks mdLinkRegexGlobal fileContent true ;;
  img <- getMatchingLinks imgRegex fileContent true ;;
  wiki <- getMatchingLinks wikilinkRegex fileContent false ;;
  Ok (md ++ img ++ wiki).

(* ===================================================================== *)
(** ** Path arithmetic: a model of Node's [path.posix]

    [path] is a library, not part of the repository.  The model works on the
    ["/"]-separated segments of a path; [cwd] stands for [process.cwd()],
    which [resolve], and through it [relative], consult for relative
    paths. *)
(* ===================================================================== *)

Module Posix.

Definition sep : str := js "/".
Definition dot : str := js ".".
Definition dotdot : str := js "..".

Definition segments (p : str) : list str := split "/" p.

(** One step of [normalizeString]: [res] is the stack of segments kept so
    far, innermost first. *)
Definition pushSegment (allowAboveRoot : bool) (res : list str) (seg : str)
  : list str :=
  if str_eqb seg [] || str_eqb seg dot then res
  else if str_eqb seg dotdot then
    match res with
    | last :: res' =>
        if str_eqb last dotdot
        then (if allowAboveRoot then dotdot :: res else res)
        else res'
    | [] => if allowAboveRoot then [dotdot] else []
    end
  else seg :: res.

Definition normalizeSegments (allowAboveRoot : bool) (segs : list str) : list str :=
  rev (fold_left (pushSegment allowAboveRoot) segs []).

Definition normalizeString (p : str) (allowAboveRoot : bool) : str :=
  join_with sep (normalizeSegments allowAboveRoot (segments p)).

Definition isAbsolute (p : str) : bool :=
  match p with
  | c :: _ => Ascii.eqb c "/"
  | [] => false
  end.

Definition hasTrailingSeparator (p : str) : bool :=
  match rev p with
  | c :: _ => Ascii.eqb c "/"
  | [] => false
  end.

Definition normalize (p : str) : str :=
  match p with
  | [] => dot
  | _ =>
      let body := normalizeString p (negb (isAbsolute p)) in
      match body with
      | [] =>
          if isAbsolute p then sep
          else if hasTrailingSeparator p then js "./" else dot
      | _ =>
          (if isAbsolute p then sep else []) ++ body ++
          (if hasTrailingSeparator p then sep else [])
      end
  end.

(** [join(a, b)] *)
Definition join (a b : str) : str :=
  match a, b with
  | [], [] => dot
  | [], _ => normalize b
  | _, [] => normalize a
  | _, _ => normalize (a ++ sep ++ b)
  end.

(** The backward scan of [dirname]: [l] holds the characters at offsets
    [i], [i-1], ..., [1]. *)
Fixpoint dirnameEnd (l : str) (i : nat) (matchedSlash : bool) : option nat :=
  match l with
  | [] => None
  | c :: l' =>
      if Ascii.eqb c "/" then
        if matchedSlash then dirnameEnd l' (i - 1) true else Some i
      else dirnameEnd l' (i - 1) false
  end.

Definition dirname (p : str) : str :=
  match p with
  | [] => dot
  | c0 :: rest =>
      let hasRoot := Ascii.eqb c0 "/" in
      match dirnameEnd (rev rest) (length p - 1) true with
      | None => if hasRoot then sep else dot
      | Some e => if hasRoot && Nat.eqb e 1 then js "//" else firstn e p
      end
  end.

Section WithCwd.
Variable cwd : str.

(** [resolve(p)] with a single argument. *)
Definition resolve (p : str) : str :=
  let '(resolvedPath, resolvedAbsolute) :=
    match p with
    | [] => (cwd ++ sep, isAbsolute cwd)
    | _ =>
        if isAbsolute p then (p ++ sep, true)
        else match cwd with
             | [] => (p ++ sep, false)
             | _ => (cwd ++ sep ++ p ++ sep, isAbsolute cwd)
             end
    end in
  let body := normalizeString resolvedPath (negb resolvedAbsolute) in
  if resolvedAbsolute then sep ++ body
  else match body with [] => dot | _ => body end.

(** The segments of a resolved path, after its leading separator. *)
Definition resolvedSegments (p : str) : list str :=
  filter (fun seg => negb (str_eqb seg [])) (segments (tl p)).

Fixpoint commonPrefix (a b : list str) : nat :=
  match a, b with
  | x :: a', y :: b' => if str_eqb x y then S (commonPrefix a' b') else 0
  | _, _ => 0
  end.

Definition relative (from to : str) : str :=
  if str_eqb from to then []
  else
    let from' := resolve from in
    let to' := resolve to in
    if str_eqb from' to' then []
    else
      let f := resolvedSegments from' in
      let t := resolvedSegments to' in
      let n := commonPrefix f t in
      join_with sep (repeat dotdot (length f - n) ++ skipn n t).
End WithCwd.

End Posix.

(* ===================================================================== *)
(** ** The engine *)
(* ===================================================================== *)

(** One run of [diffLines]: [added] and [removed] are [false] where the
    library leaves them [undefined]. *)
Record Change : Type := mkChange {
  value : str;
  added : bool;
  removed : bool
}.

Record HeadingRename : Type := mkHeadingRename {
  oldHeader : str;
  newHeader : str
}.

Definition orEmpty (l : option (list str)) : list str :=
  match l with Some x => x | None => [] end.

Section Engine.

(** What the engine takes from outside [pure-get-edits.ts]: the working
    directory behind [path.posix.relative], the glob matcher
    [minimatch(path, pattern)], the line differ [diffLines(old, new, {})]
    and [headingToAnchor] of [./heading-to-anchor].  Each is a total
    function here: the calls are taken to return. *)
Variable cwd : str.
Variable minimatch : str -> str -> bool.
Variable diffLines : str -> str -> list Change.
Variable headingToAnchor : str -> str.

(** *** Glob filter *)

Definition shouldIncludePath (options : Options) (filePath : str) : bool :=
  let include := orEmpty (include options) in
  let exclude := orEmpty (exclude options) in
  let relativePath :=
    Posix.relative cwd
      (match workspacePath options with Some w => w | None => [] end)
      filePath in
  let matchesIncludeList :=
    existsb (fun pattern => minimatch relativePath pattern) include in
  if matchesIncludeList then true
  else if 0 <? length include then false
  else
    let matchesExcludeList :=
      existsb (fun pattern => minimatch relativePath pattern) exclude in
    negb matchesExcludeList.

(** *** Rename handling *)

Definition targetRange (o : LinkOccurrence) : Range :=
  mkRange (mkPosition (line o) (col o))
          (mkPosition (line o) (col o + length (target o))).

(** Body of the first loop of [handleRenameEvent]: what one reference of
    the moved document yields. *)
Definition rebaseEdit (pathBefore pathAfter : str) (o : LinkOccurrence)
  : list Edit :=
  let absoluteTarget := Posix.join (Posix.dirname pathBefore) (target o) in
  let newLink :=
    Posix.normalize
      (Posix.relative cwd (Posix.dirname pathAfter) absoluteTarget) in
  let targetIsUnmodified := str_eqb (Posix.normalize (target o)) newLink in
  if targetIsUnmodified then []
  else [mkEdit pathAfter (targetRange o) newLink (Some absoluteTarget)].

Definition rebaseEdits (pathBefore pathAfter : str) (fileContent : option str)
  : outcome (list Edit) :=
  links <- getAllLinks fileContent ;;
  Ok (flat_map (rebaseEdit pathBefore pathAfter) links).

(** Body of the inner loop of the second loop: what one reference of
    [markdownFile] yields. *)
Definition repairEdit (pathBefore pathAfter : str) (markdownFile : File)
    (o : LinkOccurrence) : list Edit :=
  let absoluteTarget0 :=
    Posix.normalize
      (Posix.join (Posix.dirname (fpath markdownFile)) (target o)) in
  let absoluteTarget :=
    if negb (replaceFileExtension o) then
      if negb (includes (js ".md") absoluteTarget0)
      then absoluteTarget0 ++ js ".md"
      else absoluteTarget0
    else absoluteTarget0 in
  let isLinkToFileInRenamedFolder :=
    startsWith (pathBefore ++ Posix.sep) absoluteTarget in
  let isLinkToMovedFile := str_eqb absoluteTarget pathBefore in
  if isLinkToMovedFile then
    let newLink0 :=
      Posix.normalize
        (Posix.relative cwd (Posix.dirname (fpath markdownFile)) pathAfter) in
    let newLink :=
      if negb (replaceFileExtension o) then
        if negb (includes (js ".md") (target o))
        then slice_0_m3 newLink0
        else newLink0
      else newLink0 in
    [mkEdit (fpath markdownFile) (targetRange o) newLink None]
  else if isLinkToFileInRenamedFolder then
    let newAbsoluteTarget :=
      pathAfter ++ js "/" ++
      substring_from (length pathBefore + 1) absoluteTarget in
    let newLink0 :=
      Posix.relative cwd (Posix.dirname (fpath markdownFile))
        newAbsoluteTarget in
    let newLink :=
      if negb (replaceFileExtension o) then slice_0_m3 newLink0
      else newLink0 in
    [mkEdit (fpath markdownFile) (targetRange o) newLink
            (Some newAbsoluteTarget)]
  else [].

Definition repairFile (pathBefore pathAfter : str) (markdownFile : File)
  : outcome (list Edit) :=
  links <- getAllLinks (Some (content markdownFile)) ;;
  Ok (flat_map (repairEdit pathBefore pathAfter markdownFile) links).

Definition repairEdits (pathBefore pathAfter : str) (markdownFiles : FileList)
  : outcome (list Edit) :=
  concatMapM (repairFile pathBefore pathAfter) markdownFiles.

(** [markdownFiles.map(...).filter(...)] at the head of the handler. *)
Definition trackedFiles (markdownFiles : FileList) (options : Options)
  : FileList :=
  filter (fun f => shouldIncludePath options (fpath f))
    (map (fun file => mkFile (windowsToPosix (fpath file)) (content file))
         markdownFiles).

Definition handleRenameEvent (payloadBefore payloadAfter : str)
    (markdownFiles : FileList) (options : Options) : outcome (list Edit) :=
  let pathBefore := Posix.normalize (windowsToPosix payloadBefore) in
  let pathAfter := Posix.normalize (windowsToPosix payloadAfter) in
  let markdownFiles := trackedFiles markdownFiles options in
  if negb (shouldIncludePath options pathBefore) then Ok []
  else
    let fileContent :=
      option_map content
        (find (fun file => str_eqb (Posix.normalize (fpath file)) pathAfter)
              markdownFiles) in
    moved <- rebaseEdits pathBefore pathAfter fileContent ;;
    others <- repairEdits pathBefore pathAfter markdownFiles ;;
    Ok (moved ++ others).

(** *** Save handling *)

(** The callback of [diff.map], for a run and the run after it.  Both
    groups of [headingRegex] take part in every match, so the last branch
    of the inner [match] is never taken. *)
Definition renamedHeading (change nextChange : Change) : option HeadingRename :=
  let removedAndAddedLine := removed change && added nextChange in
  if removedAndAddedLine then
    let oldLine := value change in
    let newLine := value nextChange in
    match match_ headingRegex oldLine, match_ headingRegex newLine with
    | Some oldLineMatch, Some newLineMatch =>
        match capText 1 (m_caps oldLineMatch), capText 1 (m_caps newLineMatch),
              capText 2 (m_caps oldLineMatch), capText 2 (m_caps newLineMatch) with
        | Some old1, Some new1, Some old2, Some new2 =>
            if str_eqb old1 new1 then Some (mkHeadingRename old2 new2)
            else None
        | _, _, _, _ => None
        end
    | _, _ => None
    end
  else None.

(** [diff.map(...).filter(Boolean)]: the last run has no successor. *)
Fixpoint renamedHeadings (diff : list Change) : list HeadingRename :=
  match diff with
  | change :: (nextChange :: _) as rest =>
      match renamedHeading change nextChange with
      | Some h => h :: renamedHeadings rest
      | None => renamedHeadings rest
      end
  | _ => []
  end.

(** The edits one line of the saved text yields.  [match] is the matched
    text, falsy when empty; a capture that took no part in the match is
    [undefined], which equals no string and prints as "undefined". *)
Definition anchorEdits (path : str) (renamed : list HeadingRename)
    (lineNumber : nat) (line : str) : list Edit :=
  match match_ mdLinkRegex line with
  | None => []
  | Some m =>
      if Nat.eqb (m_end m) (m_index m) then []
      else
        match capText 2 (m_caps m) with
        | None => []
        | Some link =>
            let name :=
              match capText 1 (m_caps m) with
              | Some n => n
              | None => js "undefined"
              end in
            flat_map
              (fun h =>
                 let oldHeaderAnchor := headingToAnchor (oldHeader h) in
                 let newHeaderAnchor := headingToAnchor (newHeader h) in
                 if str_eqb link (js "#" ++ oldHeaderAnchor) then
                   [mkEdit path
                      (mkRange (mkPosition lineNumber 0)
                               (mkPosition lineNumber (length line)))
                      (js "[" ++ name ++ js "](#" ++ newHeaderAnchor ++ js ")")
                      None]
                 else [])
              renamed
        end
  end.

Fixpoint anchorLoop (path : str) (renamed : list HeadingRename)
    (lineNumber : nat) (lines : list str) : list Edit :=
  match lines with
  | [] => []
  | line :: lines' =>
      anchorEdits path renamed lineNumber line ++
      anchorLoop path renamed (S lineNumber) lines'
  end.

Definition handleSaveEvent (path contentBefore contentAfter : str)
    (options : Options) : list Edit :=
  let diff := diffLines contentBefore contentAfter in
  anchorLoop path (renamedHeadings diff) 0 (split LF contentAfter).

(** *** Entry point *)

Definition pureGetEdits (event : ChangeEvent) (markdownFiles : FileList)
    (options : Options) : outcome (list Edit) :=
  match event with
  | SaveEvent path contentBefore contentAfter =>
      Ok (handleSaveEvent path contentBefore contentAfter options)
  | RenameEvent pathBefore pathAfter =>
      handleRenameEvent pathBefore pathAfter markdownFiles options
  end.

End Engine.

(* ===================================================================== *)
(** ** The engine with collaborators that may raise

    The engine above takes every call out of [pure-get-edits.ts] as
    returning.  Here each of them is a computation that may raise:
    [process.cwd()], which [path.posix.relative] calls for an argument that
    is not absolute, [minimatch], [diffLines] and [headingToAnchor].  No
    call is inside a [try], so the engine raises where one of them does.
    The functions keep the names of the source. *)
(* ===================================================================== *)

Module Raising.

(** [array.some(f)]: [f] is called on the elements in order, up to the
    first that gives [true]. *)
Fixpoint some (f : str -> outcome bool) (l : list str) : outcome bool :=
  match l with
  | [] => Ok false
  | x :: l' => b <- f x ;; if b then Ok true else some f l'
  end.

(** [array.filter(f)]: [f] is called on every element, in order. *)
Fixpoint filter {A : Type} (f : A -> outcome bool) (l : list A)
  : outcome (list A) :=
  match l with
  | [] => Ok []
  | x :: l' =>
      b <- f x ;;
      rest <- filter f l' ;;
      Ok (if b then x :: rest else rest)
  end.

Section Engine.
Variable cwd : outcome str.
Variable minimatch : str -> str -> outcome bool.
Variable diffLines : str -> str -> outcome (list Change).
Variable headingToAnchor : str -> outcome str.

(** [path.posix.relative(from, to)]: equal arguments give the empty path
    at once; otherwise each argument is resolved, which reads the working
    directory unless the argument is absolute. *)
Definition relative (from to : str) : outcome str :=
  if str_eqb from to then Ok []
  else if Posix.isAbsolute from && Posix.isAbsolute to
       then Ok (Posix.relative [] from to)
       else c <- cwd ;; Ok (Posix.relative c from to).

Definition shouldIncludePath (options : Options) (filePath : str)
  : outcome bool :=
  let include := orEmpty (include options) in
  let exclude := orEmpty (exclude options) in
  relativePath <-
    relative (match workspacePath options with Some w => w | None => [] end)
             filePath ;;
  matchesIncludeList <-
    some (fun pattern => minimatch relativePath pattern) include ;;
  if matchesIncludeList then Ok true
  else if 0 <? length include then Ok false
  else
    matchesExcludeList <-
      some (fun pattern => minimatch relativePath pattern) exclude ;;
    Ok (negb matchesExcludeList).

Definition rebaseEdit (pathBefore pathAfter : str) (o : LinkOccurrence)
  : outcome (list Edit) :=
  let absoluteTarget := Posix.join (Posix.dirname pathBefore) (target o) in
  relativeLink <- relative (Posix.dirname pathAfter) absoluteTarget ;;
  let newLink := Posix.normalize relativeLink in
  let targetIsUnmodified := str_eqb (Posix.normalize (target o)) newLink in
  if targetIsUnmodified then Ok []
  else Ok [mkEdit pathAfter (targetRange o) newLink (Some absoluteTarget)].

(** The scan of a text never raises, so it does not matter that the source
    runs the loop body between two steps of the scan. *)
Definition rebaseEdits (pathBefore pathAfter : str) (fileContent : option str)
  : outcome (list Edit) :=
  links <- getAllLinks fileContent ;;
  concatMapM (rebaseEdit pathBefore pathAfter) links.

Definition repairEdit (pathBefore pathAfter : str) (markdownFile : File)
    (o : LinkOccurrence) : outcome (list Edit) :=
  let absoluteTarget0 :=
    Posix.normalize
      (Posix.join (Posix.dirname (fpath markdownFile)) (target o)) in
  let absoluteTarget :=
    if negb (replaceFileExtension o) then
      if negb (includes (js ".md") absoluteTarget0)
      then absoluteTarget0 ++ js ".md"
      else absoluteTarget0
    else absoluteTarget0 in
  let isLinkToFileInRenamedFolder :=
    startsWith (pathBefore ++ Posix.sep) absoluteTarget in
  let isLinkToMovedFile := str_eqb absoluteTarget pathBefore in
  if isLinkToMovedFile then
    relativeLink <- relative (Posix.dirname (fpath markdownFile)) pathAfter ;;
    let newLink0 := Posix.normalize relativeLink in
    let newLink :=
      if negb (replaceFileExtension o) then
        if negb (includes (js ".md") (target o))
        then slice_0_m3 newLink0
        else newLink0
      else newLink0 in
    Ok [mkEdit (fpath markdownFile) (targetRange o) newLink None]
  else if isLinkToFileInRenamedFolder then
    let newAbsoluteTarget :=
      pathAfter ++ js "/" ++
      substring_from (length pathBefore + 1) absoluteTarget in
    newLink0 <-
      relative (Posix.dirname (fpath markdownFile)) newAbsoluteTarget ;;
    let newLink :=
      if negb (replaceFileExtension o) then slice_0_m3 newLink0
      else newLink0 in
    Ok [mkEdit (fpath markdownFile) (targetRange o) newLink
               (Some newAbsoluteTarget)]
  else Ok [].

Definition repairFile (pathBefore pathAfter : str) (markdownFile : File)
  : outcome (list Edit) :=
  links <- getAllLinks (Some (content markdownFile)) ;;
  concatMapM (repairEdit pathBefore pathAfter markdownFile) links.

Definition repairEdits (pathBefore pathAfter : str) (markdownFiles : FileList)
  : outcome (list Edit) :=
  concatMapM (repairFile pathBefore pathAfter) markdownFiles.

Definition trackedFiles (markdownFiles : FileList) (options : Options)
  : outcome FileList :=
  filter (fun f => shouldIncludePath options (fpath f))
    (map (fun file => mkFile (windowsToPosix (fpath file)) (content file))
         markdownFiles).

Definition handleRenameEvent (payloadBefore payloadAfter : str)
    (markdownFiles : FileList) (options : Options) : outcome (list Edit) :=
  let pathBefore := Posix.normalize (windowsToPosix payloadBefore) in
  let pathAfter := Posix.normalize (windowsToPosix payloadAfter) in
  markdownFiles <- trackedFiles markdownFiles options ;;
  included <- shouldIncludePath options pathBefore ;;
  if negb included then Ok []
  else
    let fileContent :=
      option_map content
        (find (fun file => str_eqb (Posix.normalize (fpath file)) pathAfter)
              markdownFiles) in
    moved <- rebaseEdits pathBefore pathAfter fileContent ;;
    others <- repairEdits pathBefore pathAfter markdownFiles ;;
    Ok (moved ++ others).

(** One turn of the inner loop of [handleSaveEvent]: both anchors are
    computed before they are compared. *)
Definition anchorEdit (path : str) (lineNumber : nat) (line name link : str)
    (h : HeadingRename) : outcome (list Edit) :=
  oldHeaderAnchor <- headingToAnchor (oldHeader h) ;;
  newHeaderAnchor <- headingToAnchor (newHeader h) ;;
  if str_eqb link (js "#" ++ oldHeaderAnchor) then
    Ok [mkEdit path
          (mkRange (mkPosition lineNumber 0)
                   (mkPosition lineNumber (length line)))
          (js "[" ++ name ++ js "](#" ++ newHeaderAnchor ++ js ")")
          None]
  else Ok [].

Definition anchorEdits (path : str) (renamed : list HeadingRename)
    (lineNumber : nat) (line : str) : outcome (list Edit) :=
  match match_ mdLinkRegex line with
  | None => Ok []
  | Some m =>
      if Nat.eqb (m_end m) (m_index m) then Ok []
      else
        match capText 2 (m_caps m) with
        | None => Ok []
        | Some link =>
            let name :=
              match capText 1 (m_caps m) with
              | Some n => n
              | None => js "undefined"
              end in
            concatMapM (anchorEdit path lineNumber line name link) renamed
        end
  end.

Fixpoint anchorLoop (path : str) (renamed : list HeadingRename)
    (lineNumber : nat) (lines : list str) : outcome (list Edit) :=
  match lines with
  | [] => Ok []
  | line :: lines' =>
      edits <- anchorEdits path renamed lineNumber line ;;
      rest <- anchorLoop path renamed (S lineNumber) lines' ;;
      Ok (edits ++ rest)
  end.

Definition handleSaveEvent (path contentBefore contentAfter : str)
    (options : Options) : outcome (list Edit) :=
  diff <- diffLines contentBefore contentAfter ;;
  anchorLoop path (renamedHeadings diff) 0 (split LF contentAfter).

Definition pureGetEdits (event : ChangeEvent) (markdownFiles : FileList)
    (options : Options) : outcome (list Edit) :=
  match event with
  | SaveEvent path contentBefore contentAfter =>
      handleSaveEvent path contentBefore contentAfter options
  | RenameEvent pathBefore pathAfter =>
      handleRenameEvent pathBefore pathAfter markdownFiles options
  end.

End Engine.
End Raising.

(* ===================================================================== *)
(** ** Reference models of the collaborators, used to run the engine *)
(* ===================================================================== *)

Module Reference.

(** *** Glob matching

    A matcher for the glob fragment made of literal characters, [?], [*]
    within a segment and [**] as a whole segment; it stands in for
    [minimatch] on such patterns and paths without dot files. *)

Fixpoint segmentMatch (pat : str) : str -> bool :=
  match pat with
  | [] => fun s => match s with [] => true | _ => false end
  | c :: pat' =>
      if Ascii.eqb c "*" then
        fix star (s : str) : bool :=
          segmentMatch pat' s ||
          match s with
          | [] => false
          | _ :: s' => star s'
          end
      else
        fun s =>
          match s with
          | [] => false
          | d :: s' => (Ascii.eqb c "?" || Ascii.eqb c d) && segmentMatch pat' s'
          end
  end.

Fixpoint segmentsMatch (pats : list str) : list str -> bool :=
  match pats with
  | [] => fun segs => match segs with [] => true | _ => false end
  | pat :: pats' =>
      if str_eqb pat (js "**") then
        fix globstar (segs : list str) : bool :=
          segmentsMatch pats' segs ||
          match segs with
          | [] => false
          | _ :: segs' => globstar segs'
          end
      else
        fun segs =>
          match segs with
          | [] => false
          | seg :: segs' => segmentMatch pat seg && segmentsMatch pats' segs'
          end
  end.

Definition minimatch (path pattern : str) : bool :=
  segmentsMatch (split "/" pattern) (split "/" path).

(** *** Line diff

    A stand-in for [diffLines] of the [diff] package, whose contract the
    specification gives as "given two line sequences, produce an ordered
    list of kept, removed and added runs".  This one follows a longest
    common subsequence, puts a removal before the insertion that replaces
    it, and, as [diffLines] does, keeps each line's terminator with the
    line. *)

Fixpoint linesOf (s : str) : list str :=
  match s with
  | [] => []
  | c :: s' =>
      if Ascii.eqb c LF then [c] :: linesOf s'
      else match linesOf s' with
           | [] => [[c]]
           | l :: ls => (c :: l) :: ls
           end
  end.

Fixpoint lcsLength (a : list str) : list str -> nat :=
  match a with
  | [] => fun _ => 0
  | x :: a' =>
      fix inner (b : list str) : nat :=
        match b with
        | [] => 0
        | y :: b' =>
            if str_eqb x y then S (lcsLength a' b')
            else Nat.max (lcsLength a' b) (inner b')
        end
  end.

Inductive op : Type := Keep | Del | Ins.

Fixpoint script (a : list str) : list str -> list (op * str) :=
  match a with
  | [] => fun b => map (fun y => (Ins, y)) b
  | x :: a' =>
      fix inner (b : list str) : list (op * str) :=
        match b with
        | [] => (Del, x) :: script a' []
        | y :: b' =>
            if str_eqb x y then (Keep, x) :: script a' b'
            else if lcsLength a b' <=? lcsLength a' b
                 then (Del, x) :: script a' b
                 else (Ins, y) :: inner b'
        end
  end.

Definition op_eqb (o1 o2 : op) : bool :=
  match o1, o2 with
  | Keep, Keep | Del, Del | Ins, Ins => true
  | _, _ => false
  end.

Definition toChange (o : op) (v : str) : Change :=
  mkChange v (op_eqb o Ins) (op_eqb o Del).

(** Joins neighbouring steps of one kind into a run. *)
Fixpoint runs (cur : option (op * str)) (steps : list (op * str)) : list Change :=
  match steps with
  | [] => match cur with Some (o, v) => [toChange o v] | None => [] end
  | (o, l) :: steps' =>
      match cur with
      | None => runs (Some (o, l)) steps'
      | Some (o', v) =>
          if op_eqb o o' then runs (Some (o', v ++ l)) steps'
          else toChange o' v :: runs (Some (o, l)) steps'
      end
  end.

Definition diffLines (oldStr newStr : str) : list Change :=
  runs None (script (linesOf oldStr) (linesOf newStr)).

(** *** Heading slugs

    Modelled from the spec: [./heading-to-anchor] is not among the sources
    at hand; the spec gives "lowercase, strip characters outside
    [a-z0-9- ], collapse whitespace to single hyphens". *)

Definition toLower (c : ascii) : ascii :=
  let n := nat_of_ascii c in
  if (65 <=? n) && (n <=? 90) then ascii_of_nat (n + 32) else c.

Definition isSlugChar (c : ascii) : bool :=
  let n := nat_of_ascii c in
  ((97 <=? n) && (n <=? 122)) || ((48 <=? n) && (n <=? 57)) ||
  Ascii.eqb c "-" || Ascii.eqb c " ".

Fixpoint hyphenate (s : str) : str :=
  match s with
  | [] => []
  | c :: s' =>
      if Ascii.eqb c " " then
        match s' with
        | c' :: _ => if Ascii.eqb c' " " then hyphenate s' else "-"%char :: hyphenate s'
        | [] => ["-"%char]
        end
      else c :: hyphenate s'
  end.

Definition headingToAnchor (heading : str) : str :=
  hyphenate (filter isSlugChar (map toLower heading)).

(** The engine on the reference collaborators, run from directory [/w]. *)
Definition cwd : str := js "/w".

Definition getEdits : ChangeEvent -> FileList -> Options -> outcome (list Edit) :=
  pureGetEdits cwd minimatch diffLines headingToAnchor.

(** [minimatch] refuses a pattern of more than 64 * 1024 characters: its
    check of the pattern raises a [TypeError] before any matching. *)
Definition maxPatternLength : nat := 64 * 1024.

Definition minimatchChecked (path pattern : str) : outcome bool :=
  if maxPatternLength <? length pattern then Throws
  else Ok (minimatch path pattern).

(** The engine on the reference collaborators, with the matcher's check of
    the pattern. *)
Definition getEditsChecked
  : ChangeEvent -> FileList -> Options -> outcome (list Edit) :=
  Raising.pureGetEdits (Ok cwd) minimatchChecked
    (fun oldStr newStr => Ok (diffLines oldStr newStr))
    (fun heading => Ok (headingToAnchor heading)).

End Reference.

(* ===================================================================== *)
(** ** Shapes of patterns and of normalized paths *)
(* ===================================================================== *)

Module RegexShape.

(** The group numbers a pattern can set, and the least number of characters
    a match of it consumes. *)
Fixpoint groups (r : regex) : list nat :=
  match r with
  | RSeq r1 r2 => groups r1 ++ groups r2
  | RGroup n r1 => n :: groups r1
  | ROpt r1 => groups r1
  | _ => []
  end.

Fixpoint minLen (r : regex) : nat :=
  match r with
  | RChar _ | RSet _ | RPlus _ _ => 1
  | RSeq r1 r2 => minLen r1 + minLen r2
  | RGroup _ r1 => minLen r1
  | _ => 0
  end.

(** The continuation that ends a match. *)
Definition finish : cont := fun _ e c => Some (e, c).

(** The shape the three scanning patterns share: group 1 is the text before
    the target and cannot be empty, group 2 is the target and follows group
    1 at once, and nothing after them sets either group again. *)
Definition linkShaped (r : regex) : Prop :=
  exists a b rest,
    r = RSeq (RGroup 1 a) (RSeq (RGroup 2 b) rest) /\
    ~ In 1 (groups b ++ groups rest) /\ ~ In 2 (groups rest) /\
    1 <= minLen a.

End RegexShape.
Import RegexShape.

Module PosixShape.
Import Posix.

Definition slashFree (seg : str) : Prop := ~ In "/"%char seg.

(** A name: a segment that [normalizeString] keeps as it is. *)
Definition isName (seg : str) : Prop :=
  seg <> [] /\ seg <> dot /\ seg <> dotdot /\ slashFree seg.

(** A stack of segments in normal form, innermost first: names, then
    [..] segments, which only a relative path may have. *)
Definition normalStack (allowAboveRoot : bool) (res : list str) : Prop :=
  exists names k,
    res = names ++ repeat dotdot k /\ Forall isName names /\
    (allowAboveRoot = false -> k = 0).

Definition isSegment (seg : str) : Prop := seg <> [] /\ slashFree seg.

End PosixShape.

(* ===================================================================== *)
(** ** The claims' vocabulary: the host's side, the specification's
       reading of the claims, and the inputs of the examples *)
(* ===================================================================== *)

(** The occurrence the loop body builds from a match whose groups 1 and 2
    are [prefix] and [target0]. *)
Definition occurrenceOf (fileContent : str) (index : nat) (target0 : str)
    (replaceFileExtension : bool) : LinkOccurrence :=
  let lines := split LF (substring_to index fileContent) in
  let line := length lines - 1 in
  mkLink (windowsToPosix target0) line (length (nth line lines []))
         replaceFileExtension.

(** An occurrence is found by a pattern when the scan of the text with that
    pattern yields it. *)
Definition foundBy (regex : regex) (fileContent : option str)
    (o : LinkOccurrence) : Prop :=
  exists l,
    getMatchingLinks regex fileContent (replaceFileExtension o) = Ok l /\ In o l.

(** C3 as the specification words it: inline references carry [false],
    double-bracket references carry [true]. *)
Definition extension_flags_as_stated : Prop :=
  forall fileContent l o,
    getAllLinks fileContent = Ok l -> In o l ->
    (foundBy mdLinkRegexGlobal fileContent o -> replaceFileExtension o = false) /\
    (foundBy wikilinkRegex fileContent o -> replaceFileExtension o = true).

(** The host's reading of a range that starts and ends on one line, as all
    ranges of the engine do: the characters of that line between the two
    columns. *)
Definition lineAt (content : str) (n : nat) : str := nth n (split LF content) [].

Definition rangeText (content : str) (r : Range) : str :=
  substring (character (start r)) (character (end_ r))
            (lineAt content (pline (start r))).

(** [o] is a reference of [content]: the text holds [raw] at some offset,
    and [o] is the occurrence built for [raw] at that offset. *)
Definition locatedIn (content : str) (o : LinkOccurrence) : Prop :=
  exists pre raw post flag,
    content = pre ++ raw ++ post /\
    o = occurrenceOf content (length pre) raw flag.

(** [e]'s range is the span of the target of a reference of [content]. *)
Definition spansTarget (content : str) (e : Edit) : Prop :=
  exists links o,
    getAllLinks (Some content) = Ok links /\ In o links /\
    range e = targetRange o.

(** The texts an event's edits can apply to. *)
Definition textsOf (event : ChangeEvent) (markdownFiles : FileList) : list str :=
  match event with
  | SaveEvent _ _ contentAfter => [contentAfter]
  | RenameEvent _ _ => map content markdownFiles
  end.

(** C1 as the specification words it: whatever the event, the range of an
    edit is the span of a reference's target. *)
Definition edit_ranges_as_stated : Prop :=
  forall cwd minimatch diffLines headingToAnchor event markdownFiles options
         edits e,
    pureGetEdits cwd minimatch diffLines headingToAnchor event markdownFiles
      options = Ok edits ->
    In e edits ->
    exists content, In content (textsOf event markdownFiles) /\ spansTarget content e.

Definition NL : str := [LF].

Definition savedBefore : str := js "# Old Title" ++ NL ++ js "[see](#old-title)".
Definition savedAfter : str := js "# New Title" ++ NL ++ js "[see](#old-title)".

Definition noOptions : Options := mkOptions None None None.

Definition linkingFiles : FileList := [mkFile (js "c.md") (js "[x](folder/a.md)")].

Definition linkingEdit : Edit :=
  mkEdit (js "c.md") (mkRange (mkPosition 0 4) (mkPosition 0 15))
         (js "folder/b.md") None.

(** What a reference of [markdownFile] resolves to in the second loop: the
    target joined to the document's directory, with [.md] appended for a
    reference whose [replaceFileExtension] is [false] and whose resolved
    path holds no [.md]. *)
Definition resolvedTarget (markdownFile : File) (o : LinkOccurrence) : str :=
  let absoluteTarget :=
    Posix.normalize (Posix.join (Posix.dirname (fpath markdownFile)) (target o)) in
  if negb (replaceFileExtension o) then
    if negb (includes (js ".md") absoluteTarget)
    then absoluteTarget ++ js ".md"
    else absoluteTarget
  else absoluteTarget.

(** C6 as the specification words it: the second loop yields no edit for
    the moved document. *)
Definition repair_skips_moved_as_stated : Prop :=
  forall cwd minimatch payloadBefore payloadAfter markdownFiles options others e,
    let pathBefore := Posix.normalize (windowsToPosix payloadBefore) in
    let pathAfter := Posix.normalize (windowsToPosix payloadAfter) in
    repairEdits cwd pathBefore pathAfter
      (trackedFiles cwd minimatch markdownFiles options) = Ok others ->
    In e others ->
    Posix.normalize (path e) <> pathAfter.

Definition movedFiles : FileList :=
  [mkFile (js "b/doc.md") (js "[old](../a/doc.md)")].

Definition movedEdit : Edit :=
  mkEdit (js "b/doc.md") (mkRange (mkPosition 0 6) (mkPosition 0 17))
         (js "doc.md") None.

(** C2 as the specification words it: no edit of a rename replaces a text
    by itself. *)
Definition no_noop_edits_as_stated : Prop :=
  forall cwd minimatch diffLines headingToAnchor payloadBefore payloadAfter
         markdownFiles options edits e file,
    pureGetEdits cwd minimatch diffLines headingToAnchor
      (RenameEvent payloadBefore payloadAfter) markdownFiles options = Ok edits ->
    In e edits ->
    In file markdownFiles ->
    windowsToPosix (fpath file) = path e ->
    newText e <> rangeText (content file) (range e).

Definition indexFile : File := mkFile (js "index.md") (js "see [[note]]").

Definition indexEdit : Edit :=
  mkEdit (js "index.md") (mkRange (mkPosition 0 6) (mkPosition 0 10))
         (js "note") None.

Definition rebasedContent : str := js "[x](img.md)".

Definition rebasedEdit : Edit :=
  mkEdit (js "/ws/b/c/doc.md") (mkRange (mkPosition 0 4) (mkPosition 0 10))
         (js "../../a/img.md") (Some (js "/ws/a/img.md")).

Fixpoint takeWhile (p : ascii -> bool) (s : str) : str :=
  match s with
  | c :: s' => if p c then c :: takeWhile p s' else []
  | [] => []
  end.

Fixpoint dropWhile (p : ascii -> bool) (s : str) : str :=
  match s with
  | c :: s' => if p c then dropWhile p s' else s
  | [] => []
  end.

(** The heading pattern, read off a line: one or more [#], one space, and a
    text of at least one character that runs to the end of the line (or to
    a carriage return).  The result is the prefix, [#]s and space, and the
    text. *)
Definition parseHeading (line : str) : option (str * str) :=
  match takeWhile (Ascii.eqb "#") line, dropWhile (Ascii.eqb "#") line with
  | (_ :: _) as hashes, sp :: rest =>
      if Ascii.eqb " " sp then
        match takeWhile is_dot rest with
        | [] => None
        | text => Some (hashes ++ [" "%char], text)
        end
      else None
  | _, _ => None
  end.

(** The first and the last line of a run of lines; a run ends with the
    terminator of its last line, except at the end of the text. *)
Definition firstLineOf (v : str) : str := hd [] (split LF v).

Definition lastLineOf (v : str) : str :=
  match rev (split LF v) with
  | [] :: l :: _ => l
  | l :: _ => l
  | [] => []
  end.

(** The detector as a specification: [oldLineOf] says which line of a
    deletion run is compared with the first line of the insertion run that
    follows it. *)
Definition headingPair (oldLineOf : str -> str) (change nextChange : Change)
  : option HeadingRename :=
  if removed change && added nextChange then
    match parseHeading (oldLineOf (value change)),
          parseHeading (firstLineOf (value nextChange)) with
    | Some (oldPrefix, oldText), Some (newPrefix, newText) =>
        if str_eqb oldPrefix newPrefix
        then Some (mkHeadingRename oldText newText)
        else None
    | _, _ => None
    end
  else None.

Fixpoint headingPairs (oldLineOf : str -> str) (diff : list Change)
  : list HeadingRename :=
  match diff with
  | change :: (nextChange :: _) as rest =>
      match headingPair oldLineOf change nextChange with
      | Some h => h :: headingPairs oldLineOf rest
      | None => headingPairs oldLineOf rest
      end
  | _ => []
  end.

(** C4 as the specification words it: the last line of the deletion run is
    the candidate. *)
Definition detector_as_stated : Prop :=
  forall (diffLines : str -> str -> list Change) (contentBefore contentAfter : str),
    renamedHeadings (diffLines contentBefore contentAfter)
    = headingPairs lastLineOf (diffLines contentBefore contentAfter).

Definition introBefore : str := js "intro" ++ NL ++ js "# Old" ++ NL ++ js "end".
Definition introAfter : str := js "# New" ++ NL ++ js "end".

(** A fragment: [#] and one or more characters other than whitespace and
    [/], as the optional third group of the patterns has it. *)
Definition isFragment (s : str) : Prop :=
  exists frag,
    s = "#"%char :: frag /\ frag <> [] /\ forallb is_fragment_char frag = true.

(** [t] ends with a fragment; and [t] is a path, not empty, followed by a
    fragment. *)
Definition endsWithFragment (t : str) : Prop :=
  exists pathPart frag, t = pathPart ++ frag /\ isFragment frag.

Definition pathThenFragment (t : str) : Prop :=
  exists pathPart frag, pathPart <> [] /\ t = pathPart ++ frag /\ isFragment frag.

(** C7 as the specification words it: no yielded target ends with a
    fragment. *)
Definition fragment_excluded_as_stated : Prop :=
  forall fileContent l o,
    getAllLinks fileContent = Ok l -> In o l -> ~ endsWithFragment (target o).

(** The optional third group. *)
Definition fragmentGroup : regex :=
  RGroup 3 (RSeq (RChar "#") (RPlus true is_fragment_char)).

(** The shape of the two patterns that know fragments: a lazy target, then
    the optional fragment group, then a closing text whose match depends
    neither on the offset nor on the captures. *)
Definition fragmentShaped (r : regex) : Prop :=
  exists a cls closing,
    r = RSeq (RGroup 1 a)
          (RSeq (RGroup 2 (RPlus false cls))
             (RSeq (ROpt fragmentGroup) closing)) /\
    ~ In 2 (groups closing) /\
    (forall s i c i' c',
        rmatch closing finish s i c <> None ->
        rmatch closing finish s i' c' <> None).

(** Modelled from the spec: applying edits is the host's part.  An edit is
    "a half-open text replacement on one document", and the edits of one
    document are applied together, their ranges read against the text the
    engine saw; here they are applied one after another from the last
    position to the first, so that no replacement moves a range still to be
    used.  All ranges of the engine lie on one line. *)

Definition replaceInLine (e : Edit) (l : str) : str :=
  firstn (character (start (range e))) l ++ newText e ++
  skipn (character (end_ (range e))) l.

Fixpoint updateLine (n : nat) (f : str -> str) (lines : list str) : list str :=
  match lines, n with
  | [], _ => []
  | l :: ls, 0 => f l :: ls
  | l :: ls, S n' => l :: updateLine n' f ls
  end.

Definition applyEdit (text : str) (e : Edit) : str :=
  join_with NL
    (updateLine (pline (start (range e))) (replaceInLine e) (split LF text)).

(** [e1] starts after [e2]. *)
Definition startsAfter (e1 e2 : Edit) : bool :=
  let p1 := start (range e1) in
  let p2 := start (range e2) in
  (pline p2 <? pline p1) ||
  ((pline p2 =? pline p1) && (character p2 <? character p1)).

Fixpoint insertEdit (e : Edit) (sorted : list Edit) : list Edit :=
  match sorted with
  | [] => [e]
  | e' :: rest =>
      if startsAfter e e' then e :: sorted else e' :: insertEdit e rest
  end.

Definition lastFirst (edits : list Edit) : list Edit :=
  fold_right insertEdit [] edits.

Definition editsOf (f : File) (edits : list Edit) : list Edit :=
  filter
    (fun e =>
       str_eqb (Posix.normalize (path e))
               (Posix.normalize (windowsToPosix (fpath f))))
    edits.

Definition applyEdits (edits : list Edit) (markdownFiles : FileList) : FileList :=
  map (fun f =>
         mkFile (fpath f)
                (fold_left applyEdit (lastFirst (editsOf f edits)) (content f)))
      markdownFiles.

(** C5 as the specification words it: after the edits of a run are applied,
    a second run with the same paths yields nothing. *)
Definition second_run_quiet_as_stated : Prop :=
  forall cwd minimatch diffLines headingToAnchor payloadBefore payloadAfter
         markdownFiles options edits,
    pureGetEdits cwd minimatch diffLines headingToAnchor
      (RenameEvent payloadBefore payloadAfter) markdownFiles options = Ok edits ->
    pureGetEdits cwd minimatch diffLines headingToAnchor
      (RenameEvent payloadBefore payloadAfter) (applyEdits edits markdownFiles)
      options = Ok [].

Definition deepFiles : FileList := [mkFile (js "/ws/b/c/doc.md") rebasedContent].

(** The rebased form of a reference of the moved document. *)
Definition rebasedTarget (cwd pathBefore pathAfter : str) (o : LinkOccurrence)
  : str :=
  Posix.normalize
    (Posix.relative cwd (Posix.dirname pathAfter)
       (Posix.join (Posix.dirname pathBefore) (target o))).

(* ===================================================================== *)
(** ** Vocabulary of the further properties *)
(* ===================================================================== *)

(** C9 as the specification words it: whatever the event, the document
    set and the options, the engine returns a list of edits.  The engine is
    taken with its collaborators as they are, the matcher with its check of
    the pattern. *)
Definition returns_as_stated : Prop :=
  forall event markdownFiles options,
    exists edits,
      Reference.getEditsChecked event markdownFiles options = Ok edits.

(** A pattern one character longer than [minimatch] accepts. *)
Definition longPattern : str := repeat "a"%char (S Reference.maxPatternLength).

(** A document as the head of [handleRenameEvent] rewrites it: the path
    with its separators converted, the content as it is. *)
Definition posixFile (file : File) : File :=
  mkFile (windowsToPosix (fpath file)) (content file).

(** A folder rename: the folder [docs] becomes [manual], and [index.md]
    refers to a document in it. *)
Definition folderFiles : FileList :=
  [mkFile (js "index.md") (js "[g](docs/guide.md)")].

Definition folderEdit : Edit :=
  mkEdit (js "index.md") (mkRange (mkPosition 0 4) (mkPosition 0 17))
         (js "manual/guide.md") (Some (js "manual/guide.md")).

(** The character every match of a pattern starts with, for a pattern that
    opens with a literal character. *)
Fixpoint firstChar (r : regex) : option ascii :=
  match r with
  | RChar a => Some a
  | RSeq r1 _ => firstChar r1
  | RGroup _ r1 => firstChar r1
  | _ => None
  end.

(** Spans of a text, each an offset and the text found there, that come in
    text order and do not touch: the first starts after offset [from], and
    each of the others after the end of the one before it. *)
Fixpoint spansFrom (from : nat) (spans : list (nat * str)) : Prop :=
  match spans with
  | [] => True
  | (i, raw) :: rest => from < i /\ spansFrom (i + length raw) rest
  end.

(** A heading line of the given level, without its terminator: [level]
    times [#], one space, the text. *)
Definition headingLine (level : nat) (text : str) : str :=
  repeat "#"%char level ++ " "%char :: text.

(** What may follow a line in a run of a diff: nothing, or a line
    terminator and more. *)
Definition endsLine (rest : str) : Prop :=
  match rest with
  | [] => True
  | c :: _ => is_dot c = false
  end.

(** The text of a double-bracket link: [[[target]]]. *)
Definition wikiLink (linkTarget : str) : str :=
  js "[[" ++ linkTarget ++ js "]]".

(** The edit of the second loop for a reference [o] of [markdownFile]
    that resolves to [pathBefore] itself: the new text is the way from the
    document's directory to [pathAfter], without its last three characters
    for a double-bracket reference written without [.md]. *)
Definition exactMoveEdit (cwd pathAfter : str) (markdownFile : File)
    (o : LinkOccurrence) : Edit :=
  let newLink :=
    Posix.normalize
      (Posix.relative cwd (Posix.dirname (fpath markdownFile)) pathAfter) in
  mkEdit (fpath markdownFile) (targetRange o)
    (if negb (replaceFileExtension o) then
       if negb (includes (js ".md") (target o)) then slice_0_m3 newLink
       else newLink
     else newLink)
    None.

(** The edit of the second loop for a reference [o] of [markdownFile]
    that resolves to [pathBefore/rest]: the new text is the way from the
    document's directory to [pathAfter/rest], without its last three
    characters for a double-bracket reference, and [pathAfter/rest] is
    required to exist. *)
Definition nestedMoveEdit (cwd pathAfter : str) (markdownFile : File)
    (o : LinkOccurrence) (rest : str) : Edit :=
  let newAbsoluteTarget := pathAfter ++ js "/" ++ rest in
  let newLink :=
    Posix.relative cwd (Posix.dirname (fpath markdownFile)) newAbsoluteTarget in
  mkEdit (fpath markdownFile) (targetRange o)
    (if negb (replaceFileExtension o) then slice_0_m3 newLink else newLink)
    (Some newAbsoluteTarget).

(** The path a reference names: its target joined to the directory of the
    document that holds it, normalized. *)
Definition linkedPath (markdownFile : File) (o : LinkOccurrence) : str :=
  Posix.normalize (Posix.join (Posix.dirname (fpath markdownFile)) (target o)).

(** A reference to a note in a folder whose name holds [.md]. *)
Definition dottedFile : File := mkFile (js "my.mdocs/index.md") (js "[[note]]").

(** The text of an inline link: [[name](link)]. *)
Definition inlineLink (name link : str) : str :=
  js "[" ++ name ++ js "](" ++ link ++ js ")".

(** The edit the save handler yields for line [lineNumber], with text
    [line], label [name] and the renamed heading [h]. *)
Definition anchorEdit (headingToAnchor : str -> str) (docPath : str)
    (lineNumber : nat) (line name : str) (h : HeadingRename) : Edit :=
  mkEdit docPath
    (mkRange (mkPosition lineNumber 0) (mkPosition lineNumber (length line)))
    (inlineLink name (js "#" ++ headingToAnchor (newHeader h)))
    None.

(* ===================================================================== *)
(** ** Documents whose references are inline links

    A text of this kind is a sequence of chunks, each a stretch of text and
    one inline link, and a last stretch of text.  The stretches hold no
    opening bracket and no opening angle bracket, so the links are the only
    references.  [render] gives the text back. *)
(* ===================================================================== *)

Record Chunk : Type := mkChunk {
  chunkLead : str;
  chunkLabel : str;
  chunkTarget : str
}.

Definition renderChunk (c : Chunk) : str :=
  chunkLead c ++ inlineLink (chunkLabel c) (chunkTarget c).

Fixpoint render (chunks : list Chunk) (tail : str) : str :=
  match chunks with
  | [] => tail
  | c :: cs => renderChunk c ++ render cs tail
  end.

Record Doc : Type := mkDoc {
  docPath : str;
  docChunks : list Chunk;
  docTail : str
}.

Definition toFile (d : Doc) : File :=
  mkFile (docPath d) (render (docChunks d) (docTail d)).

(** [s] holds none of the characters [chars]. *)
Definition lacks (chars s : str) : bool :=
  forallb (fun c => negb (existsb (Ascii.eqb c) chars)) s.

Definition plain (s : str) : bool := lacks (js "[<") s.

Definition plainLabel (s : str) : bool := lacks (js "[<]") s.

(** A target that reads back as it was written: without bracket, closing
    parenthesis, [#], backslash and line feed.  It may be empty: the text
    [[label]()] is no link for the scan. *)
Definition plainTarget (t : str) : bool := lacks (js "[<)#\" ++ [LF]) t.

Definition wellFormed (c : Chunk) : bool :=
  plain (chunkLead c) && plainLabel (chunkLabel c) && plainTarget (chunkTarget c).

Definition wellFormedDoc (d : Doc) : bool :=
  forallb wellFormed (docChunks d) && plain (docTail d).

(** The occurrence of a target that starts right after [prefix], and the
    occurrences of the links of [chunks] in a text that starts with [done]
    followed by the chunks. *)
Definition occAt (prefix raw : str) : LinkOccurrence :=
  occurrenceOf prefix (length prefix) raw true.

Fixpoint occurrencesOf (done : str) (chunks : list Chunk)
  : list LinkOccurrence :=
  match chunks with
  | [] => []
  | c :: cs =>
      let prefix := done ++ chunkLead c ++ "["%char :: chunkLabel c ++ js "](" in
      let rest := occurrencesOf (prefix ++ chunkTarget c ++ js ")") cs in
      match chunkTarget c with
      | [] => rest
      | _ => occAt prefix (chunkTarget c) :: rest
      end
  end.

(** Whether a text holds two opening brackets in a row. *)
Fixpoint doubled (s : str) : bool :=
  match s with
  | [] => false
  | x :: s' =>
      (Ascii.eqb x "[" &&
       match s' with
       | y :: _ => Ascii.eqb y "["
       | [] => false
       end) || doubled s'
  end.

(** What the two loops of a rename make of an inline reference with target
    [t]: the new text the second loop gives it in document [f], if it
    rewrites it, and whether the first loop leaves it as it is. *)
Definition inlineRef (t : str) : LinkOccurrence := mkLink t 0 0 true.

Definition repairedTarget (cwd pathBefore pathAfter : str) (f : File) (t : str)
  : option str :=
  option_map newText
    (hd_error (repairEdit cwd pathBefore pathAfter f (inlineRef t))).

Definition rebasedAlready (cwd pathBefore pathAfter t : str) : bool :=
  match rebaseEdit cwd pathBefore pathAfter (inlineRef t) with
  | [] => true
  | _ => false
  end.

(** A chunk and a document after the second loop's edits are applied:
    each rewritten target is replaced by its new text; a chunk with an
    empty target is no link and stays, and so does a document that fails
    the glob filter. *)
Definition retarget (cwd pathBefore pathAfter : str) (f : File) (c : Chunk)
  : Chunk :=
  match chunkTarget c with
  | [] => c
  | t =>
      match repairedTarget cwd pathBefore pathAfter f t with
      | Some n => mkChunk (chunkLead c) (chunkLabel c) n
      | None => c
      end
  end.

Definition updatedDoc (cwd : str) (minimatch : str -> str -> bool)
    (options : Options) (pathBefore pathAfter : str) (d : Doc) : Doc :=
  let f := posixFile (toFile d) in
  if shouldIncludePath cwd minimatch options (fpath f)
  then mkDoc (docPath d) (map (retarget cwd pathBefore pathAfter f) (docChunks d))
             (docTail d)
  else d.

(** The line and column at the end of [s], and the order of positions. *)
Definition lineCol (s : str) : Position :=
  mkPosition (length (split LF s) - 1) (length (last (split LF s) [])).

Definition posLe (p q : Position) : Prop :=
  pline p < pline q \/ (pline p = pline q /\ character p <= character q).

(** What the second loop yields for the chunks of document [f] that follow
    the text [done], and for a whole document. *)
Definition chunkEdits (cwd pathBefore pathAfter : str) (f : File) (done : str)
    (chunks : list Chunk) : list Edit :=
  flat_map (repairEdit cwd pathBefore pathAfter f) (occurrencesOf done chunks).

Definition docEdits (cwd pathBefore pathAfter : str) (d : Doc) : list Edit :=
  chunkEdits cwd pathBefore pathAfter (posixFile (toFile d)) [] (docChunks d).

(** The path under which the engine and the host know a document, and
    whether the document passes the glob filter. *)
Definition docKey (d : Doc) : str :=
  Posix.normalize (windowsToPosix (docPath d)).

Definition trackedDoc (cwd : str) (minimatch : str -> str -> bool)
    (options : Options) (d : Doc) : bool :=
  shouldIncludePath cwd minimatch options (windowsToPosix (docPath d)).

(** The moved document's references are in rebased form: the first loop
    leaves them as they are. *)
Definition movedSettled (cwd : str) (minimatch : str -> str -> bool)
    (options : Options) (pathBefore pathAfter : str) (docs : list Doc) : Prop :=
  forall d c,
    In d docs -> trackedDoc cwd minimatch options d = true ->
    docKey d = pathAfter -> In c (docChunks d) -> chunkTarget c <> [] ->
    rebasedAlready cwd pathBefore pathAfter (chunkTarget c) = true.

(** The new targets of the second loop read back as they are written and
    are left alone by a further run: the second loop does not rewrite them
    again and, in the moved document, the first loop does not either. *)
Definition retargetsSettle (cwd : str) (minimatch : str -> str -> bool)
    (options : Options) (pathBefore pathAfter : str) (docs : list Doc) : Prop :=
  forall d c n,
    In d docs -> trackedDoc cwd minimatch options d = true ->
    In c (docChunks d) -> chunkTarget c <> [] ->
    repairedTarget cwd pathBefore pathAfter (posixFile (toFile d)) (chunkTarget c)
      = Some n ->
    plainTarget n = true /\
    (n <> [] ->
     repairedTarget cwd pathBefore pathAfter (posixFile (toFile d)) n = None /\
     (docKey d = pathAfter -> rebasedAlready cwd pathBefore pathAfter n = true)).

(* ===================================================================== *)
(** ** Plain paths

    A plain path is a sequence of names, taken from the root or from the
    working directory; a plain reference climbs some directories and then
    names its way down. *)
(* ===================================================================== *)

(** A name: not empty, not [.] or [..], and without separator, bracket,
    closing parenthesis, [#], backslash and line feed. *)
Definition plainName (s : str) : bool :=
  negb (str_eqb s []) && negb (str_eqb s Posix.dot) &&
  negb (str_eqb s Posix.dotdot) && lacks (js "/") s && plainTarget s.

Definition pathOf (absolute : bool) (names : list str) : str :=
  (if absolute then Posix.sep else []) ++ join_with Posix.sep names.

(** The same as a directory: the root is [/], the working directory [.]. *)
Definition placeOf (absolute : bool) (names : list str) : str :=
  match names with
  | [] => if absolute then Posix.sep else Posix.dot
  | _ => pathOf absolute names
  end.

(** The reference that climbs [ups] directories and then follows
    [names]; the one that does neither is [.]. *)
Definition targetOf (ups : nat) (names : list str) : str :=
  match repeat Posix.dotdot ups ++ names with
  | [] => Posix.dot
  | segs => join_with Posix.sep segs
  end.

(** Whether the names [a] begin the names [b]. *)
Fixpoint isPrefix (a b : list str) : bool :=
  match a, b with
  | [], _ => true
  | x :: a', y :: b' => str_eqb x y && isPrefix a' b'
  | _ :: _, [] => false
  end.

(** A note is a document at a plain path whose text is made of inline
    links with plain references. *)
Record Ref : Type := mkRef {
  refLead : str;
  refLabel : str;
  refUps : nat;
  refNames : list str
}.

Record Note : Type := mkNote {
  noteDir : list str;
  noteName : str;
  noteRefs : list Ref;
  noteTail : str
}.

Definition notePath (n : Note) : list str := noteDir n ++ [noteName n].

Definition refChunk (r : Ref) : Chunk :=
  mkChunk (refLead r) (refLabel r) (targetOf (refUps r) (refNames r)).

Definition noteDoc (absolute : bool) (n : Note) : Doc :=
  mkDoc (pathOf absolute (notePath n)) (map refChunk (noteRefs n)) (noteTail n).

(** The names of the place a reference reaches from the directory
    [dir]. *)
Definition reached (dir : list str) (r : Ref) : list str :=
  firstn (length dir - refUps r) dir ++ refNames r.

(** A reference of a note in [dir] is plain when its texts and names are
    and it does not climb above the first name of [dir]. *)
Definition plainRef (dir : list str) (r : Ref) : bool :=
  plain (refLead r) && plainLabel (refLabel r) &&
  forallb plainName (refNames r) && (refUps r <=? length dir).

Definition plainNote (n : Note) : bool :=
  forallb plainName (notePath n) && forallb (plainRef (noteDir n)) (noteRefs n) &&
  plain (noteTail n).

(** A reference is in shortest form when it climbs out of no directory
    that it enters again: if it climbs and then names something, the first
    name is not the directory it left last. *)
Definition shortest (dir : list str) (r : Ref) : bool :=
  match refUps r, refNames r with
  | S _, q :: _ => negb (str_eqb q (nth (length dir - refUps r) dir []))
  | _, _ => true
  end.

(** The moved note, if it holds references, stayed in its directory and
    holds them in shortest form. *)
Definition movedInPlace (bs ps : list str) (notes : list Note) : Prop :=
  forall n,
    In n notes -> notePath n = ps ->
    noteRefs n = [] \/
    (removelast bs = noteDir n /\
     forallb (shortest (noteDir n)) (noteRefs n) = true).

(* ===================================================================== *)
(** ** Facts about strings *)
(* ===================================================================== *)

Lemma str_eqb_eq (a b : str) : str_eqb a b = true <-> a = b.
Proof.
  revert b; induction a as [|x a IH]; intros [|y b]; simpl; split;
    try congruence; try discriminate.
  - intros H. apply andb_true_iff in H as [Hx Hab].
    apply Ascii.eqb_eq in Hx. apply IH in Hab. congruence.
  - intros H. injection H as -> ->.
    rewrite Ascii.eqb_refl. simpl. now apply IH.
Qed.

Lemma str_eqb_refl (a : str) : str_eqb a a = true.
Proof. now apply str_eqb_eq. Qed.

Lemma str_eqb_neq (a b : str) : str_eqb a b = false <-> a <> b.
Proof.
  split.
  - intros H E. apply str_eqb_eq in E. congruence.
  - intros H. destruct (str_eqb a b) eqn:E; [|reflexivity].
    apply str_eqb_eq in E. contradiction.
Qed.

Lemma windowsToPosix_length (s : str) : length (windowsToPosix s) = length s.
Proof. apply length_map. Qed.

Lemma windowsToPosix_app (a b : str) :
  windowsToPosix (a ++ b) = windowsToPosix a ++ windowsToPosix b.
Proof. apply map_app. Qed.

(* ===================================================================== *)
(** ** Facts about the matcher *)
(* ===================================================================== *)

Module RegexFacts.

Section LoopFacts.
Variable A : Type.
Variable p : ascii -> bool.
Variable k : str -> nat -> option A.

Lemma greedy_star_inv (s : str) (i : nat) (res : A) :
  greedy_star p k s i = Some res ->
  exists t s', s = t ++ s' /\ forallb p t = true /\
               k s' (i + length t) = Some res.
Proof.
  revert i; induction s as [|a s IH]; intros i H; simpl in H.
  - exists [], []. simpl. rewrite Nat.add_0_r. auto.
  - destruct (p a) eqn:Pa.
    + destruct (greedy_star p k s (S i)) eqn:G.
      * injection H as ->. apply IH in G as (t & s' & -> & Ht & Hk).
        exists (a :: t), s'. simpl. rewrite Pa, Ht.
        rewrite Nat.add_succ_comm in Hk. auto.
      * exists [], (a :: s). simpl. rewrite Nat.add_0_r. auto.
    + exists [], (a :: s). simpl. rewrite Nat.add_0_r. auto.
Qed.

(** A greedy loop succeeds as soon as one admissible stop does. *)
Lemma greedy_star_complete (t s' : str) (i : nat) :
  forallb p t = true ->
  k s' (i + length t) <> None ->
  greedy_star p k (t ++ s') i <> None.
Proof.
  revert i; induction t as [|a t IH]; intros i Ht Hk; simpl in *.
  - rewrite Nat.add_0_r in Hk.
    destruct s' as [|b s']; simpl; [assumption|].
    destruct (p b); [|assumption].
    destruct (greedy_star p k s' (S i)); [discriminate|assumption].
  - apply andb_true_iff in Ht as [Pa Ht]. rewrite Pa.
    specialize (IH (S i) Ht). rewrite Nat.add_succ_comm in IH.
    specialize (IH Hk).
    destruct (greedy_star p k (t ++ s') (S i)); [discriminate|contradiction].
Qed.

(** A lazy loop stops at the first admissible place: every shorter stop
    was tried and failed. *)
Lemma lazy_star_inv (s : str) (i : nat) (res : A) :
  lazy_star p k s i = Some res ->
  exists t s', s = t ++ s' /\ forallb p t = true /\
               k s' (i + length t) = Some res /\
               forall t1 t2, t = t1 ++ t2 -> t2 <> [] ->
                             k (t2 ++ s') (i + length t1) = None.
Proof.
  revert i; induction s as [|a s IH]; intros i H; simpl in H.
  - destruct (k [] i) eqn:K; [|discriminate]. injection H as ->.
    exists [], []. simpl. rewrite Nat.add_0_r. repeat split; auto.
    intros t1 t2 E. symmetry in E. apply app_eq_nil in E as [_ ->]. congruence.
  - destruct (k (a :: s) i) eqn:K.
    + injection H as ->. exists [], (a :: s). simpl. rewrite Nat.add_0_r.
      repeat split; auto.
      intros t1 t2 E. symmetry in E. apply app_eq_nil in E as [_ ->]. congruence.
    + destruct (p a) eqn:Pa; [|discriminate].
      apply IH in H as (t & s' & -> & Ht & Hk & Hmin).
      exists (a :: t), s'. simpl. rewrite Pa, Ht.
      rewrite Nat.add_succ_comm in Hk. repeat split; auto.
      intros [|b t1] t2 E Hne; simpl in *.
      * subst t2. simpl. rewrite Nat.add_0_r. exact K.
      * injection E as <- E. rewrite <- Nat.add_succ_comm.
        now apply Hmin.
Qed.

Lemma plus_inv (g : bool) (s : str) (i : nat) (res : A) :
  plus p k g s i = Some res ->
  exists t s', s = t ++ s' /\ forallb p t = true /\ t <> [] /\
               k s' (i + length t) = Some res.
Proof.
  unfold plus. destruct s as [|a s]; [discriminate|].
  destruct (p a) eqn:Pa; [|discriminate]. intros H.
  assert (exists t s', s = t ++ s' /\ forallb p t = true /\
                       k s' (S i + length t) = Some res) as (t & s' & -> & Ht & Hk).
  { destruct g.
    - now apply greedy_star_inv.
    - apply lazy_star_inv in H as (t & s' & ? & ? & ? & _). eauto. }
  exists (a :: t), s'. simpl. rewrite Pa, Ht.
  rewrite <- Nat.add_succ_comm. repeat split; auto. discriminate.
Qed.
End LoopFacts.

(** Where a match of [r] succeeds, it consumed a prefix [t] of the input,
    handed the rest to the continuation, and touched no capture but its
    own. *)
Lemma rmatch_inv (r : regex) :
  forall (k : cont) (s : str) (i : nat) (c : caps) (res : result),
    rmatch r k s i c = Some res ->
    exists t s' c',
      s = t ++ s' /\ minLen r <= length t /\
      k s' (i + length t) c' = Some res /\
      (forall n, ~ In n (groups r) -> capture n c' = capture n c).
Proof.
  induction r as [a|p|r1 IH1 r2 IH2|n r1 IH1|g p|g p|r1 IH1| |];
    intros k s i c res H; simpl in H.
  - destruct s as [|b s]; [discriminate|].
    destruct (Ascii.eqb a b); [|discriminate].
    exists [b], s, c. simpl. rewrite Nat.add_1_r. auto.
  - destruct s as [|b s]; [discriminate|].
    destruct (p b); [|discriminate].
    exists [b], s, c. simpl. rewrite Nat.add_1_r. auto.
  - apply IH1 in H as (t1 & s1 & c1 & -> & L1 & H & C1).
    apply IH2 in H as (t2 & s2 & c2 & -> & L2 & H & C2).
    exists (t1 ++ t2), s2, c2. rewrite <- app_assoc, length_app, Nat.add_assoc.
    simpl. repeat split; auto; try lia.
    intros m Hm. rewrite in_app_iff in Hm.
    rewrite C2, C1; tauto.
  - apply IH1 in H as (t & s' & c' & -> & L & H & C).
    exists t, s', ((n, (i, firstn (i + length t - i) (t ++ s'))) :: c').
    split; [reflexivity|]. split; [exact L|]. split; [exact H|].
    intros m Hm. simpl in *.
    destruct (Nat.eqb_spec m n) as [->|_]; [tauto|]. apply C. tauto.
  - assert (exists t s', s = t ++ s' /\ forallb p t = true /\
                         k s' (i + length t) c = Some res)
      as (t & s' & -> & _ & Hk).
    { destruct g.
      - now apply greedy_star_inv in H.
      - apply lazy_star_inv in H as (t & s' & ? & ? & ? & _). eauto. }
    exists t, s', c. simpl. repeat split; auto. lia.
  - apply plus_inv in H as (t & s' & -> & _ & Hne & Hk).
    exists t, s', c. simpl. repeat split; auto.
    destruct t; [congruence|simpl; lia].
  - destruct (rmatch r1 k s i c) eqn:M.
    + injection H as ->.
      apply IH1 in M as (t & s' & c' & -> & _ & H & C).
      exists t, s', c'. simpl. repeat split; auto. lia.
    + exists [], s, c. simpl. rewrite Nat.add_0_r. auto.
  - destruct (Nat.eqb i 0); [|discriminate].
    exists [], s, c. simpl. rewrite Nat.add_0_r. auto.
  - exists [], s, c. simpl. rewrite Nat.add_0_r. auto.
Qed.

Lemma search_unfold (r : regex) (s : str) (i : nat) :
  search r s i =
  match rmatch r finish s i [] with
  | Some (e, c) => Some (mkMatch i e c)
  | None => match s with _ :: s' => search r s' (S i) | [] => None end
  end.
Proof. destruct s; reflexivity. Qed.

Lemma search_inv (r : regex) (s : str) :
  forall (i : nat) (m : rmatch_result),
    search r s i = Some m ->
    exists pre s1,
      s = pre ++ s1 /\ m_index m = i + length pre /\
      rmatch r finish s1 (m_index m) [] = Some (m_end m, m_caps m).
Proof.
  induction s as [|a s IH]; intros i m H; rewrite search_unfold in H.
  - destruct (rmatch r finish [] i []) as [[e c]|] eqn:M; [|discriminate].
    injection H as <-. exists [], []. simpl. rewrite Nat.add_0_r. auto.
  - destruct (rmatch r finish (a :: s) i []) as [[e c]|] eqn:M.
    + injection H as <-. exists [], (a :: s). simpl. rewrite Nat.add_0_r. auto.
    + apply IH in H as (pre & s1 & -> & Hi & Hm).
      exists (a :: pre), s1. simpl. rewrite <- Nat.add_succ_comm. auto.
Qed.

Lemma exec_inv (r : regex) (input : str) (lastIndex : nat) (m : rmatch_result) :
  exec r input lastIndex = Some m ->
  exists pre s1,
    input = pre ++ s1 /\ length pre = m_index m /\ lastIndex <= m_index m /\
    rmatch r finish s1 (m_index m) [] = Some (m_end m, m_caps m).
Proof.
  unfold exec. destruct (Nat.ltb_spec (length input) lastIndex) as [|Hle];
    [discriminate|].
  intros H. apply search_inv in H as (pre & s1 & E & Hi & Hm).
  exists (firstn lastIndex input ++ pre), s1.
  rewrite <- app_assoc, <- E, firstn_skipn, length_app, length_firstn.
  repeat split; auto; lia.
Qed.

Lemma firstn_span (t s : str) (i : nat) :
  firstn (i + length t - i) (t ++ s) = t.
Proof.
  replace (i + length t - i) with (length t + 0) by lia.
  rewrite firstn_app_2. simpl. apply app_nil_r.
Qed.

Lemma linkShaped_match (r : regex) (s : str) (i e : nat) (c : caps) :
  linkShaped r ->
  rmatch r finish s i [] = Some (e, c) ->
  exists t1 t2 t3 s',
    s = t1 ++ t2 ++ t3 ++ s' /\
    e = i + length t1 + length t2 + length t3 /\
    capture 1 c = Some (i, t1) /\
    capture 2 c = Some (i + length t1, t2) /\
    t1 <> [].
Proof.
  intros (a & b & rest & -> & N1 & N2 & La) H. simpl in H.
  apply rmatch_inv in H as (t1 & s1 & c1 & -> & L1 & H & _).
  simpl in H.
  apply rmatch_inv in H as (t2 & s2 & c2 & -> & _ & H & C2).
  apply rmatch_inv in H as (t3 & s3 & c3 & -> & _ & H & C3).
  unfold finish in H. injection H as <- <-.
  rewrite in_app_iff in N1.
  exists t1, t2, t3, s3. repeat split; auto.
  - rewrite C3 by tauto. simpl. rewrite C2 by tauto. simpl.
    now rewrite firstn_span.
  - rewrite C3 by tauto. simpl. now rewrite firstn_span.
  - destruct t1; simpl in *; [lia|discriminate].
Qed.

End RegexFacts.
Import RegexFacts.

(* ===================================================================== *)
(** ** Facts about link extraction *)
(* ===================================================================== *)

Lemma wikilinkRegex_shaped : linkShaped wikilinkRegex.
Proof.
  eexists _, _, _. split; [reflexivity|]. simpl.
  repeat split; try lia; intuition discriminate.
Qed.

Lemma mdLinkRegexGlobal_shaped : linkShaped mdLinkRegexGlobal.
Proof.
  eexists _, _, _. split; [reflexivity|]. simpl.
  repeat split; try lia; intuition discriminate.
Qed.

Lemma imgRegex_shaped : linkShaped imgRegex.
Proof.
  eexists _, _, _. split; [reflexivity|]. simpl.
  repeat split; try lia; intuition discriminate.
Qed.

Section Scan.
Variable regex : regex.
Variable fileContent : str.
Variable flag : bool.
Hypothesis shaped : linkShaped regex.

(** What [exec] reports for a link-shaped pattern. *)
Lemma exec_shaped (lastIndex : nat) (m : rmatch_result) :
  exec regex fileContent lastIndex = Some m ->
  exists pre t1 t2 post,
    fileContent = pre ++ t1 ++ t2 ++ post /\
    length pre = m_index m /\
    capture 1 (m_caps m) = Some (m_index m, t1) /\
    capture 2 (m_caps m) = Some (m_index m + length t1, t2) /\
    lastIndex < m_end m <= length fileContent.
Proof.
  intros H. apply exec_inv in H as (pre & s1 & -> & Hpre & Hle & H).
  destruct (@linkShaped_match regex _ _ _ _ shaped H)
    as (t1 & t2 & t3 & s' & -> & He & C1 & C2 & Hne).
  exists pre, t1, t2, (t3 ++ s'). repeat split; auto.
  - destruct t1; [congruence|]. simpl in He. lia.
  - rewrite He, !length_app. lia.
Qed.

(** The scan never throws and never outlives its fuel. *)
Lemma matchLoop_ok (fuel : nat) :
  forall lastIndex,
    length fileContent - lastIndex < fuel ->
    exists l, matchLoop fuel regex fileContent lastIndex flag = Ok l.
Proof.
  induction fuel as [|fuel IH]; intros lastIndex Hf; [lia|]. simpl.
  destruct (exec regex fileContent lastIndex) as [m|] eqn:E; [|eauto].
  apply exec_shaped in E as (pre & t1 & t2 & post & _ & _ & C1 & C2 & Hend).
  unfold capText. rewrite C1, C2. simpl.
  destruct (IH (m_end m)) as [l ->]; [lia|].
  simpl. eauto.
Qed.

(** Every occurrence the scan yields comes from a match of the pattern:
    its target is group 2 with separators converted, and its line and
    column are those of the offset at which group 2 starts. *)
Lemma matchLoop_In (fuel : nat) :
  forall lastIndex l o,
    matchLoop fuel regex fileContent lastIndex flag = Ok l ->
    In o l ->
    exists lastIndex' m pre t1 t2 post,
      exec regex fileContent lastIndex' = Some m /\
      fileContent = pre ++ t1 ++ t2 ++ post /\
      length pre = m_index m /\
      capture 1 (m_caps m) = Some (m_index m, t1) /\
      capture 2 (m_caps m) = Some (m_index m + length t1, t2) /\
      o = occurrenceOf fileContent (length (pre ++ t1)) t2 flag.
Proof.
  induction fuel as [|fuel IH]; intros lastIndex l o H Hin; [discriminate|].
  simpl in H.
  destruct (exec regex fileContent lastIndex) as [m|] eqn:E.
  2:{ injection H as <-. destruct Hin. }
  pose proof (exec_shaped _ E)
    as (pre & t1 & t2 & post & Hc & Hpre & C1 & C2 & Hend).
  unfold capText in H. rewrite C1, C2 in H. simpl in H.
  destruct (matchLoop fuel regex fileContent (m_end m) flag) as [rest| |] eqn:R;
    try discriminate.
  simpl in H. injection H as <-. destruct Hin as [<-|Hin].
  - exists lastIndex, m, pre, t1, t2, post. repeat split; auto.
    unfold occurrenceOf. rewrite length_app, Hpre. reflexivity.
  - eapply IH; eauto.
Qed.
End Scan.

Lemma matchLoop_flag (regex : regex) (fileContent : str) (flag : bool) (fuel : nat) :
  forall lastIndex l,
    matchLoop fuel regex fileContent lastIndex flag = Ok l ->
    Forall (fun o => replaceFileExtension o = flag) l.
Proof.
  induction fuel as [|fuel IH]; intros lastIndex l H; [discriminate|].
  simpl in H.
  destruct (exec regex fileContent lastIndex) as [m|].
  2:{ injection H as <-. constructor. }
  destruct (capText 1 (m_caps m)); [|discriminate].
  destruct (capText 2 (m_caps m)); [|discriminate].
  destruct (matchLoop fuel regex fileContent (m_end m) flag) as [rest| |] eqn:R;
    try discriminate.
  simpl in H. injection H as <-. constructor; [reflexivity|eauto].
Qed.

Lemma getMatchingLinks_flag (regex : regex) (fileContent : option str)
    (flag : bool) (l : list LinkOccurrence) :
  getMatchingLinks regex fileContent flag = Ok l ->
  Forall (fun o => replaceFileExtension o = flag) l.
Proof.
  unfold getMatchingLinks. destruct fileContent as [[|c s]|].
  - intros H. injection H as <-. constructor.
  - apply matchLoop_flag.
  - intros H. injection H as <-. constructor.
Qed.

Lemma getMatchingLinks_ok (regex : regex) (fileContent : option str) (flag : bool) :
  linkShaped regex ->
  exists l, getMatchingLinks regex fileContent flag = Ok l.
Proof.
  intros Hs. unfold getMatchingLinks. destruct fileContent as [[|c s]|]; eauto.
  apply matchLoop_ok; [assumption|lia].
Qed.

Lemma getAllLinks_ok (fileContent : option str) :
  exists l, getAllLinks fileContent = Ok l.
Proof.
  unfold getAllLinks.
  destruct (getMatchingLinks_ok fileContent true mdLinkRegexGlobal_shaped) as [md ->].
  destruct (getMatchingLinks_ok fileContent true imgRegex_shaped) as [img ->].
  destruct (getMatchingLinks_ok fileContent false wikilinkRegex_shaped) as [wiki ->].
  simpl. eauto.
Qed.

Lemma concatMapM_ok {A B : Type} (f : A -> outcome (list B)) (xs : list A) :
  (forall a, exists l, f a = Ok l) ->
  exists l, concatMapM f xs = Ok l.
Proof.
  intros Hf. induction xs as [|a xs [l IH]]; simpl; eauto.
  destruct (Hf a) as [la ->]. rewrite IH. simpl. eauto.
Qed.

Lemma concatMapM_In {A B : Type} (f : A -> outcome (list B)) (xs : list A) :
  forall l e,
    concatMapM f xs = Ok l -> In e l ->
    exists a la, In a xs /\ f a = Ok la /\ In e la.
Proof.
  induction xs as [|a xs IH]; intros l e H Hin; simpl in H.
  - injection H as <-. destruct Hin.
  - destruct (f a) as [la| |] eqn:Fa; try discriminate. simpl in H.
    destruct (concatMapM f xs) as [lr| |] eqn:Fr; try discriminate.
    simpl in H. injection H as <-. apply in_app_iff in Hin as [Hin|Hin].
    + exists a, la. simpl. auto.
    + destruct (IH _ _ eq_refl Hin) as (a' & la' & Ha & Hf & He).
      exists a', la'. simpl. auto.
Qed.

(** More fuel never changes what a finished scan returned. *)
Lemma matchLoop_fuel_mono (regex : regex) (fileContent : str) (flag : bool)
    (fuel : nat) :
  forall fuel' lastIndex l,
    fuel <= fuel' ->
    matchLoop fuel regex fileContent lastIndex flag = Ok l ->
    matchLoop fuel' regex fileContent lastIndex flag = Ok l.
Proof.
  induction fuel as [|fuel IH]; intros fuel' lastIndex l Hle H; [discriminate|].
  destruct fuel' as [|fuel']; [lia|]. simpl in *.
  destruct (exec regex fileContent lastIndex) as [m|]; [|assumption].
  destruct (capText 1 (m_caps m)); [|discriminate].
  destruct (capText 2 (m_caps m)); [|discriminate].
  destruct (matchLoop fuel regex fileContent (m_end m) flag) as [rest| |] eqn:R;
    try discriminate.
  rewrite (IH fuel' _ rest) by (auto; lia). assumption.
Qed.

(** C3, counterexample: in the text [[a](b.md)] the inline reference is
    yielded with [replaceFileExtension = true]. *)
Lemma extension_flags_counterexample : ~ extension_flags_as_stated.
Proof.
  intros H.
  destruct (H (Some (js "[a](b.md)")) [mkLink (js "b.md") 0 4 true]
              (mkLink (js "b.md") 0 4 true)) as [Hmd _].
  - reflexivity.
  - simpl. auto.
  - assert (true = false); [|discriminate].
    apply Hmd. eexists. split; [reflexivity|]. simpl. auto.
Qed.

(** C3, amended: [getAllLinks] yields the inline references, then the
    embedded-media references, then the double-bracket references of the
    text; the first two kinds carry [replaceFileExtension = true] and the
    third carries [replaceFileExtension = false]. *)
Theorem getAllLinks_extension_flags (fileContent : option str) :
  exists md img wiki,
    getMatchingLinks mdLinkRegexGlobal fileContent true = Ok md /\
    getMatchingLinks imgRegex fileContent true = Ok img /\
    getMatchingLinks wikilinkRegex fileContent false = Ok wiki /\
    getAllLinks fileContent = Ok (md ++ img ++ wiki) /\
    Forall (fun o => replaceFileExtension o = true) (md ++ img) /\
    Forall (fun o => replaceFileExtension o = false) wiki.
Proof.
  destruct (getMatchingLinks_ok fileContent true mdLinkRegexGlobal_shaped) as [md Hmd].
  destruct (getMatchingLinks_ok fileContent true imgRegex_shaped) as [img Himg].
  destruct (getMatchingLinks_ok fileContent false wikilinkRegex_shaped) as [wiki Hwiki].
  exists md, img, wiki. repeat split; auto.
  - unfold getAllLinks. rewrite Hmd, Himg, Hwiki. reflexivity.
  - apply Forall_app. split; eapply getMatchingLinks_flag; eassumption.
  - eapply getMatchingLinks_flag; eassumption.
Qed.

Section EngineFacts.
Variable cwd : str.
Variable minimatch : str -> str -> bool.
Variable diffLines : str -> str -> list Change.
Variable headingToAnchor : str -> str.

Lemma rebaseEdits_ok (pathBefore pathAfter : str) (fileContent : option str) :
  exists l, rebaseEdits cwd pathBefore pathAfter fileContent = Ok l.
Proof.
  unfold rebaseEdits. destruct (getAllLinks_ok fileContent) as [l ->].
  simpl. eauto.
Qed.

Lemma repairEdits_ok (pathBefore pathAfter : str) (files : FileList) :
  exists l, repairEdits cwd pathBefore pathAfter files = Ok l.
Proof.
  apply concatMapM_ok. intros f. unfold repairFile.
  destruct (getAllLinks_ok (Some (content f))) as [l ->]. simpl. eauto.
Qed.

(** With collaborators that return, the engine returns a list of edits,
    whatever the event, the document set and the options: its own loops
    neither raise nor run on. *)
Lemma pureGetEdits_returns (event : ChangeEvent) (markdownFiles : FileList)
    (options : Options) :
  exists edits,
    pureGetEdits cwd minimatch diffLines headingToAnchor event markdownFiles
      options = Ok edits.
Proof.
  destruct event as [pathBefore pathAfter|path contentBefore contentAfter];
    simpl; [|eauto].
  unfold handleRenameEvent.
  destruct (shouldIncludePath cwd minimatch options _); simpl; [|eauto].
  match goal with
  | |- context [rebaseEdits ?c ?b ?a ?f] =>
      destruct (rebaseEdits_ok b a f) as [moved ->]
  end.
  match goal with
  | |- context [repairEdits ?c ?b ?a ?f] =>
      destruct (repairEdits_ok b a f) as [others ->]
  end.
  simpl. eauto.
Qed.

(** A path that matches an exclude pattern and no include pattern fails
    the glob filter. *)
Lemma excluded_fails_filter (options : Options) (filePath : str) :
  let relativePath :=
    Posix.relative cwd
      (match workspacePath options with Some w => w | None => [] end)
      filePath in
  existsb (minimatch relativePath) (orEmpty (exclude options)) = true ->
  existsb (minimatch relativePath) (orEmpty (include options)) = false ->
  shouldIncludePath cwd minimatch options filePath = false.
Proof.
  intros relativePath Hex Hin. unfold shouldIncludePath.
  fold relativePath.
  replace (existsb (fun pattern => minimatch relativePath pattern)
                   (orEmpty (include options)))
    with (existsb (minimatch relativePath) (orEmpty (include options)))
    by reflexivity.
  rewrite Hin.
  destruct (0 <? length (orEmpty (include options))); [reflexivity|].
  replace (existsb (fun pattern => minimatch relativePath pattern)
                   (orEmpty (exclude options)))
    with (existsb (minimatch relativePath) (orEmpty (exclude options)))
    by reflexivity.
  now rewrite Hex.
Qed.

(** C8: a rename whose [pathBefore] fails the glob filter yields no edit,
    whatever the documents hold. *)
Theorem excluded_rename_yields_no_edits (pathBefore pathAfter : str)
    (markdownFiles : FileList) (options : Options) :
  shouldIncludePath cwd minimatch options
    (Posix.normalize (windowsToPosix pathBefore)) = false ->
  pureGetEdits cwd minimatch diffLines headingToAnchor
    (RenameEvent pathBefore pathAfter) markdownFiles options = Ok [].
Proof.
  intros H. simpl. unfold handleRenameEvent. rewrite H. reflexivity.
Qed.

End EngineFacts.

(** C8, witness: the specification's own example, a rename of
    [folder/a.md] under [exclude = folder/**], with a document that links
    to the renamed file. *)
Lemma excluded_rename_witness :
  shouldIncludePath Reference.cwd Reference.minimatch
    (mkOptions (Some [js "folder/**"]) None None)
    (Posix.normalize (windowsToPosix (js "folder/a.md"))) = false /\
  Reference.getEdits (RenameEvent (js "folder/a.md") (js "folder/b.md"))
    linkingFiles (mkOptions (Some [js "folder/**"]) None None) = Ok [].
Proof.
  split; [vm_compute; reflexivity|].
  apply (excluded_rename_yields_no_edits Reference.cwd Reference.minimatch
           Reference.diffLines Reference.headingToAnchor).
  vm_compute. reflexivity.
Defined.

(** C10: for a save event the edits depend on the payload alone: neither
    the document set, nor the options, nor the glob matcher, nor the working
    directory has any influence. *)
Theorem save_edits_depend_on_payload_only
    (cwd1 cwd2 : str) (minimatch1 minimatch2 : str -> str -> bool)
    (diffLines : str -> str -> list Change) (headingToAnchor : str -> str)
    (path contentBefore contentAfter : str)
    (files1 files2 : FileList) (options1 options2 : Options) :
  pureGetEdits cwd1 minimatch1 diffLines headingToAnchor
    (SaveEvent path contentBefore contentAfter) files1 options1 =
  pureGetEdits cwd2 minimatch2 diffLines headingToAnchor
    (SaveEvent path contentBefore contentAfter) files2 options2.
Proof. reflexivity. Qed.

(* ===================================================================== *)
(** ** Where an occurrence lies in the text *)
(* ===================================================================== *)

Lemma split_not_nil (sep : ascii) (s : str) : split sep s <> [].
Proof.
  destruct s as [|c s]; simpl; [discriminate|].
  destruct (Ascii.eqb c sep); [discriminate|].
  destruct (split sep s); discriminate.
Qed.

Lemma split_app (sep : ascii) (a b : str) :
  split sep (a ++ b) =
  removelast (split sep a) ++
  (last (split sep a) [] ++ hd [] (split sep b)) :: tl (split sep b).
Proof.
  induction a as [|c a IH]; simpl.
  - pose proof (split_not_nil sep b). destruct (split sep b); [congruence|reflexivity].
  - destruct (Ascii.eqb c sep).
    + rewrite IH. pose proof (split_not_nil sep a).
      destruct (split sep a) as [|l ls]; [congruence|]. reflexivity.
    + rewrite IH. pose proof (split_not_nil sep a).
      destruct (split sep a) as [|l [|x ls]]; [congruence| |]; reflexivity.
Qed.

Lemma split_hd_no_sep (sep : ascii) (raw post : str) :
  ~ In sep raw ->
  hd [] (split sep (raw ++ post)) = raw ++ hd [] (split sep post).
Proof.
  induction raw as [|c raw IH]; intros Hn; simpl; [reflexivity|].
  destruct (Ascii.eqb_spec c sep) as [->|Hc].
  - exfalso. apply Hn. simpl. auto.
  - assert (~ In sep raw) as Hn' by (intros Hi; apply Hn; simpl; auto).
    specialize (IH Hn'). pose proof (split_not_nil sep (raw ++ post)).
    destruct (split sep (raw ++ post)); [congruence|]. simpl in *. congruence.
Qed.

Lemma nth_removelast_app {A : Type} (l : list A) (x d : A) (rest : list A) :
  l <> [] ->
  nth (length l - 1) (removelast l ++ x :: rest) d = x.
Proof.
  intros Hl.
  assert (length (removelast l) = length l - 1) as E.
  { rewrite removelast_firstn_len, length_firstn. lia. }
  rewrite <- E, app_nth2, Nat.sub_diag by lia. reflexivity.
Qed.

Lemma nth_last {A : Type} (l : list A) (d : A) :
  nth (length l - 1) l d = last l d.
Proof.
  induction l as [|x l IH]; [reflexivity|].
  destruct l as [|y l]; [reflexivity|].
  simpl in *. rewrite Nat.sub_0_r in IH. exact IH.
Qed.

(** The line and column of an occurrence are those of the offset at which
    its target starts, and, for a target without a line break, the range
    from there over the target's length holds the target as the text has
    it. *)
Lemma occurrence_range_text (pre raw post : str) (flag : bool) :
  ~ In LF raw ->
  rangeText (pre ++ raw ++ post)
    (mkRange
       (mkPosition (line (occurrenceOf (pre ++ raw ++ post) (length pre) raw flag))
                   (col (occurrenceOf (pre ++ raw ++ post) (length pre) raw flag)))
       (mkPosition (line (occurrenceOf (pre ++ raw ++ post) (length pre) raw flag))
                   (col (occurrenceOf (pre ++ raw ++ post) (length pre) raw flag)
                    + length raw)))
  = raw.
Proof.
  intros Hn. unfold rangeText, lineAt, occurrenceOf, substring_to, substring.
  simpl.
  replace (firstn (length pre) (pre ++ raw ++ post)) with pre
    by (rewrite firstn_app, Nat.sub_diag, firstn_all; simpl;
        now rewrite app_nil_r).
  rewrite nth_last, split_app.
  rewrite nth_removelast_app by apply split_not_nil.
  rewrite split_hd_no_sep by assumption.
  replace (length (last (split LF pre) []) + length raw
           - length (last (split LF pre) [])) with (length raw) by lia.
  rewrite skipn_app, skipn_all, Nat.sub_diag. simpl.
  rewrite firstn_app, Nat.sub_diag, firstn_all. simpl. apply app_nil_r.
Qed.

(** A target that holds a line break starts at its line and column, but
    the range over its length stays on the first line and holds only the
    part of the target that lies there. *)
Example broken_target_range :
  let text := js "[a](x" ++ NL ++ js "y)" in
  getAllLinks (Some text) = Ok [mkLink (js "x" ++ NL ++ js "y") 0 4 true] /\
  rangeText text (mkRange (mkPosition 0 4) (mkPosition 0 7)) = js "x".
Proof. split; vm_compute; reflexivity. Qed.

Lemma getMatchingLinks_In (regex : regex) (fileContent : option str)
    (flag : bool) (l : list LinkOccurrence) (o : LinkOccurrence) :
  linkShaped regex ->
  getMatchingLinks regex fileContent flag = Ok l ->
  In o l ->
  exists c lastIndex m pre t1 t2 post,
    fileContent = Some c /\
    exec regex c lastIndex = Some m /\
    c = pre ++ t1 ++ t2 ++ post /\
    length pre = m_index m /\
    capture 1 (m_caps m) = Some (m_index m, t1) /\
    capture 2 (m_caps m) = Some (m_index m + length t1, t2) /\
    o = occurrenceOf c (length (pre ++ t1)) t2 flag.
Proof.
  intros Hs H Hin. unfold getMatchingLinks in H.
  destruct fileContent as [[|a c]|].
  - injection H as <-. destruct Hin.
  - destruct (@matchLoop_In regex (a :: c) flag Hs _ _ _ _ H Hin)
      as (li & m & pre & t1 & t2 & post & ? & ? & ? & ? & ? & ?).
    exists (a :: c), li, m, pre, t1, t2, post. repeat split; auto.
  - injection H as <-. destruct Hin.
Qed.

Lemma getAllLinks_In (fileContent : option str) (l : list LinkOccurrence)
    (o : LinkOccurrence) :
  getAllLinks fileContent = Ok l ->
  In o l ->
  exists regex flag l',
    (regex = mdLinkRegexGlobal \/ regex = imgRegex \/ regex = wikilinkRegex) /\
    getMatchingLinks regex fileContent flag = Ok l' /\ In o l'.
Proof.
  unfold getAllLinks. intros H Hin.
  destruct (getMatchingLinks mdLinkRegexGlobal fileContent true) as [md| |] eqn:Hmd;
    try discriminate. simpl in H.
  destruct (getMatchingLinks imgRegex fileContent true) as [img| |] eqn:Himg;
    try discriminate. simpl in H.
  destruct (getMatchingLinks wikilinkRegex fileContent false) as [wiki| |] eqn:Hwiki;
    try discriminate. simpl in H.
  injection H as <-. rewrite !in_app_iff in Hin.
  destruct Hin as [Hin|[Hin|Hin]].
  - exists mdLinkRegexGlobal, true, md. auto.
  - exists imgRegex, true, img. auto.
  - exists wikilinkRegex, false, wiki. auto.
Qed.

Lemma scanning_patterns_shaped (regex : regex) :
  regex = mdLinkRegexGlobal \/ regex = imgRegex \/ regex = wikilinkRegex ->
  linkShaped regex.
Proof.
  intros [->|[->| ->]];
    [apply mdLinkRegexGlobal_shaped|apply imgRegex_shaped|apply wikilinkRegex_shaped].
Qed.

Lemma getAllLinks_located (fileContent : option str) (l : list LinkOccurrence)
    (o : LinkOccurrence) :
  getAllLinks fileContent = Ok l ->
  In o l ->
  exists content, fileContent = Some content /\ locatedIn content o.
Proof.
  intros H Hin.
  destruct (@getAllLinks_In _ _ _ H Hin) as (regex & flag & l' & Hr & Hl & Hin').
  destruct (@getMatchingLinks_In _ _ _ _ _ (scanning_patterns_shaped Hr) Hl Hin')
    as (c & li & m & pre & t1 & t2 & post & -> & _ & Hc & _ & _ & _ & Ho).
  exists c. split; [reflexivity|].
  exists (pre ++ t1), t2, post, flag. split; [|exact Ho].
  now rewrite <- app_assoc.
Qed.

Lemma windowsToPosix_In_LF (s : str) : In LF (windowsToPosix s) <-> In LF s.
Proof.
  unfold windowsToPosix. rewrite in_map_iff. split.
  - intros (c & Hc & Hin). destruct (Ascii.eqb c "\"%char).
    + discriminate.
    + now subst.
  - intros Hin. exists LF. split; [reflexivity|assumption].
Qed.

(** For a reference whose target holds no line break, the range from its
    line and column over the target's length holds the target as the text
    has it: the same text up to the separators, and the same length. *)
Lemma located_range_text (content : str) (o : LinkOccurrence) :
  locatedIn content o ->
  ~ In LF (target o) ->
  windowsToPosix
    (rangeText content
       (mkRange (mkPosition (line o) (col o))
                (mkPosition (line o) (col o + length (target o)))))
  = target o /\
  length
    (rangeText content
       (mkRange (mkPosition (line o) (col o))
                (mkPosition (line o) (col o + length (target o)))))
  = length (target o).
Proof.
  intros (pre & raw & post & flag & -> & ->) Hn.
  assert (~ In LF raw) as Hraw.
  { intros Hi. apply Hn. simpl. now apply windowsToPosix_In_LF. }
  replace (length (target (occurrenceOf (pre ++ raw ++ post) (length pre) raw flag)))
    with (length raw) by (simpl; now rewrite windowsToPosix_length).
  rewrite (@occurrence_range_text pre raw post flag Hraw).
  split; reflexivity.
Qed.

(* ===================================================================== *)
(** ** Where the edits of a rename come from *)
(* ===================================================================== *)

Section RenameFacts.
Variable cwd : str.
Variable minimatch : str -> str -> bool.

Lemma rebaseEdit_inv (pathBefore pathAfter : str) (o : LinkOccurrence) (e : Edit) :
  In e (rebaseEdit cwd pathBefore pathAfter o) ->
  path e = pathAfter /\ range e = targetRange o /\
  newText e =
    Posix.normalize
      (Posix.relative cwd (Posix.dirname pathAfter)
         (Posix.join (Posix.dirname pathBefore) (target o))) /\
  Posix.normalize (target o) <> newText e.
Proof.
  unfold rebaseEdit.
  destruct (str_eqb (Posix.normalize (target o)) _) eqn:E; simpl;
    [intros []|].
  intros [<-|[]]. simpl. repeat split. now apply str_eqb_neq.
Qed.

Lemma repairEdit_inv (pathBefore pathAfter : str) (f : File)
    (o : LinkOccurrence) (e : Edit) :
  In e (repairEdit cwd pathBefore pathAfter f o) ->
  path e = fpath f /\ range e = targetRange o.
Proof.
  unfold repairEdit.
  destruct (str_eqb _ pathBefore); [intros [<-|[]]; auto|].
  destruct (startsWith _ _); [intros [<-|[]]; auto|intros []].
Qed.

Lemma rebaseEdits_In (pathBefore pathAfter : str) (fileContent : option str)
    (moved : list Edit) (e : Edit) :
  rebaseEdits cwd pathBefore pathAfter fileContent = Ok moved ->
  In e moved ->
  exists links o,
    getAllLinks fileContent = Ok links /\ In o links /\
    In e (rebaseEdit cwd pathBefore pathAfter o).
Proof.
  unfold rebaseEdits. intros H Hin.
  destruct (getAllLinks fileContent) as [links| |]; try discriminate.
  simpl in H. injection H as <-. apply in_flat_map in Hin as (o & Ho & He).
  eauto.
Qed.

Lemma repairEdits_In (pathBefore pathAfter : str) (files : FileList)
    (others : list Edit) (e : Edit) :
  repairEdits cwd pathBefore pathAfter files = Ok others ->
  In e others ->
  exists f links o,
    In f files /\ getAllLinks (Some (content f)) = Ok links /\ In o links /\
    In e (repairEdit cwd pathBefore pathAfter f o).
Proof.
  unfold repairEdits. intros H Hin.
  destruct (@concatMapM_In _ _ _ _ _ _ H Hin) as (f & la & Hf & Hla & He).
  unfold repairFile in Hla.
  destruct (getAllLinks (Some (content f))) as [links| |] eqn:L; try discriminate.
  simpl in Hla. injection Hla as <-.
  apply in_flat_map in He as (o & Ho & He). exists f, links, o. auto.
Qed.

(** The edits of a rename are those of the first loop, on the first
    tracked document whose normalized path is [pathAfter], followed by
    those of the second loop, on all tracked documents. *)
Lemma handleRenameEvent_inv (payloadBefore payloadAfter : str)
    (markdownFiles : FileList) (options : Options) (edits : list Edit) :
  let pathBefore := Posix.normalize (windowsToPosix payloadBefore) in
  let pathAfter := Posix.normalize (windowsToPosix payloadAfter) in
  let tracked := trackedFiles cwd minimatch markdownFiles options in
  handleRenameEvent cwd minimatch payloadBefore payloadAfter markdownFiles
    options = Ok edits ->
  edits = [] \/
  exists moved others,
    rebaseEdits cwd pathBefore pathAfter
      (option_map content
         (find (fun file => str_eqb (Posix.normalize (fpath file)) pathAfter)
               tracked)) = Ok moved /\
    repairEdits cwd pathBefore pathAfter tracked = Ok others /\
    edits = moved ++ others.
Proof.
  intros pathBefore pathAfter tracked. unfold handleRenameEvent.
  fold pathBefore pathAfter tracked.
  destruct (shouldIncludePath cwd minimatch options pathBefore); simpl.
  2:{ intros H. injection H as <-. auto. }
  destruct (rebaseEdits cwd pathBefore pathAfter _) as [moved| |];
    try discriminate. simpl.
  destruct (repairEdits cwd pathBefore pathAfter tracked) as [others| |];
    try discriminate. simpl.
  intros H. injection H as <-. right. eauto.
Qed.

Lemma trackedFiles_In (markdownFiles : FileList) (options : Options) (f : File) :
  In f (trackedFiles cwd minimatch markdownFiles options) ->
  shouldIncludePath cwd minimatch options (fpath f) = true /\
  exists file,
    In file markdownFiles /\
    f = mkFile (windowsToPosix (fpath file)) (content file).
Proof.
  unfold trackedFiles. rewrite filter_In, in_map_iff.
  intros [(file & <- & Hin) Hs]. split; [exact Hs|]. eauto.
Qed.

End RenameFacts.

(* ===================================================================== *)
(** ** C1: the range of an edit *)
(* ===================================================================== *)

(** C1, counterexample: saving a document whose heading was renamed yields
    an edit over the whole line [1], columns [0] to [17], while the target
    [#old-title] of the link on that line spans columns [6] to [16]. *)
Lemma edit_ranges_counterexample : ~ edit_ranges_as_stated.
Proof.
  intros H.
  pose (e := mkEdit (js "a.md") (mkRange (mkPosition 1 0) (mkPosition 1 17))
                    (js "[see](#new-title)") None).
  destruct (H Reference.cwd Reference.minimatch Reference.diffLines
              Reference.headingToAnchor
              (SaveEvent (js "a.md") savedBefore savedAfter) []
              (mkOptions None None None) [e] e)
    as (content & Hc & links & o & Hl & Hin & Hr).
  - reflexivity.
  - simpl. auto.
  - destruct Hc as [<-|[]]. vm_compute in Hl. injection Hl as <-.
    destruct Hin as [<-|[]]. discriminate Hr.
Qed.

Lemma anchorEdits_inv (headingToAnchor : str -> str) (docPath : str)
    (renamed : list HeadingRename) (lineNumber : nat) (line : str) (e : Edit) :
  In e (anchorEdits headingToAnchor docPath renamed lineNumber line) ->
  path e = docPath /\
  range e = mkRange (mkPosition lineNumber 0) (mkPosition lineNumber (length line)).
Proof.
  unfold anchorEdits.
  destruct (match_ mdLinkRegex line) as [m|]; [|intros []].
  destruct (Nat.eqb (m_end m) (m_index m)); [intros []|].
  destruct (capText 2 (m_caps m)) as [link|]; [|intros []].
  rewrite in_flat_map. intros (h & _ & He).
  destruct (str_eqb link _); [|destruct He].
  destruct He as [<-|[]]. auto.
Qed.

Lemma anchorLoop_inv (headingToAnchor : str -> str) (docPath : str)
    (renamed : list HeadingRename) (lines : list str) :
  forall (lineNumber : nat) (e : Edit),
    In e (anchorLoop headingToAnchor docPath renamed lineNumber lines) ->
    path e = docPath /\
    exists n,
      n < length lines /\
      range e = mkRange (mkPosition (lineNumber + n) 0)
                        (mkPosition (lineNumber + n) (length (nth n lines []))).
Proof.
  induction lines as [|line lines IH]; intros lineNumber e Hin; [destruct Hin|].
  simpl in Hin. apply in_app_iff in Hin as [Hin|Hin].
  - apply anchorEdits_inv in Hin as [Hp Hr]. split; [exact Hp|].
    exists 0. simpl. rewrite Nat.add_0_r. split; [lia|exact Hr].
  - apply IH in Hin as (Hp & n & Hn & Hr). split; [exact Hp|].
    exists (S n). simpl. rewrite <- Nat.add_succ_comm. split; [lia|exact Hr].
Qed.

Section RangeFacts.
Variable cwd : str.
Variable minimatch : str -> str -> bool.
Variable diffLines : str -> str -> list Change.
Variable headingToAnchor : str -> str.

(** C1, amended: for a rename event, every edit rewrites a reference of a
    tracked document: its range starts at the reference's line and column
    and ends, on the same line, the target's length further; where the
    target holds no line break, the text in that range is the target as
    the document has it (equal to the target once separators are
    converted, and of the same length).  For a save event, every edit
    covers the whole of one line of the saved text, from column 0 to the
    line's length. *)
Theorem edit_range_spans (event : ChangeEvent) (markdownFiles : FileList)
    (options : Options) (edits : list Edit) (e : Edit) :
  pureGetEdits cwd minimatch diffLines headingToAnchor event markdownFiles
    options = Ok edits ->
  In e edits ->
  match event with
  | RenameEvent _ _ =>
      exists f o links,
        In f (trackedFiles cwd minimatch markdownFiles options) /\
        (path e = fpath f \/ path e = Posix.normalize (fpath f)) /\
        getAllLinks (Some (content f)) = Ok links /\ In o links /\
        range e = mkRange (mkPosition (line o) (col o))
                          (mkPosition (line o) (col o + length (target o))) /\
        (~ In LF (target o) ->
         windowsToPosix (rangeText (content f) (range e)) = target o /\
         length (rangeText (content f) (range e)) = length (target o))
  | SaveEvent docPath _ contentAfter =>
      path e = docPath /\
      exists n,
        n < length (split LF contentAfter) /\
        range e = mkRange (mkPosition n 0)
                          (mkPosition n (length (lineAt contentAfter n)))
  end.
Proof.
  destruct event as [payloadBefore payloadAfter|docPath contentBefore contentAfter];
    simpl; intros H Hin.
  - apply handleRenameEvent_inv in H as [->|(moved & others & Hm & Ho & ->)];
      [destruct Hin|].
    assert (forall f o links,
               getAllLinks (Some (content f)) = Ok links -> In o links ->
               range e = targetRange o ->
               range e = mkRange (mkPosition (line o) (col o))
                           (mkPosition (line o) (col o + length (target o))) /\
               (~ In LF (target o) ->
                windowsToPosix (rangeText (content f) (range e)) = target o /\
                length (rangeText (content f) (range e)) = length (target o)))
      as Hspan.
    { intros f o links Hl Hol Hr. split; [exact Hr|]. intros Hn.
      destruct (@getAllLinks_located _ _ _ Hl Hol) as (c & Hc & Hloc).
      injection Hc as <-. rewrite Hr. now apply located_range_text. }
    apply in_app_iff in Hin as [Hin|Hin].
    + destruct (@rebaseEdits_In cwd _ _ _ _ _ Hm Hin) as (links & o & Hl & Hol & He).
      apply rebaseEdit_inv in He as (Hp & Hr & _).
      destruct (find _ _) as [f|] eqn:F.
      2:{ simpl in Hl. vm_compute in Hl. injection Hl as <-. destruct Hol. }
      apply find_some in F as [Hf Heq]. apply str_eqb_eq in Heq.
      exists f, o, links. simpl in Hl.
      destruct (Hspan f o links Hl Hol Hr) as [Hr' Ht].
      split; [exact Hf|]. split; [right; congruence|].
      split; [exact Hl|]. split; [exact Hol|]. split; assumption.
    + destruct (@repairEdits_In cwd _ _ _ _ _ Ho Hin)
        as (f & links & o & Hf & Hl & Hol & He).
      apply repairEdit_inv in He as (Hp & Hr).
      exists f, o, links.
      destruct (Hspan f o links Hl Hol Hr) as [Hr' Ht].
      split; [exact Hf|]. split; [left; exact Hp|].
      split; [exact Hl|]. split; [exact Hol|]. split; assumption.
  - injection H as <-. unfold handleSaveEvent in Hin.
    apply anchorLoop_inv in Hin as (Hp & n & Hn & Hr).
    split; [exact Hp|]. exists n. split; [exact Hn|exact Hr].
Qed.

End RangeFacts.

(** C1, witness: renaming [folder/a.md] to [folder/b.md] while [c.md] holds
    [[x](folder/a.md)] yields one edit, over columns 4 to 15 of line 0. *)
Lemma edit_range_spans_witness :
  Reference.getEdits (RenameEvent (js "folder/a.md") (js "folder/b.md"))
    linkingFiles noOptions = Ok [linkingEdit] /\
  exists f o links,
    In f (trackedFiles Reference.cwd Reference.minimatch linkingFiles noOptions) /\
    (path linkingEdit = fpath f \/ path linkingEdit = Posix.normalize (fpath f)) /\
    getAllLinks (Some (content f)) = Ok links /\ In o links /\
    range linkingEdit =
      mkRange (mkPosition (line o) (col o))
              (mkPosition (line o) (col o + length (target o))) /\
    (~ In LF (target o) ->
     windowsToPosix (rangeText (content f) (range linkingEdit)) = target o /\
     length (rangeText (content f) (range linkingEdit)) = length (target o)).
Proof.
  split; [vm_compute; reflexivity|].
  apply (@edit_range_spans Reference.cwd Reference.minimatch Reference.diffLines
           Reference.headingToAnchor
           (RenameEvent (js "folder/a.md") (js "folder/b.md"))
           linkingFiles noOptions [linkingEdit] linkingEdit).
  - vm_compute. reflexivity.
  - left. reflexivity.
Defined.

(* ===================================================================== *)
(** ** C6: which documents the second loop rewrites *)
(* ===================================================================== *)

(** C6, counterexample: [a/doc.md] is moved to [b/doc.md] and holds
    [[old](../a/doc.md)]; from [b/] that reference resolves to [a/doc.md],
    the old path, so the second loop rewrites it, in the moved document. *)
Lemma repair_skips_moved_counterexample : ~ repair_skips_moved_as_stated.
Proof.
  intros H. unfold repair_skips_moved_as_stated in H.
  pose proof (H Reference.cwd Reference.minimatch (js "a/doc.md")
                (js "b/doc.md") movedFiles noOptions [movedEdit] movedEdit) as H'.
  cbv zeta in H'. apply H'.
  - vm_compute. reflexivity.
  - left. reflexivity.
  - vm_compute. reflexivity.
Qed.

Lemma repairEdit_resolves (cwd pathBefore pathAfter : str) (f : File)
    (o : LinkOccurrence) (e : Edit) :
  In e (repairEdit cwd pathBefore pathAfter f o) ->
  resolvedTarget f o = pathBefore \/
  startsWith (pathBefore ++ Posix.sep) (resolvedTarget f o) = true.
Proof.
  unfold repairEdit, resolvedTarget. cbv zeta.
  destruct (str_eqb _ pathBefore) eqn:E.
  - intros _. left. apply str_eqb_eq. exact E.
  - destruct (startsWith _ _); [intros _; right; reflexivity|intros []].
Qed.

(* ===================================================================== *)
(** ** Facts about path arithmetic: [normalize] is idempotent *)
(* ===================================================================== *)

Module PosixFacts.
Import Posix PosixShape.

Lemma split_slashFree (s : str) : Forall slashFree (split "/" s).
Proof.
  induction s as [|c s IH]; simpl.
  - constructor; [intros []|constructor].
  - destruct (Ascii.eqb_spec c "/"%char) as [->|Hc].
    + constructor; [intros []|exact IH].
    + destruct (split "/" s) as [|l ls]; [repeat constructor; intros [?|[]]; congruence|].
      inversion IH as [|? ? Hl Hls]; subst. constructor; [|exact Hls].
      intros [?|?]; [congruence|contradiction].
Qed.

Lemma pushSegment_name (allow : bool) (res : list str) (seg : str) :
  isName seg -> pushSegment allow res seg = seg :: res.
Proof.
  intros (H0 & H1 & H2 & _). unfold pushSegment.
  apply str_eqb_neq in H0, H1, H2. now rewrite H0, H1, H2.
Qed.

Lemma pushSegment_normal (allow : bool) (res : list str) (seg : str) :
  slashFree seg ->
  normalStack allow res ->
  normalStack allow (pushSegment allow res seg).
Proof.
  intros Hsf (names & k & -> & Hn & Hk). unfold pushSegment.
  destruct (str_eqb seg []) eqn:E0; simpl; [exists names, k; auto|].
  destruct (str_eqb seg dot) eqn:E1; simpl; [exists names, k; auto|].
  destruct (str_eqb seg dotdot) eqn:E2.
  - destruct names as [|name names]; simpl.
    + destruct k as [|k]; simpl.
      * destruct allow.
        -- exists [], 1. simpl. repeat split; auto. discriminate.
        -- exists [], 0. simpl. auto.
      * destruct allow.
        -- exists [], (S (S k)). simpl. repeat split; auto. discriminate.
        -- discriminate (Hk eq_refl).
    + inversion Hn as [|? ? Hname Hnames]; subst.
      destruct Hname as (_ & _ & Hdd & _). apply str_eqb_neq in Hdd.
      rewrite Hdd. exists names, k. auto.
  - exists (seg :: names), k. simpl. repeat split; auto.
    constructor; [|exact Hn].
    apply str_eqb_neq in E0, E1, E2. repeat split; auto.
Qed.

Lemma fold_pushSegment_normal (allow : bool) (segs : list str) :
  forall res,
    Forall slashFree segs ->
    normalStack allow res ->
    normalStack allow (fold_left (pushSegment allow) segs res).
Proof.
  induction segs as [|seg segs IH]; intros res Hsf Hres; simpl; [exact Hres|].
  inversion Hsf; subst. apply IH; [assumption|].
  now apply pushSegment_normal.
Qed.

Lemma fold_pushSegment_names (allow : bool) (names : list str) :
  forall res,
    Forall isName names ->
    fold_left (pushSegment allow) names res = rev names ++ res.
Proof.
  induction names as [|name names IH]; intros res Hn; simpl; [reflexivity|].
  inversion Hn; subst. rewrite pushSegment_name by assumption.
  rewrite IH by assumption. now rewrite <- app_assoc.
Qed.

Lemma fold_pushSegment_dotdots (k : nat) :
  forall j,
    fold_left (pushSegment true) (repeat dotdot k) (repeat dotdot j)
    = repeat dotdot (k + j).
Proof.
  induction k as [|k IH]; intros j; simpl; [reflexivity|].
  replace (pushSegment true (repeat dotdot j) dotdot) with (repeat dotdot (S j)).
  - rewrite IH. replace (k + S j) with (S (k + j)) by lia. reflexivity.
  - destruct j; reflexivity.
Qed.

Lemma rev_repeat {A : Type} (x : A) (k : nat) : rev (repeat x k) = repeat x k.
Proof.
  induction k as [|k IH]; [reflexivity|]. simpl. rewrite IH.
  clear IH. induction k as [|k IH]; [reflexivity|]. simpl. now rewrite IH.
Qed.

(** Segments already in normal form are left as they are. *)
Lemma normalizeSegments_fixed (allow : bool) (res : list str) :
  normalStack allow res ->
  normalizeSegments allow (rev res) = rev res.
Proof.
  intros (names & k & -> & Hn & Hk). unfold normalizeSegments. f_equal.
  rewrite rev_app_distr, rev_repeat, fold_left_app.
  assert (fold_left (pushSegment allow) (repeat dotdot k) [] = repeat dotdot k) as ->.
  { destruct allow.
    - change (@nil str) with (repeat dotdot 0).
      rewrite fold_pushSegment_dotdots. f_equal. lia.
    - rewrite (Hk eq_refl). reflexivity. }
  rewrite fold_pushSegment_names by (apply Forall_rev; exact Hn).
  now rewrite rev_involutive.
Qed.

Lemma normalizeSegments_normal (allow : bool) (segs : list str) :
  Forall slashFree segs ->
  exists res, normalizeSegments allow segs = rev res /\ normalStack allow res.
Proof.
  intros Hsf. eexists. split; [reflexivity|].
  apply fold_pushSegment_normal; [exact Hsf|].
  exists [], 0. simpl. auto.
Qed.

Lemma normalStack_segments (allow : bool) (res : list str) :
  normalStack allow res -> Forall isSegment (rev res).
Proof.
  intros (names & k & -> & Hn & _). apply Forall_rev, Forall_app. split.
  - eapply Forall_impl; [|exact Hn]. intros seg (H0 & _ & _ & Hs). split; assumption.
  - apply Forall_forall. intros seg Hin. apply repeat_spec in Hin as ->.
    split; [discriminate|]. intros [H|[H|[]]]; discriminate.
Qed.

Lemma split_segment_sep (seg rest : str) :
  slashFree seg ->
  split "/" (seg ++ "/"%char :: rest) = seg :: split "/" rest.
Proof.
  induction seg as [|c seg IH]; intros Hs; simpl; [reflexivity|].
  destruct (Ascii.eqb_spec c "/"%char) as [->|_].
  - exfalso. apply Hs. simpl. auto.
  - rewrite IH; [reflexivity|]. intros Hin. apply Hs. simpl. auto.
Qed.

Lemma split_segment (seg : str) : slashFree seg -> split "/" seg = [seg].
Proof.
  induction seg as [|c seg IH]; intros Hs; simpl; [reflexivity|].
  destruct (Ascii.eqb_spec c "/"%char) as [->|_].
  - exfalso. apply Hs. simpl. auto.
  - rewrite IH; [reflexivity|]. intros Hin. apply Hs. simpl. auto.
Qed.

Lemma split_join (segs : list str) :
  segs <> [] -> Forall slashFree segs ->
  split "/" (join_with sep segs) = segs.
Proof.
  induction segs as [|seg segs IH]; intros Hne Hs; [congruence|].
  inversion Hs as [|? ? Hseg Hsegs]; subst.
  destruct segs as [|seg2 segs].
  - simpl. now apply split_segment.
  - change (join_with sep (seg :: seg2 :: segs))
      with (seg ++ "/"%char :: join_with sep (seg2 :: segs)).
    rewrite split_segment_sep by assumption.
    rewrite IH; [reflexivity|discriminate|assumption].
Qed.

Lemma split_snoc_sep (s : str) : split "/" (s ++ sep) = split "/" s ++ [[]].
Proof.
  rewrite split_app. simpl. rewrite app_nil_r.
  rewrite (app_removelast_last (l := split "/" s) []) at 3
    by apply split_not_nil.
  now rewrite <- app_assoc.
Qed.

Lemma normalizeSegments_empty_front (allow : bool) (segs : list str) :
  normalizeSegments allow ([] :: segs) = normalizeSegments allow segs.
Proof. reflexivity. Qed.

Lemma normalizeSegments_empty_back (allow : bool) (segs : list str) :
  normalizeSegments allow (segs ++ [[]]) = normalizeSegments allow segs.
Proof. unfold normalizeSegments. now rewrite fold_left_app. Qed.

Lemma join_starts (seg : str) (segs : list str) :
  exists rest, join_with sep (seg :: segs) = seg ++ rest.
Proof.
  destruct segs as [|seg2 segs]; simpl.
  - exists []. now rewrite app_nil_r.
  - eauto.
Qed.

Lemma join_not_absolute (segs : list str) (tail : str) :
  segs <> [] -> Forall isSegment segs ->
  join_with sep segs <> [] /\
  isAbsolute (join_with sep segs ++ tail) = false.
Proof.
  intros Hne Hs. destruct segs as [|seg segs]; [congruence|].
  inversion Hs as [|? ? [Hseg Hsf] _]; subst.
  destruct (join_starts seg segs) as [rest ->].
  destruct seg as [|c seg]; [congruence|]. simpl. split; [discriminate|].
  destruct (Ascii.eqb_spec c "/"%char) as [->|_]; [|reflexivity].
  exfalso. apply Hsf. simpl. auto.
Qed.

Lemma join_no_trailing_separator (segs : list str) :
  forall pre,
    segs <> [] -> Forall isSegment segs ->
    hasTrailingSeparator (pre ++ join_with sep segs) = false.
Proof.
  induction segs as [|seg segs IH]; intros pre Hne Hs; [congruence|].
  inversion Hs as [|? ? [Hseg Hsf] Hsegs]; subst.
  destruct segs as [|seg2 segs].
  - simpl. unfold hasTrailingSeparator. rewrite rev_app_distr.
    destruct (rev seg) as [|c r] eqn:R.
    + apply (f_equal (@rev ascii)) in R. rewrite rev_involutive in R.
      simpl in R. congruence.
    + simpl. destruct (Ascii.eqb_spec c "/"%char) as [->|_]; [|reflexivity].
      exfalso. apply Hsf. apply in_rev. rewrite R. simpl. auto.
  - change (join_with sep (seg :: seg2 :: segs))
      with (seg ++ sep ++ join_with sep (seg2 :: segs)).
    rewrite !app_assoc. rewrite <- (app_assoc pre). apply IH; [discriminate|assumption].
Qed.

(** Normalizing a second time changes nothing. *)
Lemma normalize_idempotent (p : str) : normalize (normalize p) = normalize p.
Proof.
  destruct p as [|c p']; [reflexivity|].
  set (P := c :: p'). unfold normalize at 2 3. fold P.
  change (match P with [] => dot | _ :: _ => ?x end) with x.
  unfold normalizeString, segments.
  pose proof (split_slashFree P) as HP.
  generalize dependent (split "/" P). intros segsP HP.
  generalize (isAbsolute P) as abs. generalize (hasTrailingSeparator P) as tr.
  intros tr abs. clear P.
  destruct (normalizeSegments_normal (negb abs) HP) as (res & Hres & Hn).
  rewrite Hres. pose proof (normalStack_segments Hn) as Hsegs.
  pose proof (normalizeSegments_fixed Hn) as Hfix.
  generalize dependent (rev res). intros segs _ Hsegs Hfix. clear Hn res HP segsP.
  destruct segs as [|seg segs'] eqn:Esegs.
  - destruct abs; [reflexivity|]. destruct tr; reflexivity.
  - rewrite <- Esegs in *.
    assert (segs <> []) as Hne by (rewrite Esegs; discriminate).
    clear Esegs seg segs'.
    assert (Forall slashFree segs) as Hsf
      by (eapply Forall_impl; [|exact Hsegs]; intros ? [_ ?]; assumption).
    pose proof (join_not_absolute [] Hne Hsegs) as [Hbody _].
    pose proof (split_join Hne Hsf) as Hsj.
    pose proof (fun tail => proj2 (join_not_absolute tail Hne Hsegs)) as Hnabs.
    pose proof (fun pre => join_no_trailing_separator pre Hne Hsegs) as Hntr.
    remember (join_with sep segs) as body eqn:Ejoin.
    destruct body as [|b body'] eqn:Ebody; [congruence|].
    rewrite <- Ebody in *. clear Ebody b body'.
    set (r := (if abs then sep else []) ++ body ++ (if tr then sep else [])).
    assert (isAbsolute r = abs) as Habs.
    { unfold r. destruct abs; [reflexivity|]. simpl. apply Hnabs. }
    assert (hasTrailingSeparator r = tr) as Htr.
    { unfold r. destruct tr.
      - rewrite !app_assoc. unfold hasTrailingSeparator.
        now rewrite rev_app_distr.
      - rewrite app_nil_r. apply Hntr. }
    assert (normalizeSegments (negb abs) (split "/" r) = segs) as Hsplit.
    { unfold r. destruct abs.
      - change (split "/" (sep ++ ?x)) with ([] :: split "/" x).
        rewrite normalizeSegments_empty_front.
        destruct tr.
        + now rewrite split_snoc_sep, normalizeSegments_empty_back, Hsj.
        + now rewrite app_nil_r, Hsj.
      - simpl app at 1. destruct tr.
        + now rewrite split_snoc_sep, normalizeSegments_empty_back, Hsj.
        + now rewrite app_nil_r, Hsj. }
    assert (r <> []) as Hr.
    { unfold r. destruct abs; simpl; [discriminate|].
      destruct body; [congruence|discriminate]. }
    unfold normalize. fold r. destruct r as [|r0 r'] eqn:Er; [congruence|].
    rewrite <- Er in *. unfold normalizeString, segments.
    rewrite Habs, Htr, Hsplit, <- Ejoin.
    destruct body; [congruence|reflexivity].
Qed.

End PosixFacts.

(* ===================================================================== *)
(** ** C2: edits that change nothing *)
(* ===================================================================== *)

(** C2, counterexample: [note.md] is renamed to [note.MD] while [index.md]
    holds [[[note]]]; the second loop yields an edit that replaces [note]
    by [note]. *)
Lemma no_noop_edits_counterexample : ~ no_noop_edits_as_stated.
Proof.
  intros H. unfold no_noop_edits_as_stated in H.
  apply (H Reference.cwd Reference.minimatch Reference.diffLines
           Reference.headingToAnchor (js "note.md") (js "note.MD")
           [indexFile] noOptions [indexEdit] indexEdit indexFile).
  - vm_compute. reflexivity.
  - left. reflexivity.
  - left. reflexivity.
  - reflexivity.
  - vm_compute. reflexivity.
Qed.

Lemma windowsToPosix_id (s : str) :
  ~ In "\"%char s -> windowsToPosix s = s.
Proof.
  induction s as [|c s IH]; intros Hn; simpl; [reflexivity|].
  destruct (Ascii.eqb_spec c "\"%char) as [->|_].
  - exfalso. apply Hn. simpl. auto.
  - rewrite IH; [reflexivity|]. intros Hin. apply Hn. simpl. auto.
Qed.

(** C2, amended: in the rebase phase, no edit is yielded for a reference
    whose computed new form equals its target, normalized or as written
    (with separators converted); where the target holds no line break and
    the text in the edit's range holds no backslash, the new text differs
    from the text in the range.  (The repair phase suppresses nothing.) *)
Theorem rebase_edit_changes_target (cwd pathBefore pathAfter : str)
    (fileContent : option str) (moved : list Edit) (e : Edit) :
  rebaseEdits cwd pathBefore pathAfter fileContent = Ok moved ->
  In e moved ->
  exists content o links,
    fileContent = Some content /\
    getAllLinks fileContent = Ok links /\ In o links /\
    range e = targetRange o /\
    newText e <> Posix.normalize (target o) /\
    newText e <> target o /\
    (~ In LF (target o) ->
     ~ In "\"%char (rangeText content (range e)) ->
     newText e <> rangeText content (range e)).
Proof.
  intros H Hin.
  destruct (@rebaseEdits_In cwd _ _ _ _ _ H Hin) as (links & o & Hl & Hol & He).
  apply rebaseEdit_inv in He as (_ & Hr & Hnew & Hneq).
  destruct (@getAllLinks_located _ _ _ Hl Hol) as (content & Hc & Hloc).
  assert (newText e <> target o) as Hneq'.
  { intros E. apply Hneq. rewrite <- E at 1. rewrite Hnew.
    apply PosixFacts.normalize_idempotent. }
  exists content, o, links.
  split; [exact Hc|]. split; [exact Hl|]. split; [exact Hol|].
  split; [exact Hr|]. split; [congruence|]. split; [exact Hneq'|].
  intros Hlf Hbs E. apply Hneq'.
  destruct (located_range_text Hloc Hlf) as [Ht _].
  rewrite Hr in E. unfold targetRange in E. rewrite <- E in Ht.
  rewrite <- Ht. symmetry. apply windowsToPosix_id.
  rewrite Hr in Hbs. unfold targetRange in Hbs. now rewrite <- E in Hbs.
Qed.

(** C2, witness: [/ws/a/doc.md], which holds [[x](img.md)], is moved to
    [/ws/b/c/doc.md]; the reference is rebased to [../../a/img.md]. *)
Lemma rebase_edit_changes_target_witness :
  rebaseEdits Reference.cwd (js "/ws/a/doc.md") (js "/ws/b/c/doc.md")
    (Some rebasedContent) = Ok [rebasedEdit] /\
  exists content o links,
    Some rebasedContent = Some content /\
    getAllLinks (Some rebasedContent) = Ok links /\ In o links /\
    range rebasedEdit = targetRange o /\
    newText rebasedEdit <> Posix.normalize (target o) /\
    newText rebasedEdit <> target o /\
    (~ In LF (target o) ->
     ~ In "\"%char (rangeText content (range rebasedEdit)) ->
     newText rebasedEdit <> rangeText content (range rebasedEdit)).
Proof.
  split; [vm_compute; reflexivity|].
  apply (@rebase_edit_changes_target Reference.cwd (js "/ws/a/doc.md")
           (js "/ws/b/c/doc.md") (Some rebasedContent) [rebasedEdit] rebasedEdit).
  - vm_compute. reflexivity.
  - left. reflexivity.
Defined.

(* ===================================================================== *)
(** ** C4: the heading-rename detector *)
(* ===================================================================== *)

(** C4, counterexample: the lines [intro] and [# Old] are replaced by the
    line [# New].  The deletion run is the two lines together; its last line
    is a heading of the level of [# New], but the engine matches the pattern
    at the start of the run, finds [intro], and reports no rename. *)
Lemma detector_counterexample : ~ detector_as_stated.
Proof.
  intros H. specialize (H Reference.diffLines introBefore introAfter).
  vm_compute in H. discriminate H.
Qed.

Section GreedyFacts.
Variable A : Type.
Variable p : ascii -> bool.
Variable k : str -> nat -> option A.

Lemma takeWhile_dropWhile (s : str) : takeWhile p s ++ dropWhile p s = s.
Proof.
  induction s as [|c s IH]; simpl; [reflexivity|].
  destruct (p c); simpl; [now rewrite IH|reflexivity].
Qed.

(** A greedy loop whose continuation cannot start on a character of the
    class stops after the longest run, or not at all. *)
Lemma greedy_star_longest (s : str) :
  (forall a s' i', p a = true -> k (a :: s') i' = None) ->
  forall i,
    greedy_star p k s i = k (dropWhile p s) (i + length (takeWhile p s)).
Proof.
  intros Hk. induction s as [|a s IH]; intros i; simpl.
  - now rewrite Nat.add_0_r.
  - destruct (p a) eqn:Pa; simpl.
    + rewrite IH, <- Nat.add_succ_comm.
      destruct (k (dropWhile p s) (S i + length (takeWhile p s))) eqn:K;
        [reflexivity|]. now apply Hk.
    + now rewrite Nat.add_0_r.
Qed.

(** A greedy loop whose continuation always succeeds stops after the
    longest run. *)
Lemma greedy_star_total (s : str) :
  (forall s' i', k s' i' <> None) ->
  forall i,
    greedy_star p k s i = k (dropWhile p s) (i + length (takeWhile p s)).
Proof.
  intros Hk. induction s as [|a s IH]; intros i; simpl.
  - now rewrite Nat.add_0_r.
  - destruct (p a) eqn:Pa; simpl.
    + rewrite IH, <- Nat.add_succ_comm.
      destruct (k (dropWhile p s) (S i + length (takeWhile p s))) eqn:K;
        [reflexivity|]. now apply Hk in K.
    + now rewrite Nat.add_0_r.
Qed.
End GreedyFacts.

Lemma firstn_takeWhile (p : ascii -> bool) (s : str) :
  firstn (length (takeWhile p s)) s = takeWhile p s.
Proof.
  induction s as [|c s IH]; simpl; [reflexivity|].
  destruct (p c); simpl; [now rewrite IH|reflexivity].
Qed.

Lemma takeWhile_app_stop (p : ascii -> bool) (a b : str) (c : ascii) :
  p c = false -> takeWhile p (a ++ c :: b) = takeWhile p a.
Proof.
  intros Hc. induction a as [|x a IH]; simpl; [now rewrite Hc|].
  destruct (p x); [now rewrite IH|reflexivity].
Qed.

Lemma dropWhile_app_stop (p : ascii -> bool) (a b : str) (c : ascii) :
  p c = false ->
  dropWhile p (a ++ c :: b) =
  match dropWhile p a with
  | [] => c :: b
  | rest => rest ++ c :: b
  end.
Proof.
  intros Hc. induction a as [|x a IH]; simpl; [now rewrite Hc|].
  destruct (p x); [exact IH|reflexivity].
Qed.

(** Group 2 of [headingRegex]: the longest run of characters other than
    line terminators, which must not be empty. *)
Lemma heading_text_match (s : str) (i : nat) (c : caps) :
  rmatch (RGroup 2 (RPlus true is_dot)) finish s i c =
  match takeWhile is_dot s with
  | [] => None
  | text => Some (i + length text, (2, (i, text)) :: c)
  end.
Proof.
  simpl. unfold plus. destruct s as [|d s]; [reflexivity|]. simpl.
  destruct (is_dot d) eqn:D; [|reflexivity].
  rewrite greedy_star_total by (intros; discriminate).
  unfold finish. f_equal. rewrite <- Nat.add_succ_comm. f_equal.
  do 3 f_equal.
  replace (S i + length (takeWhile is_dot s) - i)
    with (S (length (takeWhile is_dot s))) by lia.
  simpl. f_equal. apply firstn_takeWhile.
Qed.

(** Group 1 of [headingRegex]: the longest run of [#], which must not be
    empty, and one space. *)
Lemma heading_prefix_match (v : str) (K : cont) :
  rmatch (RGroup 1 (RSeq (RPlus true (Ascii.eqb "#")) (RChar " "))) K v 0 [] =
  match takeWhile (Ascii.eqb "#") v, dropWhile (Ascii.eqb "#") v with
  | (_ :: _) as hashes, sp :: rest =>
      if Ascii.eqb " " sp
      then K rest (length hashes + 1) [(1, (0, hashes ++ [" "%char]))]
      else None
  | _, _ => None
  end.
Proof.
  cbn [rmatch]. unfold plus. destruct v as [|a v]; [reflexivity|].
  cbn [takeWhile dropWhile].
  destruct (Ascii.eqb "#" a) eqn:Ha; [|reflexivity].
  rewrite greedy_star_longest.
  2:{ intros b s' i' Hb. apply Ascii.eqb_eq in Hb. subst b. reflexivity. }
  destruct (dropWhile (Ascii.eqb "#") v) as [|sp rest] eqn:Dv; [reflexivity|].
  destruct (Ascii.eqb " "%char sp) eqn:Hsp; [|reflexivity].
  apply Ascii.eqb_eq in Hsp. subst sp.
  rewrite Nat.sub_0_r.
  replace (S (1 + length (takeWhile (Ascii.eqb "#") v)))
    with (length (a :: takeWhile (Ascii.eqb "#") v) + 1) by (simpl; lia).
  replace (firstn (length (a :: takeWhile (Ascii.eqb "#") v) + 1) (a :: v))
    with ((a :: takeWhile (Ascii.eqb "#") v) ++ [" "%char]); [reflexivity|].
  rewrite <- (takeWhile_dropWhile (Ascii.eqb "#") v) at 3. rewrite Dv.
  change (a :: takeWhile (Ascii.eqb "#") v ++ " "%char :: rest)
    with ((a :: takeWhile (Ascii.eqb "#") v) ++ " "%char :: rest).
  rewrite firstn_app_2. reflexivity.
Qed.

(** [^] holds at offset 0 only. *)
Lemma heading_search_later (s : str) :
  forall i, 0 < i -> search headingRegex s i = None.
Proof.
  induction s as [|a s IH]; intros i Hi; rewrite search_unfold.
  - cbn [headingRegex RCat rmatch]. destruct i; [lia|reflexivity].
  - cbn [headingRegex RCat rmatch]. destruct i; [lia|]. cbn [Nat.eqb].
    apply IH. lia.
Qed.

(** What [v.match(headingRegex)] captures is the heading read off the start
    of [v]. *)
Lemma heading_match (v : str) :
  match_ headingRegex v =
  match parseHeading v with
  | Some (prefix, text) =>
      Some (mkMatch 0 (length prefix + length text)
                    [(2, (length prefix, text)); (1, (0, prefix))])
  | None => None
  end.
Proof.
  unfold match_. rewrite search_unfold.
  assert (rmatch headingRegex finish v 0 [] =
          match parseHeading v with
          | Some (prefix, text) =>
              Some (length prefix + length text,
                    [(2, (length prefix, text)); (1, (0, prefix))])
          | None => None
          end) as ->.
  { change (rmatch headingRegex finish v 0 [])
      with (rmatch (RGroup 1 (RSeq (RPlus true (Ascii.eqb "#")) (RChar " ")))
              (rmatch (RGroup 2 (RPlus true is_dot)) finish) v 0 []).
    rewrite heading_prefix_match. unfold parseHeading.
    destruct (takeWhile (Ascii.eqb "#") v) as [|h hashes]; [reflexivity|].
    destruct (dropWhile (Ascii.eqb "#") v) as [|sp rest]; [reflexivity|].
    destruct (Ascii.eqb " " sp); [|reflexivity].
    rewrite heading_text_match.
    destruct (takeWhile is_dot rest) as [|t text]; [reflexivity|].
    rewrite length_app. reflexivity. }
  destruct (parseHeading v) as [[prefix text]|]; [reflexivity|].
  destruct v as [|a v]; [reflexivity|]. apply heading_search_later. lia.
Qed.

Lemma firstLineOf_spec (v : str) :
  ~ In LF (firstLineOf v) /\
  (v = firstLineOf v \/ exists rest, v = firstLineOf v ++ LF :: rest).
Proof.
  unfold firstLineOf. induction v as [|c v [IHn IHv]]; simpl.
  - split; [intros []|left; reflexivity].
  - destruct (Ascii.eqb_spec c LF) as [->|Hc]; simpl.
    + split; [intros []|]. right. exists v. reflexivity.
    + pose proof (split_not_nil LF v).
      destruct (split LF v) as [|l ls]; [congruence|]. simpl in *.
      split; [intros [?|?]; [congruence|contradiction]|].
      destruct IHv as [E|[rest E]].
      * left. congruence.
      * right. exists rest. congruence.
Qed.

(** Reading the heading off a run's text reads it off the run's first
    line: the pattern never runs past a line feed. *)
Lemma parseHeading_firstLine (v : str) :
  parseHeading (firstLineOf v) = parseHeading v.
Proof.
  destruct (firstLineOf_spec v) as [Hn [E|[rest E]]]; [now rewrite <- E|].
  rewrite E at 2. generalize dependent (firstLineOf v). intros l _ _.
  unfold parseHeading.
  rewrite takeWhile_app_stop by reflexivity.
  rewrite dropWhile_app_stop by reflexivity.
  destruct (takeWhile (Ascii.eqb "#") l) as [|h hashes]; [reflexivity|].
  destruct (dropWhile (Ascii.eqb "#") l) as [|sp rest']; [reflexivity|].
  cbn [app]. destruct (Ascii.eqb " " sp); [|reflexivity].
  now rewrite takeWhile_app_stop by reflexivity.
Qed.

Lemma renamedHeading_spec (change nextChange : Change) :
  renamedHeading change nextChange = headingPair firstLineOf change nextChange.
Proof.
  unfold renamedHeading, headingPair.
  destruct (removed change && added nextChange); [|reflexivity].
  rewrite !heading_match, !parseHeading_firstLine.
  destruct (parseHeading (value change)) as [[oldPrefix oldText]|]; [|reflexivity].
  destruct (parseHeading (value nextChange)) as [[newPrefix newText]|];
    reflexivity.
Qed.

(** C4, amended: the detector emits a pair exactly for each deletion run
    that an insertion run follows at once, where the first line of the
    deletion run and the first line of the insertion run both match the
    heading pattern with the same prefix of [#]s and space; the pair holds
    the two heading texts without the prefix. *)
Theorem renamedHeadings_spec (diff : list Change) :
  renamedHeadings diff = headingPairs firstLineOf diff.
Proof.
  induction diff as [|change diff IH]; [reflexivity|].
  destruct diff as [|nextChange diff]; [reflexivity|].
  change (renamedHeadings (change :: nextChange :: diff))
    with (match renamedHeading change nextChange with
          | Some h => h :: renamedHeadings (nextChange :: diff)
          | None => renamedHeadings (nextChange :: diff)
          end).
  change (headingPairs firstLineOf (change :: nextChange :: diff))
    with (match headingPair firstLineOf change nextChange with
          | Some h => h :: headingPairs firstLineOf (nextChange :: diff)
          | None => headingPairs firstLineOf (nextChange :: diff)
          end).
  rewrite renamedHeading_spec, IH. reflexivity.
Qed.

(* ===================================================================== *)
(** ** C7: fragments and targets *)
(* ===================================================================== *)

(** C7, counterexample: the embedded-media pattern has no fragment group;
    the target of [<img src='pic.png#top'>] is [pic.png#top]. *)
Lemma fragment_excluded_counterexample : ~ fragment_excluded_as_stated.
Proof.
  intros H.
  apply (H (Some (js "<img src='pic.png#top'>"))
           [mkLink (js "pic.png#top") 0 10 true]
           (mkLink (js "pic.png#top") 0 10 true)).
  - vm_compute. reflexivity.
  - left. reflexivity.
  - exists (js "pic.png"), (js "#top"). split; [reflexivity|].
    exists (js "top"). repeat split. discriminate.
Qed.

(** A target that is a fragment and nothing else is yielded whole: the lazy
    target needs one character at least. *)
Example bare_fragment_target :
  getAllLinks (Some (js "[top](#intro)")) = Ok [mkLink (js "#intro") 0 6 true].
Proof. vm_compute. reflexivity. Qed.

Lemma fragmentGroup_inv (K : cont) (s : str) (i : nat) (c : caps) (res : result) :
  rmatch fragmentGroup K s i c = Some res ->
  exists frag s' i' c',
    s = "#"%char :: frag ++ s' /\ frag <> [] /\
    forallb is_fragment_char frag = true /\
    K s' i' c' = Some res.
Proof.
  unfold fragmentGroup. cbn [rmatch]. destruct s as [|a s]; [discriminate|].
  destruct (Ascii.eqb "#" a) eqn:Ha; [|discriminate].
  apply Ascii.eqb_eq in Ha. subst a. intros H.
  apply plus_inv in H as (frag & s' & -> & Hf & Hne & Hk).
  eauto 10.
Qed.

Lemma fragmentGroup_complete (K : cont) (frag s' : str) (i : nat) (c : caps) :
  frag <> [] ->
  forallb is_fragment_char frag = true ->
  (forall i' c', K s' i' c' <> None) ->
  rmatch fragmentGroup K ("#"%char :: frag ++ s') i c <> None.
Proof.
  intros Hne Hf HK. unfold fragmentGroup. cbn [rmatch].
  rewrite Ascii.eqb_refl. unfold plus.
  destruct frag as [|f frag]; [congruence|]. cbn [app].
  cbn [forallb] in Hf. apply andb_true_iff in Hf as [Hf0 Hf].
  rewrite Hf0. apply greedy_star_complete; [exact Hf|apply HK].
Qed.

Lemma firstn_cons_span (x : ascii) (t s : str) (i : nat) :
  firstn (S i + length t - i) (x :: t ++ s) = x :: t.
Proof.
  replace (S i + length t - i) with (S (length t)) by lia.
  cbn [firstn]. f_equal.
  rewrite firstn_app, Nat.sub_diag, firstn_all. cbn [firstn]. apply app_nil_r.
Qed.

Lemma hash_is_fragment_char : is_fragment_char "#" = true.
Proof. reflexivity. Qed.

(** The lazy target stops before a fragment: had group 2 ended in a
    fragment after a path, the shorter target without the fragment would
    have matched first. *)
Lemma fragmentShaped_target (r : regex) (s : str) (i e i2 : nat) (c : caps)
    (t2 : str) :
  fragmentShaped r ->
  rmatch r finish s i [] = Some (e, c) ->
  capture 2 c = Some (i2, t2) ->
  ~ pathThenFragment t2.
Proof.
  intros (a & cls & closing & -> & N2 & Hind) H C2
         (P & fragS & HP & -> & (F & -> & HF & HFc)).
  cbn [rmatch] in H.
  apply rmatch_inv in H as (t1 & s1 & c1 & -> & _ & H & _).
  unfold plus in H. destruct s1 as [|x s1]; [discriminate|].
  destruct (cls x); [|discriminate].
  apply lazy_star_inv in H as (t & s' & -> & _ & Hk & Hmin).
  set (i1 := i + length t1) in *.
  set (c1' := (1, (i, firstn (i1 - i) (t1 ++ x :: t ++ s'))) :: c1) in *.
  (* the target is [x :: t] *)
  assert (P ++ "#"%char :: F = x :: t) as Et.
  { assert (rmatch (RSeq (ROpt fragmentGroup) closing) finish s'
              (S i1 + length t)
              ((2, (i1, firstn (S i1 + length t - i1) (x :: t ++ s'))) :: c1')
            = Some (e, c)) as Hk' by exact Hk.
    apply rmatch_inv in Hk' as (t3 & s3 & c3 & _ & _ & Hf & Hc).
    unfold finish in Hf. injection Hf as _ <-.
    rewrite Hc in C2.
    2:{ cbn [groups app]. intros [?|?]; [discriminate|contradiction]. }
    change (capture 2 ((2, ?v) :: ?rest)) with (Some v) in C2.
    injection C2 as _ E2. rewrite <- E2. apply firstn_cons_span. }
  destruct P as [|x' P']; [congruence|]. injection Et as -> <-.
  specialize (Hmin P' ("#"%char :: F) eq_refl ltac:(discriminate)).
  cbn beta in Hmin.
  match type of Hmin with
  | match ?m with _ => _ end = None =>
      assert (m = None) as Hnone by (destruct m; [discriminate|reflexivity])
  end.
  revert Hnone. cbn [app].
  cbn beta in Hk.
  match type of Hk with
  | match ?m with _ => _ end = Some _ => destruct m eqn:Hm
  end.
  - apply fragmentGroup_inv in Hm as (G & s'' & i' & c' & -> & HG & HGc & Hc).
    replace ("#"%char :: F ++ "#"%char :: G ++ s'')
      with ("#"%char :: (F ++ "#"%char :: G) ++ s'')
      by (now rewrite <- app_assoc).
    apply fragmentGroup_complete.
    + destruct F; discriminate.
    + rewrite forallb_app. cbn [forallb]. now rewrite HFc, hash_is_fragment_char, HGc.
    + intros i'' c''. apply (Hind s'' i' c'). congruence.
  - apply fragmentGroup_complete; [exact HF|exact HFc|].
    intros i'' c''. eapply Hind. rewrite Hk. discriminate.
Qed.

Lemma mdLinkRegexGlobal_fragmentShaped : fragmentShaped mdLinkRegexGlobal.
Proof.
  eexists _, _, (RChar ")"). split; [reflexivity|]. split.
  - intros [].
  - intros s i c i' c' H. cbn [rmatch] in *. destruct s as [|b s]; [congruence|].
    destruct (Ascii.eqb ")" b); [discriminate|congruence].
Qed.

Lemma wikilinkRegex_fragmentShaped : fragmentShaped wikilinkRegex.
Proof.
  eexists _, _, (RSeq (RChar "]") (RChar "]")). split; [reflexivity|]. split.
  - intros [].
  - intros s i c i' c' H. cbn [rmatch] in *. destruct s as [|b s]; [congruence|].
    destruct (Ascii.eqb "]" b); [|congruence].
    destruct s as [|b' s]; [congruence|].
    destruct (Ascii.eqb "]" b'); [discriminate|congruence].
Qed.

Lemma windowsToPosix_fragment_chars (s : str) :
  forallb is_fragment_char (windowsToPosix s) = true -> windowsToPosix s = s.
Proof.
  induction s as [|c s IH]; simpl; [reflexivity|].
  destruct (Ascii.eqb c "\"%char); [discriminate|].
  intros H. apply andb_true_iff in H as [_ H]. now rewrite IH.
Qed.

(** A yielded target that is a path followed by a fragment stems from a
    text of that form: converting separators touches no fragment. *)
Lemma pathThenFragment_windowsToPosix (t : str) :
  pathThenFragment (windowsToPosix t) -> pathThenFragment t.
Proof.
  intros (P & fr & HP & E & F & -> & HF & HFc).
  apply map_eq_app in E as (tP & tR & -> & EP & ER).
  apply map_eq_cons in ER as (c0 & tF & -> & Ec & EF).
  assert (c0 = "#"%char) as ->.
  { destruct (Ascii.eqb c0 "\"%char); [discriminate|assumption]. }
  subst F. change (map _ tF) with (windowsToPosix tF) in *.
  pose proof (windowsToPosix_fragment_chars _ HFc) as EF.
  rewrite EF in HF, HFc.
  exists tP, ("#"%char :: tF). split.
  - intros ->. now apply HP.
  - split; [reflexivity|]. exists tF. auto.
Qed.

(** C7, amended: for an inline reference and for a double-bracket
    reference, the yielded target is never a path, not empty, followed by a
    fragment: where the text between the delimiters is a path and a
    fragment, the fragment is left out of the target. *)
Theorem fragment_excluded_from_target (regex : regex)
    (fileContent : option str) (flag : bool) (l : list LinkOccurrence)
    (o : LinkOccurrence) :
  regex = mdLinkRegexGlobal \/ regex = wikilinkRegex ->
  getMatchingLinks regex fileContent flag = Ok l ->
  In o l ->
  ~ pathThenFragment (target o).
Proof.
  intros Hr H Hin Hfrag.
  assert (linkShaped regex) as Hs
    by (apply scanning_patterns_shaped; tauto).
  assert (fragmentShaped regex) as Hf
    by (destruct Hr as [->| ->];
        [apply mdLinkRegexGlobal_fragmentShaped|apply wikilinkRegex_fragmentShaped]).
  destruct (@getMatchingLinks_In _ _ _ _ _ Hs H Hin)
    as (c & li & m & pre & t1 & t2 & post & _ & He & _ & _ & _ & C2 & ->).
  apply exec_inv in He as (pre' & s1 & _ & _ & _ & Hm).
  apply (@fragmentShaped_target regex s1 (m_index m) (m_end m)
           (m_index m + length t1) (m_caps m) t2 Hf Hm C2).
  apply pathThenFragment_windowsToPosix. exact Hfrag.
Qed.

(** C7, witness: in [[a](notes/foo.md#intro)] and in [[[notes/foo#intro]]]
    the fragment [#intro] is left out of the target. *)
Lemma fragment_excluded_witness :
  (getMatchingLinks mdLinkRegexGlobal (Some (js "[a](notes/foo.md#intro)")) true
     = Ok [mkLink (js "notes/foo.md") 0 4 true] /\
   ~ pathThenFragment (target (mkLink (js "notes/foo.md") 0 4 true))) /\
  (getMatchingLinks wikilinkRegex (Some (js "[[notes/foo#intro]]")) false
     = Ok [mkLink (js "notes/foo") 0 2 false] /\
   ~ pathThenFragment (target (mkLink (js "notes/foo") 0 2 false))).
Proof.
  split; (split; [vm_compute; reflexivity|]).
  - apply (@fragment_excluded_from_target mdLinkRegexGlobal
             (Some (js "[a](notes/foo.md#intro)")) true
             [mkLink (js "notes/foo.md") 0 4 true]).
    + left. reflexivity.
    + vm_compute. reflexivity.
    + left. reflexivity.
  - apply (@fragment_excluded_from_target wikilinkRegex
             (Some (js "[[notes/foo#intro]]")) false
             [mkLink (js "notes/foo") 0 2 false]).
    + right. reflexivity.
    + vm_compute. reflexivity.
    + left. reflexivity.
Defined.

(* ===================================================================== *)
(** ** C5: running the rename engine a second time *)
(* ===================================================================== *)


Lemma applyEdits_none (markdownFiles : FileList) :
  applyEdits [] markdownFiles = markdownFiles.
Proof.
  unfold applyEdits. induction markdownFiles as [|f fs IH]; [reflexivity|].
  cbn [map]. rewrite IH. destruct f. reflexivity.
Qed.

Lemma flat_map_nil {A B : Type} (f : A -> list B) (l : list A) :
  flat_map f l = [] <-> forall a, In a l -> f a = [].
Proof.
  induction l as [|x l IH]; simpl.
  - split; [intros _ a []|reflexivity].
  - split.
    + intros H. apply app_eq_nil in H as [Hx Hl].
      intros a [<-|Ha]; [exact Hx|]. now apply IH.
    + intros H. rewrite (H x) by auto. simpl. apply IH. auto.
Qed.

Lemma rebaseEdit_nil (cwd pathBefore pathAfter : str) (o : LinkOccurrence) :
  rebaseEdit cwd pathBefore pathAfter o = [] <->
  Posix.normalize (target o) = rebasedTarget cwd pathBefore pathAfter o.
Proof.
  unfold rebaseEdit, rebasedTarget.
  destruct (str_eqb (Posix.normalize (target o)) _) eqn:E.
  - apply str_eqb_eq in E. tauto.
  - apply str_eqb_neq in E. split; [discriminate|contradiction].
Qed.

Lemma repairEdit_nil (cwd pathBefore pathAfter : str) (f : File)
    (o : LinkOccurrence) :
  repairEdit cwd pathBefore pathAfter f o = [] <->
  resolvedTarget f o <> pathBefore /\
  startsWith (pathBefore ++ Posix.sep) (resolvedTarget f o) = false.
Proof.
  unfold repairEdit, resolvedTarget. cbv zeta.
  destruct (str_eqb _ pathBefore) eqn:E.
  - apply str_eqb_eq in E. split; [discriminate|]. intros [H _]. contradiction.
  - apply str_eqb_neq in E. destruct (startsWith _ _).
    + split; [discriminate|]. intros [_ H]. discriminate.
    + tauto.
Qed.

Lemma concatMapM_nil {A B : Type} (f : A -> outcome (list B)) (xs : list A) :
  (forall a, exists l, f a = Ok l) ->
  concatMapM f xs = Ok [] <-> forall a, In a xs -> f a = Ok [].
Proof.
  intros Hf. induction xs as [|x xs IH]; simpl.
  - split; [intros _ a []|reflexivity].
  - destruct (Hf x) as [lx Hx]. rewrite Hx. cbn [bind].
    destruct (concatMapM_ok f xs Hf) as [lr Hr]. rewrite Hr in *. cbn [bind].
    split.
    + intros H. injection H as H. apply app_eq_nil in H as [-> ->].
      intros a [<-|Ha]; [exact Hx|]. now apply IH.
    + intros H. pose proof (H x (or_introl eq_refl)) as Hx'.
      rewrite Hx in Hx'. injection Hx' as ->.
      assert (Ok lr = Ok (@nil B)) as E by (apply IH; auto).
      injection E as ->. reflexivity.
Qed.

(* ===================================================================== *)
(** ** Further properties: separators *)
(* ===================================================================== *)

Lemma windowsToPosix_no_backslash (s : str) : ~ In "\"%char (windowsToPosix s).
Proof.
  unfold windowsToPosix. rewrite in_map_iff. intros (c & Hc & _).
  destruct (Ascii.eqb_spec c "\"%char) as [E|Hn]; [discriminate|congruence].
Qed.

Lemma windowsToPosix_idempotent (s : str) :
  windowsToPosix (windowsToPosix s) = windowsToPosix s.
Proof. apply windowsToPosix_id, windowsToPosix_no_backslash. Qed.

(** X1: [windowsToPosix] returns a text of the same length that holds no
    backslash, changes no character but the backslashes, which become
    slashes, and converting twice is converting once. *)
Theorem windowsToPosix_result (s : str) :
  ~ In "\"%char (windowsToPosix s) /\
  length (windowsToPosix s) = length s /\
  (forall n c, nth_error s n = Some c ->
     nth_error (windowsToPosix s) n =
     Some (if Ascii.eqb c "\"%char then "/"%char else c)) /\
  windowsToPosix (windowsToPosix s) = windowsToPosix s.
Proof.
  split; [apply windowsToPosix_no_backslash|].
  split; [apply windowsToPosix_length|].
  split; [|apply windowsToPosix_idempotent].
  intros n c H. unfold windowsToPosix. rewrite nth_error_map, H. reflexivity.
Qed.

Lemma trackedFiles_posixFile (cwd : str) (minimatch : str -> str -> bool)
    (markdownFiles : FileList) (options : Options) :
  trackedFiles cwd minimatch (map posixFile markdownFiles) options
  = trackedFiles cwd minimatch markdownFiles options.
Proof.
  unfold trackedFiles. f_equal. rewrite map_map. apply map_ext.
  intros f. unfold posixFile. simpl. now rewrite windowsToPosix_idempotent.
Qed.

(** X2: a rename is handled the same whether the paths of the event and of
    the documents come with backslashes or with the slashes that replace
    them: converting the separators of all the paths beforehand changes
    nothing in the result. *)
Theorem rename_separator_independent (cwd : str)
    (minimatch : str -> str -> bool) (diffLines : str -> str -> list Change)
    (headingToAnchor : str -> str) (payloadBefore payloadAfter : str)
    (markdownFiles : FileList) (options : Options) :
  pureGetEdits cwd minimatch diffLines headingToAnchor
    (RenameEvent (windowsToPosix payloadBefore) (windowsToPosix payloadAfter))
    (map posixFile markdownFiles) options
  = pureGetEdits cwd minimatch diffLines headingToAnchor
      (RenameEvent payloadBefore payloadAfter) markdownFiles options.
Proof.
  unfold pureGetEdits, handleRenameEvent.
  now rewrite !windowsToPosix_idempotent, trackedFiles_posixFile.
Qed.

(* ===================================================================== *)
(** ** Further properties: the glob filter *)
(* ===================================================================== *)

(** X3: a path passes the glob filter exactly when it matches a pattern of
    [include], whatever [exclude] says of it, or when [include] is empty or
    missing and the path matches no pattern of [exclude].  The patterns are
    matched against the path taken relative to [workspacePath]. *)
Theorem shouldIncludePath_iff (cwd : str) (minimatch : str -> str -> bool)
    (options : Options) (filePath : str) :
  let relativePath :=
    Posix.relative cwd
      (match workspacePath options with Some w => w | None => [] end)
      filePath in
  shouldIncludePath cwd minimatch options filePath = true <->
  (exists pattern,
      In pattern (orEmpty (include options)) /\
      minimatch relativePath pattern = true) \/
  (orEmpty (include options) = [] /\
   forall pattern,
     In pattern (orEmpty (exclude options)) ->
     minimatch relativePath pattern = false).
Proof.
  intros relativePath. unfold shouldIncludePath. fold relativePath.
  destruct (existsb (fun pattern => minimatch relativePath pattern)
              (orEmpty (include options))) eqn:Ei.
  - apply existsb_exists in Ei. split; [intros _; left; exact Ei|reflexivity].
  - assert (forall pattern, In pattern (orEmpty (include options)) ->
                            minimatch relativePath pattern = false) as Hi.
    { intros pattern Hin. destruct (minimatch relativePath pattern) eqn:M;
        [|reflexivity].
      rewrite <- Ei. symmetry. apply existsb_exists. eauto. }
    destruct (orEmpty (include options)) as [|p ps] eqn:Inc; simpl.
    + rewrite negb_true_iff. split.
      * intros He. right. split; [reflexivity|]. intros pattern Hin.
        destruct (minimatch relativePath pattern) eqn:M; [|reflexivity].
        rewrite <- He. symmetry. apply existsb_exists. eauto.
      * intros [(pattern & [] & _)|[_ He]].
        destruct (existsb _ (orEmpty (exclude options))) eqn:Ee; [|reflexivity].
        apply existsb_exists in Ee as (pattern & Hin & M).
        rewrite (He pattern Hin) in M. discriminate.
    + split; [discriminate|].
      intros [(pattern & Hin & M)|[E _]]; [|discriminate].
      rewrite (Hi pattern Hin) in M. discriminate.
Qed.

(* ===================================================================== *)
(** ** Further properties: the two loops of a rename *)
(* ===================================================================== *)

Lemma concatMapM_app {A B : Type} (f : A -> outcome (list B)) (xs ys : list A) :
  concatMapM f (xs ++ ys) =
  (l1 <- concatMapM f xs ;; l2 <- concatMapM f ys ;; Ok (l1 ++ l2)).
Proof.
  induction xs as [|a xs IH]; simpl.
  - destruct (concatMapM f ys); reflexivity.
  - destruct (f a) as [la| |]; simpl; try reflexivity.
    rewrite IH. destruct (concatMapM f xs) as [l1| |]; simpl; try reflexivity.
    destruct (concatMapM f ys) as [l2| |]; simpl; try reflexivity.
    now rewrite app_assoc.
Qed.

(** X4: the second loop of a rename treats each document on its own: for a
    document set in two parts, its edits are those for the first part
    followed by those for the second, and the filter is applied to each
    document separately. *)
Theorem repair_phase_splits (cwd : str) (minimatch : str -> str -> bool)
    (pathBefore pathAfter : str) (files1 files2 : FileList) (options : Options) :
  repairEdits cwd pathBefore pathAfter
    (trackedFiles cwd minimatch (files1 ++ files2) options)
  = (edits1 <- repairEdits cwd pathBefore pathAfter
                 (trackedFiles cwd minimatch files1 options) ;;
     edits2 <- repairEdits cwd pathBefore pathAfter
                 (trackedFiles cwd minimatch files2 options) ;;
     Ok (edits1 ++ edits2)).
Proof.
  unfold repairEdits, trackedFiles.
  rewrite map_app, filter_app. apply concatMapM_app.
Qed.

Lemma startsWith_inv (p s : str) :
  startsWith p s = true -> s = p ++ skipn (length p) s.
Proof.
  revert s; induction p as [|x p IH]; intros s H; [reflexivity|].
  destruct s as [|y s]; [discriminate|]. simpl in H.
  apply andb_true_iff in H as [Hx Hp]. apply Ascii.eqb_eq in Hx. subst y.
  simpl. f_equal. now apply IH.
Qed.

Lemma repairEdit_requirement (cwd pathBefore pathAfter : str) (f : File)
    (o : LinkOccurrence) (e : Edit) :
  In e (repairEdit cwd pathBefore pathAfter f o) ->
  (resolvedTarget f o = pathBefore /\ requiresPathToExist e = None) \/
  (exists rest,
      resolvedTarget f o = pathBefore ++ js "/" ++ rest /\
      resolvedTarget f o <> pathBefore /\
      requiresPathToExist e = Some (pathAfter ++ js "/" ++ rest)).
Proof.
  unfold repairEdit, resolvedTarget. cbv zeta.
  destruct (str_eqb _ pathBefore) eqn:E.
  - apply str_eqb_eq in E. intros [<-|[]]. left. auto.
  - apply str_eqb_neq in E.
    destruct (startsWith (pathBefore ++ Posix.sep) _) eqn:S; [|intros []].
    intros [<-|[]]. right.
    eexists (substring_from (length pathBefore + 1) _).
    split; [|split; [exact E|reflexivity]].
    apply startsWith_inv in S. rewrite length_app in S. simpl in S.
    rewrite <- app_assoc in S. exact S.
Qed.

(** X5: what an edit of a rename requires to exist tells which branch
    yielded it.  An edit of the first loop is on [pathAfter] and requires
    the path its reference resolved to from the old directory.  An edit of
    the second loop for a reference to [pathBefore] itself requires nothing.
    An edit of the second loop for a reference to a path under [pathBefore]
    requires that path with [pathBefore] replaced by [pathAfter]: the rest
    of the path is kept. *)
Theorem rename_edit_requirement (cwd : str) (minimatch : str -> str -> bool)
    (payloadBefore payloadAfter : str) (markdownFiles : FileList)
    (options : Options) (edits : list Edit) (e : Edit) :
  let pathBefore := Posix.normalize (windowsToPosix payloadBefore) in
  let pathAfter := Posix.normalize (windowsToPosix payloadAfter) in
  let tracked := trackedFiles cwd minimatch markdownFiles options in
  handleRenameEvent cwd minimatch payloadBefore payloadAfter markdownFiles
    options = Ok edits ->
  In e edits ->
  (exists f links o,
      In f tracked /\ Posix.normalize (fpath f) = pathAfter /\
      getAllLinks (Some (content f)) = Ok links /\ In o links /\
      path e = pathAfter /\
      requiresPathToExist e =
        Some (Posix.join (Posix.dirname pathBefore) (target o))) \/
  (exists f links o,
      In f tracked /\ getAllLinks (Some (content f)) = Ok links /\ In o links /\
      path e = fpath f /\
      resolvedTarget f o = pathBefore /\
      requiresPathToExist e = None) \/
  (exists f links o rest,
      In f tracked /\ getAllLinks (Some (content f)) = Ok links /\ In o links /\
      path e = fpath f /\
      resolvedTarget f o = pathBefore ++ js "/" ++ rest /\
      requiresPathToExist e = Some (pathAfter ++ js "/" ++ rest)).
Proof.
  intros pathBefore pathAfter tracked H Hin.
  apply handleRenameEvent_inv in H as [->|(moved & others & Hm & Ho & ->)];
    [destruct Hin|].
  fold pathBefore pathAfter tracked in Hm, Ho.
  apply in_app_iff in Hin as [Hin|Hin].
  - left.
    destruct (rebaseEdits_In _ _ _ _ _ Hm Hin) as (links & o & Hl & Hol & He).
    destruct (find _ tracked) as [f|] eqn:F.
    2:{ simpl in Hl. injection Hl as <-. destruct Hol. }
    apply find_some in F as [Hf Hp]. apply str_eqb_eq in Hp.
    exists f, links, o. simpl in Hl.
    split; [exact Hf|]. split; [exact Hp|]. split; [exact Hl|].
    split; [exact Hol|].
    unfold rebaseEdit in He. destruct (str_eqb _ _); [destruct He|].
    destruct He as [<-|[]]. simpl. auto.
  - right.
    destruct (repairEdits_In _ _ _ _ _ Ho Hin) as (f & links & o & Hf & Hl & Hol & He).
    pose proof (repairEdit_inv _ _ _ _ _ _ He) as [Hp _].
    apply repairEdit_requirement in He as [[Hr Hq]|(rest & Hr & _ & Hq)].
    + left. exists f, links, o. auto 10.
    + right. exists f, links, o, rest. auto 10.
Qed.

(** X5, witness: after the folder [docs] became [manual], the reference
    [docs/guide.md] of [index.md] is rewritten, and the edit requires
    [manual/guide.md] to exist. *)
Lemma rename_edit_requirement_witness :
  let pathBefore := Posix.normalize (windowsToPosix (js "docs")) in
  let pathAfter := Posix.normalize (windowsToPosix (js "manual")) in
  let tracked :=
    trackedFiles Reference.cwd Reference.minimatch folderFiles noOptions in
  handleRenameEvent Reference.cwd Reference.minimatch (js "docs") (js "manual")
    folderFiles noOptions = Ok [folderEdit] /\
  ((exists f links o,
       In f tracked /\ Posix.normalize (fpath f) = pathAfter /\
       getAllLinks (Some (content f)) = Ok links /\ In o links /\
       path folderEdit = pathAfter /\
       requiresPathToExist folderEdit =
         Some (Posix.join (Posix.dirname pathBefore) (target o))) \/
   (exists f links o,
       In f tracked /\ getAllLinks (Some (content f)) = Ok links /\ In o links /\
       path folderEdit = fpath f /\
       resolvedTarget f o = pathBefore /\
       requiresPathToExist folderEdit = None) \/
   (exists f links o rest,
       In f tracked /\ getAllLinks (Some (content f)) = Ok links /\ In o links /\
       path folderEdit = fpath f /\
       resolvedTarget f o = pathBefore ++ js "/" ++ rest /\
       requiresPathToExist folderEdit = Some (pathAfter ++ js "/" ++ rest))).
Proof.
  intros pathBefore pathAfter tracked.
  split; [vm_compute; reflexivity|].
  apply (@rename_edit_requirement Reference.cwd Reference.minimatch
           (js "docs") (js "manual") folderFiles noOptions
           [folderEdit] folderEdit).
  - vm_compute. reflexivity.
  - left. reflexivity.
Defined.

(* ===================================================================== *)
(** ** Further properties: texts without references *)
(* ===================================================================== *)

(** A pattern that opens with a literal character fails wherever the text
    does not go on with that character. *)
Lemma firstChar_needed (r : regex) (a : ascii) :
  firstChar r = Some a ->
  forall (k : cont) (s : str) (i : nat) (c : caps),
    hd_error s <> Some a -> rmatch r k s i c = None.
Proof.
  induction r as [b|p|r1 IH1 r2 IH2|n r1 IH1|g p|g p|r1 IH1| |];
    intros Hf k s i c Hs; simpl in Hf; try discriminate.
  - injection Hf as ->. destruct s as [|b s]; [reflexivity|]. simpl.
    destruct (Ascii.eqb_spec a b) as [->|_]; [|reflexivity].
    exfalso. apply Hs. reflexivity.
  - simpl. now apply IH1.
  - simpl. now apply IH1.
Qed.

Lemma search_needs_firstChar (r : regex) (a : ascii) (s : str) :
  firstChar r = Some a -> ~ In a s -> forall i, search r s i = None.
Proof.
  intros Hf. induction s as [|b s IH]; intros Hn i; rewrite search_unfold.
  - rewrite (firstChar_needed _ Hf); [reflexivity|discriminate].
  - rewrite (firstChar_needed _ Hf).
    + apply IH. intros Hin. apply Hn. simpl. auto.
    + simpl. intros E. injection E as ->. apply Hn. simpl. auto.
Qed.

Lemma In_skipn {A : Type} (x : A) (n : nat) (l : list A) :
  In x (skipn n l) -> In x l.
Proof.
  intros H. rewrite <- (firstn_skipn n l). apply in_or_app. now right.
Qed.

Lemma getMatchingLinks_needs_firstChar (regex : regex) (a : ascii)
    (fileContent : str) (flag : bool) :
  firstChar regex = Some a -> ~ In a fileContent ->
  getMatchingLinks regex (Some fileContent) flag = Ok [].
Proof.
  intros Hf Hn. unfold getMatchingLinks.
  destruct fileContent as [|b s] eqn:E; [reflexivity|]. rewrite <- E in *.
  cbn [matchLoop]. unfold exec.
  destruct (Nat.ltb (length fileContent) 0); [reflexivity|].
  rewrite (search_needs_firstChar _ _ Hf); [reflexivity|].
  intros Hin. apply Hn. exact (In_skipn _ _ _ Hin).
Qed.

Lemma getAllLinks_plain (fileContent : str) :
  ~ In "["%char fileContent -> ~ In "<"%char fileContent ->
  getAllLinks (Some fileContent) = Ok [].
Proof.
  intros Hb Ha. unfold getAllLinks.
  rewrite (@getMatchingLinks_needs_firstChar mdLinkRegexGlobal "[" _ _ eq_refl Hb).
  rewrite (@getMatchingLinks_needs_firstChar imgRegex "<" _ _ eq_refl Ha).
  rewrite (@getMatchingLinks_needs_firstChar wikilinkRegex "[" _ _ eq_refl Hb).
  reflexivity.
Qed.

(** X6: a text that holds neither an opening bracket nor an opening angle
    bracket holds no reference: each of the three scans of [getAllLinks]
    yields nothing for it, and so does [getAllLinks]. *)
Theorem getAllLinks_needs_opening (fileContent : str) :
  ~ In "["%char fileContent -> ~ In "<"%char fileContent ->
  getMatchingLinks mdLinkRegexGlobal (Some fileContent) true = Ok [] /\
  getMatchingLinks imgRegex (Some fileContent) true = Ok [] /\
  getMatchingLinks wikilinkRegex (Some fileContent) false = Ok [] /\
  getAllLinks (Some fileContent) = Ok [].
Proof.
  intros Hb Ha.
  split;
    [exact (@getMatchingLinks_needs_firstChar mdLinkRegexGlobal "[" _ _ eq_refl Hb)|].
  split; [exact (@getMatchingLinks_needs_firstChar imgRegex "<" _ _ eq_refl Ha)|].
  split;
    [exact (@getMatchingLinks_needs_firstChar wikilinkRegex "[" _ _ eq_refl Hb)|].
  now apply getAllLinks_plain.
Qed.

(** X6, witness: a plain sentence. *)
Lemma getAllLinks_needs_opening_witness :
  getMatchingLinks mdLinkRegexGlobal (Some (js "no link, see a.md")) true = Ok [] /\
  getMatchingLinks imgRegex (Some (js "no link, see a.md")) true = Ok [] /\
  getMatchingLinks wikilinkRegex (Some (js "no link, see a.md")) false = Ok [] /\
  getAllLinks (Some (js "no link, see a.md")) = Ok [].
Proof.
  apply getAllLinks_needs_opening;
    cbv; intros H; repeat (destruct H as [H|H]; [discriminate H|]); exact H.
Defined.

(** X7: a rename yields no edit when no document of the set holds an
    opening bracket or an opening angle bracket, whatever the paths and the
    options; so it yields none for an empty document set. *)
Theorem rename_without_references (cwd : str) (minimatch : str -> str -> bool)
    (diffLines : str -> str -> list Change) (headingToAnchor : str -> str)
    (payloadBefore payloadAfter : str) (markdownFiles : FileList)
    (options : Options) :
  (forall file, In file markdownFiles ->
     ~ In "["%char (content file) /\ ~ In "<"%char (content file)) ->
  pureGetEdits cwd minimatch diffLines headingToAnchor
    (RenameEvent payloadBefore payloadAfter) markdownFiles options = Ok [].
Proof.
  intros Hfiles. unfold pureGetEdits, handleRenameEvent.
  destruct (shouldIncludePath cwd minimatch options _); [|reflexivity]. simpl.
  assert (forall f, In f (trackedFiles cwd minimatch markdownFiles options) ->
                    getAllLinks (Some (content f)) = Ok []) as Htracked.
  { intros f Hf. apply trackedFiles_In in Hf as (_ & file & Hin & ->). simpl.
    destruct (Hfiles file Hin). now apply getAllLinks_plain. }
  assert (rebaseEdits cwd (Posix.normalize (windowsToPosix payloadBefore))
            (Posix.normalize (windowsToPosix payloadAfter))
            (option_map content
               (find (fun file =>
                        str_eqb (Posix.normalize (fpath file))
                                (Posix.normalize (windowsToPosix payloadAfter)))
                     (trackedFiles cwd minimatch markdownFiles options)))
          = Ok []) as ->.
  { unfold rebaseEdits. destruct (find _ _) as [f|] eqn:F; [|reflexivity].
    apply find_some in F as [Hf _]. simpl. now rewrite (Htracked f Hf). }
  assert (repairEdits cwd (Posix.normalize (windowsToPosix payloadBefore))
            (Posix.normalize (windowsToPosix payloadAfter))
            (trackedFiles cwd minimatch markdownFiles options) = Ok []) as ->;
    [|reflexivity].
  unfold repairEdits. apply concatMapM_nil.
  - intros f. unfold repairFile.
    destruct (getAllLinks_ok (Some (content f))) as [l ->]. cbn [bind]. eauto.
  - intros f Hf. unfold repairFile. now rewrite (Htracked f Hf).
Qed.

(** X7, witness: a document of plain text. *)
Lemma rename_without_references_witness :
  Reference.getEdits (RenameEvent (js "a.md") (js "b.md"))
    [mkFile (js "c.md") (js "see a.md")] noOptions = Ok [].
Proof.
  apply (rename_without_references Reference.cwd Reference.minimatch
           Reference.diffLines Reference.headingToAnchor).
  intros file [<-|[]].
  split; cbv; intros H; repeat (destruct H as [H|H]; [discriminate H|]);
    exact H.
Defined.

(* ===================================================================== *)
(** ** Further properties: what the scan yields *)
(* ===================================================================== *)

Lemma forallb_is_not (a : ascii) (s : str) :
  forallb (is_not a) s = true <-> ~ In a s.
Proof.
  induction s as [|c s IH]; simpl.
  - split; [intros _ []|reflexivity].
  - rewrite andb_true_iff, IH. unfold is_not.
    destruct (Ascii.eqb_spec c a) as [->|Hn]; simpl.
    + split; [intros [E _]; discriminate|]. intros H. exfalso. apply H. auto.
    + split.
      * intros [_ H] [E|Hin]; [congruence|contradiction].
      * intros H. split; [reflexivity|]. intros Hin. apply H. auto.
Qed.

Lemma windowsToPosix_In (x : ascii) (s : str) :
  x <> "/"%char -> In x (windowsToPosix s) -> In x s.
Proof.
  intros Hx. unfold windowsToPosix. rewrite in_map_iff.
  intros (c & Hc & Hin). destruct (Ascii.eqb c "\"%char); congruence.
Qed.

(** In a pattern whose second group is a loop over a character class, the
    group captures characters of that class only, and at least one where
    the loop is a [+]. *)
Lemma target_group_class (a body rest : regex) (g : bool) (cls : ascii -> bool)
    (s : str) (i e : nat) (c : caps) :
  body = RPlus g cls \/ body = RStar g cls ->
  ~ In 2 (groups rest) ->
  rmatch (RSeq (RGroup 1 a) (RSeq (RGroup 2 body) rest)) finish s i [] = Some (e, c) ->
  exists j t2,
    capture 2 c = Some (j, t2) /\ forallb cls t2 = true /\
    (body = RPlus g cls -> t2 <> []).
Proof.
  intros Hb N2 H. cbn [rmatch] in H.
  apply rmatch_inv in H as (t1 & s1 & c1 & -> & _ & H & _).
  assert (exists t s', s1 = t ++ s' /\ forallb cls t = true /\
                       (body = RPlus g cls -> t <> []) /\
                       rmatch rest finish s' (i + length t1 + length t)
                         ((2, (i + length t1,
                               firstn (i + length t1 + length t - (i + length t1)) s1))
                            :: (1, (i, firstn (i + length t1 - i) (t1 ++ s1))) :: c1)
                       = Some (e, c)) as (t & s' & -> & Ht & Hne & Hk).
  { destruct Hb as [-> | ->]; cbn [rmatch] in H.
    - apply plus_inv in H as (t & s' & -> & Ht & Hne & H). eauto 10.
    - destruct g.
      + apply greedy_star_inv in H as (t & s' & -> & Ht & H).
        exists t, s'. repeat split; auto; try (intros E; discriminate E).
      + apply lazy_star_inv in H as (t & s' & -> & Ht & H & _).
        exists t, s'. repeat split; auto; try (intros E; discriminate E). }
  apply rmatch_inv in Hk as (t3 & s3 & c3 & _ & _ & Hk & C3).
  unfold finish in Hk. injection Hk as _ <-.
  exists (i + length t1), t. rewrite C3 by assumption. cbn [capture Nat.eqb].
  rewrite firstn_span. auto.
Qed.

(** X8: the targets [getMatchingLinks] yields for the three patterns of
    [getAllLinks] hold no backslash; those of an inline or double-bracket
    reference are not empty and hold no closing parenthesis; those of an
    embedded-media reference hold no quote, and may be empty. *)
Theorem link_target_characters (regex : regex) (fileContent : option str)
    (flag : bool) (l : list LinkOccurrence) (o : LinkOccurrence) :
  regex = mdLinkRegexGlobal \/ regex = imgRegex \/ regex = wikilinkRegex ->
  getMatchingLinks regex fileContent flag = Ok l ->
  In o l ->
  ~ In "\"%char (target o) /\
  (((regex = mdLinkRegexGlobal \/ regex = wikilinkRegex) /\
    target o <> [] /\ ~ In ")"%char (target o)) \/
   (regex = imgRegex /\
    ~ In "'"%char (target o) /\ ~ In DQUOTE (target o))).
Proof.
  intros Hr H Hin.
  destruct (@getMatchingLinks_In _ _ _ _ _ (scanning_patterns_shaped Hr) H Hin)
    as (c & li & m & pre & t1 & t2 & post & -> & Hex & _ & _ & _ & C2 & ->).
  apply exec_inv in Hex as (pre' & s1 & _ & _ & _ & Hm).
  cbn [target occurrenceOf].
  split; [apply windowsToPosix_no_backslash|].
  assert (forall a rest cls body,
             regex = RSeq (RGroup 1 a) (RSeq (RGroup 2 body) rest) ->
             body = RPlus false cls \/ body = RStar false cls ->
             ~ In 2 (groups rest) ->
             forallb cls t2 = true /\ (body = RPlus false cls -> t2 <> []))
    as Hclass.
  { intros a rest cls body -> Hb N2.
    destruct (@target_group_class a body rest false cls _ _ _ _ Hb N2 Hm)
      as (j & t & Hc & Ht & Hne).
    rewrite C2 in Hc. injection Hc as _ <-. auto. }
  assert (forall cls : ascii -> bool,
             forallb cls t2 = true -> (RPlus false cls = RPlus false cls -> t2 <> []) ->
             (forall x, cls x = true -> x <> ")"%char) ->
             windowsToPosix t2 <> [] /\ ~ In ")"%char (windowsToPosix t2))
    as Hparen.
  { intros cls Ht Hne Hcls. split.
    - intros E. apply (Hne eq_refl). destruct t2; [reflexivity|discriminate].
    - intros Hp. apply windowsToPosix_In in Hp; [|discriminate].
      rewrite forallb_forall in Ht. apply (Hcls _ (Ht _ Hp)). reflexivity. }
  assert (forall x, is_not ")" x = true -> x <> ")"%char) as Hnot.
  { intros x Hx ->. discriminate. }
  destruct Hr as [->|[->| ->]].
  - left. split; [left; reflexivity|].
    destruct (Hclass _ _ (is_not ")") _ eq_refl (or_introl eq_refl))
      as [Ht Hne]; [simpl; intuition discriminate|].
    exact (Hparen _ Ht Hne Hnot).
  - right. split; [reflexivity|].
    destruct (Hclass _ _ is_not_quote _ eq_refl (or_intror eq_refl))
      as [Ht _]; [simpl; intuition discriminate|].
    rewrite forallb_forall in Ht.
    split; intros Hq; (apply windowsToPosix_In in Hq; [|discriminate]);
      apply Ht in Hq; discriminate Hq.
  - left. split; [right; reflexivity|].
    destruct (Hclass _ _ (is_not ")") _ eq_refl (or_introl eq_refl))
      as [Ht Hne]; [simpl; intuition discriminate|].
    exact (Hparen _ Ht Hne Hnot).
Qed.

(** X8, witness: the inline reference of [[x](a\b.md)]. *)
Lemma link_target_characters_witness :
  let o := mkLink (js "a/b.md") 0 4 true in
  getMatchingLinks mdLinkRegexGlobal (Some (js "[x](a\b.md)")) true = Ok [o] /\
  ~ In "\"%char (target o) /\
  (((mdLinkRegexGlobal = mdLinkRegexGlobal \/ mdLinkRegexGlobal = wikilinkRegex) /\
    target o <> [] /\ ~ In ")"%char (target o)) \/
   (mdLinkRegexGlobal = imgRegex /\
    ~ In "'"%char (target o) /\ ~ In DQUOTE (target o))).
Proof.
  intros o. split; [vm_compute; reflexivity|].
  apply (@link_target_characters mdLinkRegexGlobal
           (Some (js "[x](a\b.md)")) true [o] o).
  - left. reflexivity.
  - vm_compute. reflexivity.
  - left. reflexivity.
Defined.

(** The last of the lines of a text starts after the last line feed, and
    the lines before it are as many as the line feeds. *)
Lemma split_last_line (s : str) :
  exists before cur,
    s = before ++ cur /\ ~ In LF cur /\
    (before = [] \/ exists b, before = b ++ [LF]) /\
    length (split LF s) - 1 = count_occ ascii_dec before LF /\
    nth (length (split LF s) - 1) (split LF s) [] = cur.
Proof.
  induction s as [|c s (before & cur & Es & Hn & Hb & Hc & Hl)].
  - exists [], []. simpl. repeat split; auto.
  - pose proof (split_not_nil LF s) as Hne. cbn [split].
    destruct (split LF s) as [|l ls]; [congruence|]. clear Hne.
    cbn [length] in Hc, Hl.
    replace (S (length ls) - 1) with (length ls) in Hc, Hl by lia.
    destruct (Ascii.eqb_spec c LF) as [->|Hd]; cbn [length].
    + exists (LF :: before), cur. rewrite Es at 1.
      split; [reflexivity|]. split; [exact Hn|]. split.
      { right. destruct Hb as [->|[b ->]]; [exists []|exists (LF :: b)];
          reflexivity. }
      cbn [count_occ]. destruct (ascii_dec LF LF) as [_|F]; [|congruence].
      replace (S (S (length ls)) - 1) with (S (length ls)) by lia.
      split; [now rewrite Hc|exact Hl].
    + replace (S (length ls) - 1) with (length ls) by lia.
      destruct Hb as [->|[b ->]].
      * exists [], (c :: cur). cbn [count_occ app] in *. subst s.
        rewrite Hc in *. cbn [nth] in *. subst l.
        repeat split; auto. intros [E|Hin]; [congruence|contradiction].
      * exists (c :: b ++ [LF]), cur. rewrite Es at 1.
        split; [reflexivity|]. split; [exact Hn|].
        split; [right; exists (c :: b); reflexivity|].
        cbn [count_occ]. destruct (ascii_dec c LF) as [E|_]; [congruence|].
        split; [exact Hc|].
        rewrite count_occ_app in Hc. cbn [count_occ] in Hc.
        destruct (ascii_dec LF LF) as [_|F]; [|congruence].
        destruct (length ls) as [|n]; [lia|]. exact Hl.
Qed.

(** X9: the line and column of an occurrence are the zero-based
    coordinates of the start of its target.  The text before the target
    splits into whole lines, each ended by a line feed, and the start of the
    target's line; [line] is the number of line feeds, [col] the length of
    that start.  The target is the text found there, separators
    converted. *)
Theorem occurrence_coordinates (fileContent : option str)
    (l : list LinkOccurrence) (o : LinkOccurrence) :
  getAllLinks fileContent = Ok l ->
  In o l ->
  exists content before cur raw post,
    fileContent = Some content /\
    content = before ++ cur ++ raw ++ post /\
    target o = windowsToPosix raw /\
    (before = [] \/ exists b, before = b ++ [LF]) /\
    ~ In LF cur /\
    line o = count_occ ascii_dec before LF /\
    col o = length cur.
Proof.
  intros H Hin.
  destruct (@getAllLinks_located _ _ _ H Hin)
    as (content & -> & pre & raw & post & flag & -> & ->).
  destruct (split_last_line pre) as (before & cur & Ep & Hn & Hb & Hc & Hl).
  exists (pre ++ raw ++ post), before, cur, raw, post.
  unfold occurrenceOf, substring_to. cbn [target line col].
  replace (firstn (length pre) (pre ++ raw ++ post)) with pre.
  2:{ rewrite firstn_app, Nat.sub_diag, firstn_all. simpl.
      now rewrite app_nil_r. }
  rewrite Hl, Hc. clear Hl Hc. subst pre. rewrite <- !app_assoc.
  repeat split; auto.
Qed.

(** X9, witness: the reference on the second line of a text. *)
Lemma occurrence_coordinates_witness :
  let o := mkLink (js "b.md") 1 8 true in
  getAllLinks (Some (js "intro" ++ NL ++ js "see [a](b.md)")) = Ok [o] /\
  exists content before cur raw post,
    Some (js "intro" ++ NL ++ js "see [a](b.md)") = Some content /\
    content = before ++ cur ++ raw ++ post /\
    target o = windowsToPosix raw /\
    (before = [] \/ exists b, before = b ++ [LF]) /\
    ~ In LF cur /\
    line o = count_occ ascii_dec before LF /\
    col o = length cur.
Proof.
  intros o. split; [vm_compute; reflexivity|].
  apply (@occurrence_coordinates _ [o] o).
  - vm_compute. reflexivity.
  - left. reflexivity.
Defined.

Lemma spansFrom_le (from from' : nat) (spans : list (nat * str)) :
  from' <= from -> spansFrom from spans -> spansFrom from' spans.
Proof.
  destruct spans as [|[i raw] rest]; simpl; [auto|].
  intros Hle [Hi Hrest]. split; [lia|exact Hrest].
Qed.

Lemma skipn_length_app {A : Type} (a b : list A) : skipn (length a) (a ++ b) = b.
Proof. induction a as [|x a IH]; simpl; [reflexivity|exact IH]. Qed.

Lemma matchLoop_spans (regex : regex) (fileContent : str) (flag : bool) :
  linkShaped regex ->
  forall fuel lastIndex l,
    matchLoop fuel regex fileContent lastIndex flag = Ok l ->
    exists spans,
      l = map (fun span => occurrenceOf fileContent (fst span) (snd span) flag)
              spans /\
      spansFrom lastIndex spans /\
      Forall (fun span =>
                substring (fst span) (fst span + length (snd span)) fileContent
                = snd span) spans.
Proof.
  intros shaped. induction fuel as [|fuel IH]; intros lastIndex l H;
    [discriminate|].
  simpl in H. destruct (exec regex fileContent lastIndex) as [m|] eqn:E.
  2:{ injection H as <-. exists []. simpl. auto. }
  apply exec_inv in E as (pre & s1 & Hc & Hpre & Hle & Hm).
  destruct (@linkShaped_match regex _ _ _ _ shaped Hm)
    as (t1 & t2 & t3 & s' & -> & He & C1 & C2 & Hne).
  unfold capText in H. rewrite C1, C2 in H. simpl in H.
  destruct (matchLoop fuel regex fileContent (m_end m) flag) as [rest| |] eqn:R;
    try discriminate.
  simpl in H. injection H as <-.
  destruct (IH _ _ R) as (spans & -> & Hs & Hf).
  exists ((m_index m + length t1, t2) :: spans). split; [reflexivity|].
  split.
  - simpl. split.
    + destruct t1; [congruence|]. simpl. lia.
    + apply spansFrom_le with (from := m_end m); [lia|exact Hs].
  - constructor; [|exact Hf]. cbn [fst snd]. unfold substring.
    rewrite Hc, <- Hpre, <- length_app, app_assoc, skipn_length_app.
    apply firstn_span.
Qed.

(** X10: the references one pattern finds in a text come in text order and
    do not overlap: each target starts after the start of the text, and
    after the end of the target found before it.  The occurrences are those
    built for these targets at these offsets. *)
Theorem scan_targets_in_order (regex : regex) (fileContent : str) (flag : bool)
    (l : list LinkOccurrence) :
  regex = mdLinkRegexGlobal \/ regex = imgRegex \/ regex = wikilinkRegex ->
  getMatchingLinks regex (Some fileContent) flag = Ok l ->
  exists spans,
    l = map (fun span => occurrenceOf fileContent (fst span) (snd span) flag)
            spans /\
    spansFrom 0 spans /\
    Forall (fun span =>
              substring (fst span) (fst span + length (snd span)) fileContent
              = snd span) spans.
Proof.
  intros Hr H. unfold getMatchingLinks in H.
  destruct fileContent as [|a c] eqn:E.
  - injection H as <-. exists []. simpl. auto.
  - rewrite <- E in *.
    exact (@matchLoop_spans _ _ _ (scanning_patterns_shaped Hr) _ _ _ H).
Qed.

(** X10, witness: the two inline references of one line. *)
Lemma scan_targets_in_order_witness :
  let text := js "[a](x.md) [b](y.md)" in
  let l := [mkLink (js "x.md") 0 4 true; mkLink (js "y.md") 0 14 true] in
  getMatchingLinks mdLinkRegexGlobal (Some text) true = Ok l /\
  exists spans,
    l = map (fun span => occurrenceOf text (fst span) (snd span) true) spans /\
    spansFrom 0 spans /\
    Forall (fun span =>
              substring (fst span) (fst span + length (snd span)) text
              = snd span) spans.
Proof.
  intros text l. split; [vm_compute; reflexivity|].
  apply (@scan_targets_in_order mdLinkRegexGlobal text true l).
  - left. reflexivity.
  - vm_compute. reflexivity.
Defined.

(* ===================================================================== *)
(** ** Further properties: saving *)
(* ===================================================================== *)

Lemma renamedHeadings_none (diff : list Change) :
  (forall pre change nextChange post,
      diff = pre ++ change :: nextChange :: post ->
      removed change && added nextChange = false) ->
  renamedHeadings diff = [].
Proof.
  induction diff as [|change diff IH]; intros H; [reflexivity|].
  destruct diff as [|nextChange rest]; [reflexivity|].
  change (renamedHeadings (change :: nextChange :: rest))
    with (match renamedHeading change nextChange with
          | Some h => h :: renamedHeadings (nextChange :: rest)
          | None => renamedHeadings (nextChange :: rest)
          end).
  unfold renamedHeading. rewrite (H [] change nextChange rest eq_refl).
  apply IH. intros pre c n post E. apply (H (change :: pre) c n post).
  simpl. now rewrite E.
Qed.

Lemma anchorEdits_no_renames (headingToAnchor : str -> str) (docPath : str)
    (lineNumber : nat) (line : str) :
  anchorEdits headingToAnchor docPath [] lineNumber line = [].
Proof.
  unfold anchorEdits. destruct (match_ mdLinkRegex line) as [m|]; [|reflexivity].
  destruct (Nat.eqb (m_end m) (m_index m)); [reflexivity|].
  destruct (capText 2 (m_caps m)); reflexivity.
Qed.

Lemma anchorLoop_no_renames (headingToAnchor : str -> str) (docPath : str)
    (lines : list str) :
  forall lineNumber,
    anchorLoop headingToAnchor docPath [] lineNumber lines = [].
Proof.
  induction lines as [|line lines IH]; intros lineNumber; [reflexivity|].
  simpl. now rewrite anchorEdits_no_renames, IH.
Qed.

(** X11: a save yields no edit when, in the line diff of the two texts, no
    run of removed lines is followed at once by a run of added lines,
    whatever the saved text holds: lines that are only added, only removed,
    or kept never count as a renamed heading. *)
Theorem save_without_replacement (diffLines : str -> str -> list Change)
    (headingToAnchor : str -> str) (docPath contentBefore contentAfter : str)
    (options : Options) :
  (forall pre change nextChange post,
      diffLines contentBefore contentAfter
        = pre ++ change :: nextChange :: post ->
      removed change && added nextChange = false) ->
  handleSaveEvent diffLines headingToAnchor docPath contentBefore contentAfter
    options = [].
Proof.
  intros H. unfold handleSaveEvent. rewrite (@renamedHeadings_none _ H).
  apply anchorLoop_no_renames.
Qed.

(** X11, witness: a link added below an unchanged heading. *)
Lemma save_without_replacement_witness :
  handleSaveEvent Reference.diffLines Reference.headingToAnchor (js "a.md")
    (js "# A" ++ NL ++ js "text" ++ NL)
    (js "# A" ++ NL ++ js "text" ++ NL ++ js "[x](#a)" ++ NL) noOptions = [].
Proof.
  apply save_without_replacement.
  intros pre change nextChange post E. vm_compute in E.
  destruct pre as [|c1 pre]; [injection E as <- <- _; reflexivity|].
  destruct pre as [|c2 pre]; [discriminate E|].
  destruct pre; discriminate E.
Defined.

Lemma inlineLink_app (name link post : str) :
  inlineLink name link ++ post
  = "["%char :: name ++ "]"%char :: "("%char :: link ++ ")"%char :: post.
Proof.
  unfold inlineLink. cbn [js list_ascii_of_string app].
  rewrite <- !app_assoc. cbn [app]. f_equal. f_equal. f_equal. f_equal.
  rewrite <- app_assoc. reflexivity.
Qed.

Lemma mdLinkRegex_unfold :
  mdLinkRegex =
  RSeq (RChar "[")
    (RSeq (RGroup 1 (RStar true (is_not "]")))
       (RSeq (RSeq (RChar "]") (RChar "("))
          (RSeq (RGroup 2 (RPlus true (is_not ")"))) (RChar ")")))).
Proof. reflexivity. Qed.

(** A match of [mdLinkRegex] is the text of an inline link: a label
    without closing bracket and a target, not empty, without closing
    parenthesis. *)
Lemma mdLinkRegex_inv (s : str) (i e : nat) (c : caps) :
  rmatch mdLinkRegex finish s i [] = Some (e, c) ->
  exists name link post,
    s = inlineLink name link ++ post /\
    ~ In "]"%char name /\ ~ In ")"%char link /\ link <> [] /\
    capText 1 c = Some name /\ capText 2 c = Some link /\
    e = i + length (inlineLink name link).
Proof.
  rewrite mdLinkRegex_unfold. cbn [rmatch]. intros H.
  destruct s as [|b0 s]; [discriminate|].
  destruct (Ascii.eqb_spec "[" b0) as [<-|_]; [|discriminate].
  apply greedy_star_inv in H as (name & s1 & -> & Hname & H).
  destruct s1 as [|b1 s1]; [discriminate|].
  destruct (Ascii.eqb_spec "]" b1) as [<-|_]; [|discriminate].
  destruct s1 as [|b2 s1]; [discriminate|].
  destruct (Ascii.eqb_spec "(" b2) as [<-|_]; [|discriminate].
  apply plus_inv in H as (link & s2 & -> & Hlink & Hne & H).
  destruct s2 as [|b3 post]; [discriminate|].
  destruct (Ascii.eqb_spec ")" b3) as [<-|_]; [|discriminate].
  unfold finish in H. injection H as <- <-.
  exists name, link, post. rewrite inlineLink_app.
  split; [reflexivity|]. split; [now apply forallb_is_not|].
  split; [now apply forallb_is_not|]. split; [exact Hne|].
  unfold capText. cbn [capture Nat.eqb option_map snd].
  split; [now rewrite firstn_span|]. split.
  - f_equal. apply firstn_span.
  - unfold inlineLink. rewrite !length_app. simpl. lia.
Qed.

Lemma takeWhile_run (p : ascii -> bool) (a b : str) (c : ascii) :
  forallb p a = true -> p c = false -> takeWhile p (a ++ c :: b) = a.
Proof.
  intros Ha Hc. induction a as [|x a IH]; simpl in *; [now rewrite Hc|].
  apply andb_true_iff in Ha as [-> Ha]. now rewrite IH.
Qed.

Lemma dropWhile_run (p : ascii -> bool) (a b : str) (c : ascii) :
  forallb p a = true -> p c = false -> dropWhile p (a ++ c :: b) = c :: b.
Proof.
  intros Ha Hc. induction a as [|x a IH]; simpl in *; [now rewrite Hc|].
  apply andb_true_iff in Ha as [-> Ha]. now apply IH.
Qed.

(** [mdLinkRegex] matches wherever the text of an inline link starts, and
    captures its label and its target. *)
Lemma mdLinkRegex_complete (name link post : str) (i : nat) :
  ~ In "]"%char name -> ~ In ")"%char link -> link <> [] ->
  exists c,
    rmatch mdLinkRegex finish (inlineLink name link ++ post) i [] =
      Some (i + length (inlineLink name link), c) /\
    capText 1 c = Some name /\ capText 2 c = Some link.
Proof.
  intros Hname Hlink Hne.
  apply forallb_is_not in Hname. apply forallb_is_not in Hlink.
  rewrite mdLinkRegex_unfold, inlineLink_app. cbn [rmatch].
  rewrite Ascii.eqb_refl.
  rewrite greedy_star_longest.
  2:{ intros b s' i' Hb. unfold is_not in Hb. rewrite Ascii.eqb_sym.
      now destruct (Ascii.eqb b "]"). }
  rewrite takeWhile_run, dropWhile_run by (assumption || reflexivity).
  rewrite !Ascii.eqb_refl. unfold plus.
  destruct link as [|l0 link]; [congruence|]. cbn [app].
  cbn [forallb] in Hlink. apply andb_true_iff in Hlink as [Hl0 Hlink].
  rewrite Hl0. rewrite greedy_star_longest.
  2:{ intros b s' i' Hb. unfold is_not in Hb. rewrite Ascii.eqb_sym.
      now destruct (Ascii.eqb b ")"). }
  rewrite takeWhile_run, dropWhile_run by (assumption || reflexivity).
  rewrite Ascii.eqb_refl. unfold finish. eexists. split; [|split].
  - f_equal. f_equal. unfold inlineLink. rewrite !length_app. simpl. lia.
  - unfold capText. cbn [capture Nat.eqb option_map snd]. f_equal.
    apply firstn_span.
  - unfold capText. cbn [capture Nat.eqb option_map snd]. f_equal.
    replace (S (S (S (S i + length name))) + length link - S (S (S i + length name)))
      with (length (l0 :: link) + 0) by (cbn [length]; lia).
    change (l0 :: link ++ ")"%char :: post)
      with ((l0 :: link) ++ ")"%char :: post).
    rewrite firstn_app_2. simpl. now rewrite app_nil_r.
Qed.

(** The search reports the first offset at which the pattern matches. *)
Lemma search_first (r : regex) (s : str) :
  forall i m,
    search r s i = Some m ->
    forall p1 p2,
      s = p1 ++ p2 -> i + length p1 < m_index m ->
      rmatch r finish p2 (i + length p1) [] = None.
Proof.
  induction s as [|a s IH]; intros i m H p1 p2 E Hlt; rewrite search_unfold in H.
  - destruct (rmatch r finish [] i []) as [[e c]|]; [|discriminate].
    injection H as <-. simpl in Hlt. lia.
  - destruct (rmatch r finish (a :: s) i []) as [[e c]|] eqn:R.
    + injection H as <-. simpl in Hlt. lia.
    + destruct p1 as [|b p1]; simpl in E.
      * subst p2. simpl. now rewrite Nat.add_0_r.
      * injection E as <- E. simpl. rewrite Nat.add_succ_r.
        apply (IH (S i) m H p1 p2 E). simpl in Hlt. lia.
Qed.

Lemma search_none (r : regex) (s : str) :
  forall i,
    (forall p1 p2, s = p1 ++ p2 -> rmatch r finish p2 (i + length p1) [] = None) ->
    search r s i = None.
Proof.
  induction s as [|a s IH]; intros i H; rewrite search_unfold.
  - pose proof (H [] [] eq_refl) as H0. simpl in H0. rewrite Nat.add_0_r in H0.
    now rewrite H0.
  - pose proof (H [] (a :: s) eq_refl) as H0. simpl in H0.
    rewrite Nat.add_0_r in H0. rewrite H0. apply IH. intros p1 p2 E.
    specialize (H (a :: p1) p2). simpl in H. rewrite Nat.add_succ_r in H.
    apply H. now rewrite E.
Qed.

Lemma anchorLoop_In (headingToAnchor : str -> str) (docPath : str)
    (renamed : list HeadingRename) (lines : list str) :
  forall (lineNumber : nat) (e : Edit),
    In e (anchorLoop headingToAnchor docPath renamed lineNumber lines) ->
    exists n line,
      nth_error lines n = Some line /\
      In e (anchorEdits headingToAnchor docPath renamed (lineNumber + n) line).
Proof.
  induction lines as [|line lines IH]; intros lineNumber e Hin; [destruct Hin|].
  simpl in Hin. apply in_app_iff in Hin as [Hin|Hin].
  - exists 0, line. rewrite Nat.add_0_r. auto.
  - apply IH in Hin as (n & line' & Hn & Hin). exists (S n), line'.
    rewrite <- Nat.add_succ_comm. auto.
Qed.

(** X12: every edit of a save rewrites a line of the saved text that holds
    an inline link to the anchor of a renamed heading's old text.  The
    link is the first inline link of the line, its label holds no closing
    bracket, and the edit replaces the whole line, from column [0] to the
    line's length, by the link alone, pointed at the anchor of the new
    text; it requires no path to exist. *)
Theorem save_edit_origin (diffLines : str -> str -> list Change)
    (headingToAnchor : str -> str) (docPath contentBefore contentAfter : str)
    (options : Options) (e : Edit) :
  In e (handleSaveEvent diffLines headingToAnchor docPath contentBefore
          contentAfter options) ->
  exists n line pre name post h,
    nth_error (split LF contentAfter) n = Some line /\
    In h (renamedHeadings (diffLines contentBefore contentAfter)) /\
    line = pre ++ inlineLink name (js "#" ++ headingToAnchor (oldHeader h)) ++ post /\
    match_ mdLinkRegex pre = None /\
    ~ In "]"%char name /\
    e = anchorEdit headingToAnchor docPath n line name h.
Proof.
  unfold handleSaveEvent. intros Hin.
  apply anchorLoop_In in Hin as (n & line & Hn & Hin). simpl in Hin.
  unfold anchorEdits in Hin.
  destruct (match_ mdLinkRegex line) as [m|] eqn:M; [|destruct Hin].
  destruct (Nat.eqb (m_end m) (m_index m)); [destruct Hin|].
  unfold match_ in M. pose proof M as M1.
  apply search_inv in M as (pre & s1 & -> & Hi & Hm).
  apply mdLinkRegex_inv in Hm
    as (name & link & post & -> & Hname & Hlink & Hne & C1 & C2 & He).
  rewrite C1, C2 in Hin. apply in_flat_map in Hin as (h & Hh & Hin).
  destruct (str_eqb link _) eqn:E; [|destruct Hin].
  apply str_eqb_eq in E. subst link. destruct Hin as [<-|[]].
  exists n, (pre ++ inlineLink name (js "#" ++ headingToAnchor (oldHeader h)) ++ post),
    pre, name, post, h.
  repeat split; auto.
  unfold match_. apply search_none. intros p1 p2 Ep.
  destruct (rmatch mdLinkRegex finish p2 (0 + length p1) []) as [[e c]|] eqn:R;
    [exfalso|reflexivity].
  apply mdLinkRegex_inv in R
    as (name' & link' & post' & -> & Hname' & Hlink' & Hne' & _).
  subst pre.
  destruct (@mdLinkRegex_complete name' link'
              (post' ++ inlineLink name (js "#" ++ headingToAnchor (oldHeader h))
                          ++ post)
              (0 + length p1) Hname' Hlink' Hne') as (c' & Hc' & _).
  rewrite (@search_first _ _ _ _ M1 p1) in Hc'; [discriminate| |].
  - now rewrite <- !app_assoc.
  - rewrite Hi, !length_app. unfold inlineLink at 1. rewrite !length_app.
    simpl. lia.
Qed.

(** X12, witness: the link below the renamed heading of [savedAfter]. *)
Lemma save_edit_origin_witness :
  let e := mkEdit (js "a.md") (mkRange (mkPosition 1 0) (mkPosition 1 17))
                  (js "[see](#new-title)") None in
  In e (handleSaveEvent Reference.diffLines Reference.headingToAnchor
          (js "a.md") savedBefore savedAfter noOptions) /\
  exists n line pre name post h,
    nth_error (split LF savedAfter) n = Some line /\
    In h (renamedHeadings (Reference.diffLines savedBefore savedAfter)) /\
    line = pre ++ inlineLink name
                    (js "#" ++ Reference.headingToAnchor (oldHeader h)) ++ post /\
    match_ mdLinkRegex pre = None /\
    ~ In "]"%char name /\
    e = anchorEdit Reference.headingToAnchor (js "a.md") n line name h.
Proof.
  intros e. split; [vm_compute; left; reflexivity|].
  apply (@save_edit_origin Reference.diffLines Reference.headingToAnchor
           (js "a.md") savedBefore savedAfter noOptions e).
  vm_compute. left. reflexivity.
Defined.

Lemma search_skip (r : regex) (a : ascii) (pre s : str) :
  firstChar r = Some a -> ~ In a pre ->
  forall i, search r (pre ++ s) i = search r s (i + length pre).
Proof.
  intros Hf. induction pre as [|b pre IH]; intros Hn i.
  - simpl. now rewrite Nat.add_0_r.
  - change (search r ((b :: pre) ++ s) i)
      with (match rmatch r finish (b :: pre ++ s) i [] with
            | Some (e, c) => Some (mkMatch i e c)
            | None => search r (pre ++ s) (S i)
            end).
    rewrite (firstChar_needed _ Hf).
    + rewrite IH; [simpl; now rewrite Nat.add_succ_r|].
      intros Hin. apply Hn. simpl. auto.
    + simpl. intros E. injection E as ->. apply Hn. simpl. auto.
Qed.

Lemma flat_map_filter {A B : Type} (p : A -> bool) (f : A -> B) (l : list A) :
  flat_map (fun a => if p a then [f a] else []) l = map f (filter p l).
Proof.
  induction l as [|a l IH]; simpl; [reflexivity|].
  destruct (p a); simpl; now rewrite IH.
Qed.

(** What the body of the save loop yields for a line whose first inline
    link is [[name](link)]: one edit for each renamed heading whose old
    anchor is [link], and nothing else, whatever follows the link. *)
Lemma anchorEdits_first_link (headingToAnchor : str -> str) (docPath : str)
    (renamed : list HeadingRename) (lineNumber : nat)
    (pre name link post : str) :
  ~ In "["%char pre -> ~ In "]"%char name -> ~ In ")"%char link -> link <> [] ->
  anchorEdits headingToAnchor docPath renamed lineNumber
    (pre ++ inlineLink name link ++ post)
  = map (anchorEdit headingToAnchor docPath lineNumber
           (pre ++ inlineLink name link ++ post) name)
        (filter (fun h => str_eqb link (js "#" ++ headingToAnchor (oldHeader h)))
                renamed).
Proof.
  intros Hpre Hname Hlink Hne. unfold anchorEdits, match_.
  rewrite (@search_skip mdLinkRegex "[" _ _ eq_refl Hpre), search_unfold.
  destruct (@mdLinkRegex_complete name link post (0 + length pre) Hname Hlink Hne)
    as (c & -> & C1 & C2).
  cbn [m_end m_index m_caps]. rewrite C1, C2.
  destruct (Nat.eqb_spec (0 + length pre + length (inlineLink name link))
              (0 + length pre)) as [E|_].
  { unfold inlineLink in E. rewrite !length_app in E. simpl in E. lia. }
  apply flat_map_filter.
Qed.

Lemma anchorLoop_intro (headingToAnchor : str -> str) (docPath : str)
    (renamed : list HeadingRename) (lines : list str) :
  forall (lineNumber n : nat) (line : str) (e : Edit),
    nth_error lines n = Some line ->
    In e (anchorEdits headingToAnchor docPath renamed (lineNumber + n) line) ->
    In e (anchorLoop headingToAnchor docPath renamed lineNumber lines).
Proof.
  induction lines as [|l lines IH]; intros lineNumber n line e Hn Hin.
  - destruct n; discriminate Hn.
  - simpl. apply in_or_app. destruct n as [|n]; simpl in Hn.
    + injection Hn as ->. rewrite Nat.add_0_r in Hin. auto.
    + right. apply (IH (S lineNumber) n line); [exact Hn|].
      now rewrite Nat.add_succ_comm.
Qed.

(** X13: where a heading was renamed, a line of the saved text that holds
    no bracket before an inline link to the old heading's anchor is
    rewritten: the save yields the edit that replaces the line by that
    link, pointed at the new heading's anchor.  The text of the line
    before and after the link is not in the new text. *)
Theorem anchor_link_rewritten (diffLines : str -> str -> list Change)
    (headingToAnchor : str -> str) (docPath contentBefore contentAfter : str)
    (options : Options) (n : nat) (pre name post : str) (h : HeadingRename) :
  let line :=
    pre ++ inlineLink name (js "#" ++ headingToAnchor (oldHeader h)) ++ post in
  nth_error (split LF contentAfter) n = Some line ->
  In h (renamedHeadings (diffLines contentBefore contentAfter)) ->
  ~ In "["%char pre -> ~ In "]"%char name ->
  ~ In ")"%char (headingToAnchor (oldHeader h)) ->
  In (anchorEdit headingToAnchor docPath n line name h)
     (handleSaveEvent diffLines headingToAnchor docPath contentBefore
        contentAfter options).
Proof.
  intros line Hn Hh Hpre Hname Hanchor. unfold handleSaveEvent.
  apply (@anchorLoop_intro _ _ _ _ 0 n line); [exact Hn|]. simpl. unfold line.
  rewrite anchorEdits_first_link; auto.
  - apply in_map. apply filter_In. split; [exact Hh|]. apply str_eqb_refl.
  - simpl. intros [E|Hin]; [discriminate|contradiction].
  - discriminate.
Qed.

(** X13, witness: the link of [savedAfter], with text before and after it
    on its line. *)
Lemma anchor_link_rewritten_witness :
  let after := js "# New Title" ++ NL ++ js "see [a](#old-title) and more" in
  let line := js "see [a](#old-title) and more" in
  In (mkEdit (js "a.md") (mkRange (mkPosition 1 0) (mkPosition 1 28))
             (js "[a](#new-title)") None)
     (handleSaveEvent Reference.diffLines Reference.headingToAnchor (js "a.md")
        savedBefore after noOptions).
Proof.
  intros after line.
  apply (@anchor_link_rewritten Reference.diffLines Reference.headingToAnchor
           (js "a.md") savedBefore after noOptions 1 (js "see ") (js "a")
           (js " and more") (mkHeadingRename (js "Old Title") (js "New Title"))).
  - vm_compute. reflexivity.
  - vm_compute. left. reflexivity.
  - cbv. intros H. repeat (destruct H as [H|H]; [discriminate H|]). exact H.
  - cbv. intros H. repeat (destruct H as [H|H]; [discriminate H|]). exact H.
  - cbv. intros H. repeat (destruct H as [H|H]; [discriminate H|]). exact H.
Defined.

(** X14: only the first inline link of a line counts.  A line of the saved
    text whose first inline link, with no bracket before it, does not point
    at the old anchor of a renamed heading gets no edit, even where a link
    to such an anchor follows on the same line. *)
Theorem later_links_ignored (diffLines : str -> str -> list Change)
    (headingToAnchor : str -> str) (docPath contentBefore contentAfter : str)
    (options : Options) (n : nat) (pre name link post : str) (e : Edit) :
  nth_error (split LF contentAfter) n = Some (pre ++ inlineLink name link ++ post) ->
  ~ In "["%char pre -> ~ In "]"%char name -> ~ In ")"%char link -> link <> [] ->
  (forall h, In h (renamedHeadings (diffLines contentBefore contentAfter)) ->
             link <> js "#" ++ headingToAnchor (oldHeader h)) ->
  In e (handleSaveEvent diffLines headingToAnchor docPath contentBefore
          contentAfter options) ->
  pline (start (range e)) <> n.
Proof.
  intros Hn Hpre Hname Hlink Hne Hother Hin En. unfold handleSaveEvent in Hin.
  apply anchorLoop_In in Hin as (n' & line & Hn' & Hin).
  change (0 + n') with n' in Hin.
  pose proof (anchorEdits_inv _ _ _ _ _ _ Hin) as [_ Hr].
  rewrite Hr in En. simpl in En. subst n'.
  assert (line = pre ++ inlineLink name link ++ post) as -> by congruence.
  rewrite anchorEdits_first_link in Hin by assumption.
  apply in_map_iff in Hin as (h & _ & Hf). apply filter_In in Hf as [Hh Hf].
  apply str_eqb_eq in Hf. exact (Hother h Hh Hf).
Qed.

(** X14, witness: on the last line the second link points at the old
    anchor and the first does not; the only edit of the save is on the line
    before it. *)
Lemma later_links_ignored_witness :
  let after :=
    js "# New Title" ++ NL ++ js "[x](#old-title)" ++ NL ++
    js "[a](b.md) and [c](#old-title)" in
  let e := mkEdit (js "a.md") (mkRange (mkPosition 1 0) (mkPosition 1 15))
                  (js "[x](#new-title)") None in
  handleSaveEvent Reference.diffLines Reference.headingToAnchor (js "a.md")
    savedBefore after noOptions = [e] /\
  pline (start (range e)) <> 2.
Proof.
  intros after e. split; [vm_compute; reflexivity|].
  apply (@later_links_ignored Reference.diffLines Reference.headingToAnchor
           (js "a.md") savedBefore after noOptions 2 [] (js "a") (js "b.md")
           (js " and [c](#old-title)") e).
  - vm_compute. reflexivity.
  - intros [].
  - cbv. intros H. repeat (destruct H as [H|H]; [discriminate H|]). exact H.
  - cbv. intros H. repeat (destruct H as [H|H]; [discriminate H|]). exact H.
  - discriminate.
  - intros h Hh. vm_compute in Hh. destruct Hh as [<-|[]]. vm_compute.
    discriminate.
  - vm_compute. left. reflexivity.
Defined.

(* ===================================================================== *)
(** ** Further properties: the heading detector *)
(* ===================================================================== *)

Lemma forallb_repeat (p : ascii -> bool) (c : ascii) (k : nat) :
  p c = true -> forallb p (repeat c k) = true.
Proof. intros Hc. induction k as [|k IH]; simpl; [reflexivity|]. now rewrite Hc. Qed.

Lemma takeWhile_all (p : ascii -> bool) (a : str) :
  forallb p a = true -> takeWhile p a = a.
Proof.
  induction a as [|x a IH]; simpl; [reflexivity|]. intros H.
  apply andb_true_iff in H as [-> H]. now rewrite IH.
Qed.

Lemma takeWhile_line (text rest : str) :
  forallb is_dot text = true -> endsLine rest ->
  takeWhile is_dot (text ++ rest) = text.
Proof.
  intros Ht Hr. destruct rest as [|c rest].
  - rewrite app_nil_r. now apply takeWhile_all.
  - now apply takeWhile_run.
Qed.

(** The prefix [parseHeading] reads off a heading line is its [#]s and the
    space, whatever follows. *)
Lemma parseHeading_prefix (level : nat) (tail : str) :
  parseHeading (headingLine (S level) tail) =
  match takeWhile is_dot tail with
  | [] => None
  | text => Some (repeat "#"%char (S level) ++ [" "%char], text)
  end.
Proof.
  unfold parseHeading, headingLine.
  rewrite takeWhile_run, dropWhile_run
    by (reflexivity || now apply forallb_repeat).
  reflexivity.
Qed.

Lemma renamedHeading_parse (change nextChange : Change) :
  renamedHeading change nextChange =
  if removed change && added nextChange then
    match parseHeading (value change), parseHeading (value nextChange) with
    | Some (oldPrefix, oldText), Some (newPrefix, newText) =>
        if str_eqb oldPrefix newPrefix
        then Some (mkHeadingRename oldText newText)
        else None
    | _, _ => None
    end
  else None.
Proof.
  rewrite renamedHeading_spec. unfold headingPair.
  now rewrite !parseHeading_firstLine.
Qed.

Lemma renamedHeadings_intro (diff pre post : list Change)
    (change nextChange : Change) (h : HeadingRename) :
  diff = pre ++ change :: nextChange :: post ->
  renamedHeading change nextChange = Some h ->
  In h (renamedHeadings diff).
Proof.
  intros -> Hh. induction pre as [|c pre IH].
  - cbn [app renamedHeadings]. rewrite Hh. left. reflexivity.
  - destruct pre as [|c' pre].
    + cbn [app] in *.
      change (renamedHeadings (c :: change :: nextChange :: post))
        with (match renamedHeading c change with
              | Some h' => h' :: renamedHeadings (change :: nextChange :: post)
              | None => renamedHeadings (change :: nextChange :: post)
              end).
      destruct (renamedHeading c change); [right|]; exact IH.
    + change (renamedHeadings ((c :: c' :: pre) ++ change :: nextChange :: post))
        with (match renamedHeading c c' with
              | Some h' =>
                  h' :: renamedHeadings ((c' :: pre) ++ change :: nextChange :: post)
              | None =>
                  renamedHeadings ((c' :: pre) ++ change :: nextChange :: post)
              end).
      destruct (renamedHeading c c'); [right|]; exact IH.
Qed.

(** X15: a heading whose text changed while its level stayed is detected.
    Where the diff holds a run of removed lines that starts with a heading
    line, followed at once by a run of added lines that starts with a
    heading line of the same level, the detector reports the pair of the
    two texts.  A text is not empty and runs to the end of its line. *)
Theorem heading_rename_detected (diff pre post : list Change) (level : nat)
    (oldText newText restOld restNew : str) (isAdded isRemoved : bool) :
  diff = pre ++
         mkChange (headingLine (S level) oldText ++ restOld) isAdded true ::
         mkChange (headingLine (S level) newText ++ restNew) true isRemoved ::
         post ->
  oldText <> [] -> forallb is_dot oldText = true -> endsLine restOld ->
  newText <> [] -> forallb is_dot newText = true -> endsLine restNew ->
  In (mkHeadingRename oldText newText) (renamedHeadings diff).
Proof.
  intros E Ho1 Ho2 Ho3 Hn1 Hn2 Hn3.
  apply (@renamedHeadings_intro _ _ _ _ _ _ E).
  rewrite renamedHeading_parse. cbn [removed added value andb].
  unfold headingLine. rewrite <- !app_assoc. cbn [app].
  fold (headingLine (S level) (oldText ++ restOld)).
  fold (headingLine (S level) (newText ++ restNew)).
  rewrite !parseHeading_prefix, !takeWhile_line by assumption.
  destruct oldText as [|o oldText]; [congruence|].
  destruct newText as [|n newText]; [congruence|].
  now rewrite str_eqb_refl.
Qed.

(** X15, witness: [## Setup] became [## Install]. *)
Lemma heading_rename_detected_witness :
  In (mkHeadingRename (js "Setup") (js "Install"))
     (renamedHeadings
        [mkChange (js "intro" ++ NL) false false;
         mkChange (headingLine 2 (js "Setup") ++ NL) false true;
         mkChange (headingLine 2 (js "Install") ++ NL) true false]).
Proof.
  apply (@heading_rename_detected _ [mkChange (js "intro" ++ NL) false false] []
           1 (js "Setup") (js "Install") NL NL false false);
    try reflexivity; discriminate.
Defined.

(** X16: a heading whose level changed is not reported: for a run that
    starts with a heading line and a next run that starts with a heading
    line of another level, the callback of the detector returns nothing,
    whatever the texts and the kinds of the runs. *)
Theorem heading_level_change_ignored (level1 level2 : nat)
    (tail1 tail2 : str) (added1 removed1 added2 removed2 : bool) :
  level1 <> level2 ->
  renamedHeading (mkChange (headingLine (S level1) tail1) added1 removed1)
                 (mkChange (headingLine (S level2) tail2) added2 removed2)
  = None.
Proof.
  intros Hl. rewrite renamedHeading_parse. cbn [removed added value].
  destruct (removed1 && added2); [|reflexivity].
  rewrite !parseHeading_prefix.
  destruct (takeWhile is_dot tail1) as [|o t1]; [reflexivity|].
  destruct (takeWhile is_dot tail2) as [|n t2]; [reflexivity|].
  destruct (str_eqb _ _) eqn:E; [|reflexivity].
  apply str_eqb_eq in E. apply (f_equal (@length ascii)) in E.
  rewrite !length_app, !repeat_length in E. simpl in E. lia.
Qed.

(** X16, witness: [# Title] became [## Title]. *)
Lemma heading_level_change_ignored_witness :
  renamedHeading (mkChange (headingLine 1 (js "Title")) false true)
                 (mkChange (headingLine 2 (js "Title")) true false)
  = None.
Proof.
  apply (@heading_level_change_ignored 0 1 (js "Title") (js "Title")).
  discriminate.
Defined.

(* ===================================================================== *)
(** ** Further properties: references the scan finds *)
(* ===================================================================== *)

Section LazyFacts.
Variable A : Type.
Variable p : ascii -> bool.
Variable k : str -> nat -> option A.

(** A lazy loop runs to the first stop at which its continuation
    succeeds. *)
Lemma lazy_star_first (t s' : str) (res : A) :
  forallb p t = true ->
  forall i,
    (forall t1 t2, t = t1 ++ t2 -> t2 <> [] ->
                   k (t2 ++ s') (i + length t1) = None) ->
    k s' (i + length t) = Some res ->
    lazy_star p k (t ++ s') i = Some res.
Proof.
  induction t as [|a t IH]; intros Ht i Hnone Hk.
  - simpl in *. rewrite Nat.add_0_r in Hk.
    destruct s'; simpl; now rewrite Hk.
  - cbn [app lazy_star]. pose proof (Hnone [] (a :: t) eq_refl) as H0.
    cbn [app length] in H0. rewrite Nat.add_0_r in H0.
    rewrite H0 by discriminate.
    cbn [forallb] in Ht. apply andb_true_iff in Ht as [-> Ht].
    apply IH; [exact Ht| |].
    + intros t1 t2 E Hne. specialize (Hnone (a :: t1) t2).
      cbn [app length] in Hnone. rewrite Nat.add_succ_r in Hnone.
      apply Hnone; [now rewrite E|exact Hne].
    + cbn [length] in Hk. now rewrite Nat.add_succ_r in Hk.
Qed.
End LazyFacts.

(** The lazy target group takes a whole target that holds neither [#] nor
    the character the closing text starts with. *)
Lemma target_then_closing (cls : ascii -> bool) (closing : regex) (cl : ascii)
    (target0 s' : str) (i : nat) (c0 : caps) (res : result) :
  firstChar closing = Some cl -> cl <> "#"%char ->
  target0 <> [] -> forallb cls target0 = true ->
  ~ In "#"%char target0 -> ~ In cl target0 ->
  rmatch closing finish s' (i + length target0) ((2, (i, target0)) :: c0)
    = Some res ->
  rmatch (RSeq (RGroup 2 (RPlus false cls)) (RSeq (ROpt fragmentGroup) closing))
         finish (target0 ++ s') i c0 = Some res.
Proof.
  intros Hf Hcl Hne Hall Hhash Hclose Hk.
  assert (hd_error s' = Some cl) as Hs'.
  { destruct (hd_error s') as [x|] eqn:E.
    - destruct (ascii_dec x cl) as [->|Hx]; [reflexivity|].
      rewrite (firstChar_needed _ Hf) in Hk; [discriminate|].
      rewrite E. congruence.
    - rewrite (firstChar_needed _ Hf) in Hk; [discriminate|].
      rewrite E. discriminate. }
  cbn [rmatch]. unfold plus.
  destruct target0 as [|a t]; [congruence|]. cbn [app].
  cbn [forallb] in Hall. apply andb_true_iff in Hall as [-> Hall].
  apply lazy_star_first; [exact Hall| |].
  - intros t1 t2 E Hne2.
    assert (exists x rest, t2 = x :: rest /\ x <> "#"%char /\ x <> cl)
      as (x & rest & -> & Hx1 & Hx2).
    { destruct t2 as [|x rest]; [congruence|]. exists x, rest.
      assert (In x (a :: t)) as Hin.
      { rewrite E. right. apply in_or_app. right. left. reflexivity. }
      repeat split; intros ->; auto. }
    change (rmatch fragmentGroup) with (rmatch (RGroup 3 (RSeq (RChar "#") (RPlus true is_fragment_char)))).
    rewrite (@firstChar_needed fragmentGroup "#" eq_refl).
    2:{ simpl. congruence. }
    apply (firstChar_needed _ Hf). simpl. congruence.
  - rewrite (@firstChar_needed fragmentGroup "#" eq_refl).
    2:{ rewrite Hs'. congruence. }
    replace (S i + length t) with (i + length (a :: t)) by (simpl; lia).
    replace (firstn (i + length (a :: t) - i) (a :: t ++ s')) with (a :: t).
    + exact Hk.
    + symmetry. apply (@firstn_span (a :: t) s' i).
Qed.

(** The scan of a text reports first the first match of the pattern: where
    the pattern matches after a text that holds nowhere the character it
    starts with, the first occurrence is the one built from that match. *)
Lemma scan_first_match (regex : regex) (a : ascii) (pre s : str) (flag : bool)
    (e : nat) (c : caps) (prefix target0 : str) :
  linkShaped regex -> firstChar regex = Some a -> ~ In a pre ->
  rmatch regex finish s (length pre) [] = Some (e, c) ->
  capText 1 c = Some prefix -> capText 2 c = Some target0 ->
  exists rest,
    getMatchingLinks regex (Some (pre ++ s)) flag =
    Ok (occurrenceOf (pre ++ s) (length pre + length prefix) target0 flag :: rest).
Proof.
  intros shaped Hf Hpre Hm C1 C2.
  destruct (@linkShaped_match regex _ _ _ _ shaped Hm)
    as (t1 & t2 & t3 & s' & Es & He & _ & _ & Hne).
  assert (getMatchingLinks regex (Some (pre ++ s)) flag =
          matchLoop (S (length (pre ++ s))) regex (pre ++ s) 0 flag) as ->.
  { unfold getMatchingLinks. destruct (pre ++ s) eqn:E; [|reflexivity].
    apply app_eq_nil in E as [_ ->]. destruct t1; [congruence|discriminate]. }
  cbn [matchLoop]. unfold exec. cbn [Nat.ltb Nat.leb skipn].
  rewrite (@search_skip _ _ _ _ Hf Hpre), search_unfold. cbn [Nat.add].
  rewrite Hm. cbn [m_caps m_index m_end]. rewrite C1, C2.
  destruct (@matchLoop_ok regex (pre ++ s) flag shaped (length (pre ++ s)) e)
    as [rest ->].
  { destruct t1; [congruence|]. rewrite Es, He, !length_app. simpl. lia. }
  exists rest. reflexivity.
Qed.

Lemma mdLinkRegexGlobal_unfold :
  mdLinkRegexGlobal =
  RSeq (RGroup 1
          (RSeq (RChar "[")
             (RSeq (RStar true (is_not "]")) (RSeq (RChar "]") (RChar "(")))))
    (RSeq (RGroup 2 (RPlus false (is_not ")")))
       (RSeq (ROpt fragmentGroup) (RChar ")"))).
Proof. reflexivity. Qed.

Lemma wikilinkRegex_unfold :
  wikilinkRegex =
  RSeq (RGroup 1 (RSeq (RChar "[") (RChar "[")))
    (RSeq (RGroup 2 (RPlus false (is_not ")")))
       (RSeq (ROpt fragmentGroup) (RSeq (RChar "]") (RChar "]")))).
Proof. reflexivity. Qed.

Lemma mdLinkRegexGlobal_prefix (K : cont) (label rest : str) (i : nat) :
  forallb (is_not "]") label = true ->
  rmatch (RGroup 1
            (RSeq (RChar "[")
               (RSeq (RStar true (is_not "]")) (RSeq (RChar "]") (RChar "(")))))
         K ("["%char :: label ++ "]"%char :: "("%char :: rest) i []
  = K rest (i + length label + 3) [(1, (i, "["%char :: label ++ js "]("))].
Proof.
  intros Hlabel. cbn [rmatch]. rewrite Ascii.eqb_refl.
  rewrite greedy_star_longest.
  2:{ intros b s' i' Hb. unfold is_not in Hb. rewrite Ascii.eqb_sym.
      now destruct (Ascii.eqb b "]"). }
  rewrite takeWhile_run, dropWhile_run by (assumption || reflexivity).
  rewrite !Ascii.eqb_refl. f_equal; [lia|]. do 3 f_equal.
  replace (S (S (S i + length label)) - i) with (S (length label + 2)) by lia.
  cbn [firstn]. f_equal. rewrite firstn_app_2. reflexivity.
Qed.

(** The scan with the inline pattern finds the first inline link. *)
Lemma inline_scan_first (pre label linkTarget post : str) (flag : bool) :
  let text := pre ++ inlineLink label linkTarget ++ post in
  ~ In "["%char pre -> ~ In "]"%char label ->
  linkTarget <> [] -> ~ In ")"%char linkTarget -> ~ In "#"%char linkTarget ->
  exists rest,
    getMatchingLinks mdLinkRegexGlobal (Some text) flag =
    Ok (occurrenceOf text (length pre + length label + 3) linkTarget flag :: rest).
Proof.
  intros text Hpre Hlabel Hne Hparen Hhash. unfold text.
  apply forallb_is_not in Hlabel. apply forallb_is_not in Hparen.
  assert (exists c,
             rmatch mdLinkRegexGlobal finish (inlineLink label linkTarget ++ post)
               (length pre) [] =
               Some (length pre + length (inlineLink label linkTarget), c) /\
             capText 1 c = Some ("["%char :: label ++ js "](") /\
             capText 2 c = Some linkTarget) as (c & Hm & C1 & C2).
  { rewrite mdLinkRegexGlobal_unfold, inlineLink_app.
    change (rmatch (RSeq ?r1 ?r2) ?k) with (rmatch r1 (rmatch r2 k)).
    rewrite mdLinkRegexGlobal_prefix by assumption.
    eexists. split; [|split].
    - apply (@target_then_closing _ (RChar ")") ")"); auto; try discriminate.
      + now apply forallb_is_not.
      + cbn [rmatch]. rewrite Ascii.eqb_refl. unfold finish. f_equal. f_equal.
        unfold inlineLink. rewrite !length_app. simpl. lia.
    - reflexivity.
    - reflexivity. }
  destruct (@scan_first_match mdLinkRegexGlobal "[" pre _ flag _ _ _ _
              mdLinkRegexGlobal_shaped eq_refl Hpre Hm C1 C2) as [rest Hr].
  exists rest. rewrite Hr.
  replace (length pre + length ("["%char :: label ++ js "]("))
    with (length pre + length label + 3); [reflexivity|].
  cbn [length]. rewrite length_app. simpl. lia.
Qed.

(** X17: [getAllLinks] finds the first inline link of a text, and yields
    it first.  For a text that holds no opening bracket before an inline
    link whose label holds no closing bracket and whose target, not empty,
    holds neither a closing parenthesis nor [#], the first occurrence is
    that link's: its target is the link's target, its position the
    target's offset, and its [replaceFileExtension] is [true]. *)
Theorem first_inline_link_found (pre label linkTarget post : str) :
  let text := pre ++ inlineLink label linkTarget ++ post in
  ~ In "["%char pre -> ~ In "]"%char label ->
  linkTarget <> [] -> ~ In ")"%char linkTarget -> ~ In "#"%char linkTarget ->
  exists rest,
    getAllLinks (Some text) =
    Ok (occurrenceOf text (length pre + length label + 3) linkTarget true :: rest).
Proof.
  intros text Hpre Hlabel Hne Hparen Hhash. unfold getAllLinks.
  destruct (@inline_scan_first pre label linkTarget post true
              Hpre Hlabel Hne Hparen Hhash) as [rest Hr].
  fold text in Hr. rewrite Hr.
  destruct (getMatchingLinks_ok (Some text) true imgRegex_shaped) as [img ->].
  destruct (getMatchingLinks_ok (Some text) false wikilinkRegex_shaped)
    as [wiki ->].
  cbn [bind]. exists (rest ++ img ++ wiki). reflexivity.
Qed.

(** X17, witness: the link of [see [a](b\c.md).]. *)
Lemma first_inline_link_found_witness :
  exists rest,
    getAllLinks (Some (js "see " ++ inlineLink (js "a") (js "b\c.md") ++ js ".")) =
    Ok (mkLink (js "b/c.md") 0 8 true :: rest).
Proof.
  apply (@first_inline_link_found (js "see ") (js "a") (js "b\c.md") (js "."));
    try discriminate;
    cbv; intros H; repeat (destruct H as [H|H]; [discriminate H|]); exact H.
Defined.

Lemma wikilinkRegex_prefix (K : cont) (rest : str) (i : nat) :
  rmatch (RGroup 1 (RSeq (RChar "[") (RChar "["))) K
         ("["%char :: "["%char :: rest) i []
  = K rest (i + 2) [(1, (i, js "[["))].
Proof.
  cbn [rmatch]. rewrite !Ascii.eqb_refl. f_equal; [lia|]. do 3 f_equal.
  replace (S (S i) - i) with 2 by lia. reflexivity.
Qed.

(** X18: [getAllLinks] finds the first double-bracket link of a text.  For
    a text that holds no opening bracket before a double-bracket link whose
    target, not empty, holds no closing bracket, no closing parenthesis and
    no [#], the target is yielded with the offset of its start and with
    [replaceFileExtension = false]. *)
Theorem first_wikilink_found (pre linkTarget post : str) :
  let text := pre ++ wikiLink linkTarget ++ post in
  ~ In "["%char pre -> linkTarget <> [] ->
  ~ In "]"%char linkTarget -> ~ In ")"%char linkTarget ->
  ~ In "#"%char linkTarget ->
  exists l,
    getAllLinks (Some text) = Ok l /\
    In (occurrenceOf text (length pre + 2) linkTarget false) l.
Proof.
  intros text Hpre Hne Hbracket Hparen Hhash.
  assert (exists c,
             rmatch wikilinkRegex finish (wikiLink linkTarget ++ post)
               (length pre) [] =
               Some (length pre + length (wikiLink linkTarget), c) /\
             capText 1 c = Some (js "[[") /\
             capText 2 c = Some linkTarget) as (c & Hm & C1 & C2).
  { rewrite wikilinkRegex_unfold.
    replace (wikiLink linkTarget ++ post)
      with ("["%char :: "["%char :: linkTarget ++ "]"%char :: "]"%char :: post).
    2:{ unfold wikiLink. cbn [js list_ascii_of_string app].
        now rewrite <- app_assoc. }
    change (rmatch (RSeq ?r1 ?r2) ?k) with (rmatch r1 (rmatch r2 k)).
    rewrite wikilinkRegex_prefix.
    eexists. split; [|split].
    - apply (@target_then_closing _ (RSeq (RChar "]") (RChar "]")) "]");
        auto; try discriminate.
      + now apply forallb_is_not.
      + cbn [rmatch]. rewrite !Ascii.eqb_refl. unfold finish. f_equal. f_equal.
        unfold wikiLink. rewrite !length_app. simpl. lia.
    - reflexivity.
    - reflexivity. }
  destruct (@scan_first_match wikilinkRegex "[" pre _ false _ _ _ _
              wikilinkRegex_shaped eq_refl Hpre Hm C1 C2) as [rest Hr].
  fold text in Hr. unfold getAllLinks.
  destruct (getMatchingLinks_ok (Some text) true mdLinkRegexGlobal_shaped)
    as [md ->].
  destruct (getMatchingLinks_ok (Some text) true imgRegex_shaped) as [img ->].
  rewrite Hr. cbn [bind]. eexists. split; [reflexivity|].
  apply in_or_app. right. apply in_or_app. right. left. reflexivity.
Qed.

(** X18, witness: the link of [see [[note]].]. *)
Lemma first_wikilink_found_witness :
  exists l,
    getAllLinks (Some (js "see " ++ wikiLink (js "note") ++ js ".")) = Ok l /\
    In (mkLink (js "note") 0 6 false) l.
Proof.
  apply (@first_wikilink_found (js "see ") (js "note") (js "."));
    try discriminate;
    cbv; intros H; repeat (destruct H as [H|H]; [discriminate H|]); exact H.
Defined.

(* ===================================================================== *)
(** ** Further properties: references a rename rewrites *)
(* ===================================================================== *)

Lemma concatMapM_intro {A B : Type} (f : A -> outcome (list B)) (xs : list A) :
  forall l a la e,
    concatMapM f xs = Ok l -> In a xs -> f a = Ok la -> In e la -> In e l.
Proof.
  induction xs as [|x xs IH]; intros l a la e H Ha Hf He; [destruct Ha|].
  simpl in H. destruct (f x) as [lx| |] eqn:Fx; try discriminate. simpl in H.
  destruct (concatMapM f xs) as [lr| |] eqn:Fr; try discriminate.
  simpl in H. injection H as <-. apply in_or_app. destruct Ha as [->|Ha].
  - left. rewrite Hf in Fx. now injection Fx as <-.
  - right. eapply IH; eauto.
Qed.

Lemma startsWith_app (p r : str) : startsWith p (p ++ r) = true.
Proof.
  induction p as [|x p IH]; simpl; [reflexivity|].
  now rewrite Ascii.eqb_refl, IH.
Qed.

Lemma repairEdit_exact (cwd pathBefore pathAfter : str) (f : File)
    (o : LinkOccurrence) :
  resolvedTarget f o = pathBefore ->
  repairEdit cwd pathBefore pathAfter f o = [exactMoveEdit cwd pathAfter f o].
Proof.
  intros Hr. unfold repairEdit, exactMoveEdit. cbv zeta.
  match goal with
  | |- context [str_eqb ?b pathBefore] => change b with (resolvedTarget f o)
  end.
  now rewrite Hr, str_eqb_refl.
Qed.

Lemma repairEdit_nested (cwd pathBefore pathAfter : str) (f : File)
    (o : LinkOccurrence) (rest : str) :
  resolvedTarget f o = pathBefore ++ js "/" ++ rest ->
  repairEdit cwd pathBefore pathAfter f o
  = [nestedMoveEdit cwd pathAfter f o rest].
Proof.
  intros Hr. unfold repairEdit, nestedMoveEdit. cbv zeta.
  match goal with
  | |- context [str_eqb ?b pathBefore] => change b with (resolvedTarget f o)
  end.
  rewrite Hr.
  assert (str_eqb (pathBefore ++ js "/" ++ rest) pathBefore = false) as ->.
  { apply str_eqb_neq. intros E. apply (f_equal (@length ascii)) in E.
    rewrite !length_app in E. simpl in E. lia. }
  change (pathBefore ++ js "/" ++ rest) with (pathBefore ++ Posix.sep ++ rest).
  rewrite app_assoc, startsWith_app. unfold substring_from.
  replace (length pathBefore + 1) with (length (pathBefore ++ Posix.sep))
    by (rewrite length_app; reflexivity).
  now rewrite skipn_length_app.
Qed.

Section RewriteFacts.
Variable cwd : str.
Variable minimatch : str -> str -> bool.

Lemma repair_phase_intro (payloadBefore payloadAfter : str)
    (markdownFiles : FileList) (options : Options) (f : File)
    (links : list LinkOccurrence) (o : LinkOccurrence) (e : Edit) :
  let pathBefore := Posix.normalize (windowsToPosix payloadBefore) in
  let pathAfter := Posix.normalize (windowsToPosix payloadAfter) in
  shouldIncludePath cwd minimatch options pathBefore = true ->
  In f (trackedFiles cwd minimatch markdownFiles options) ->
  getAllLinks (Some (content f)) = Ok links -> In o links ->
  In e (repairEdit cwd pathBefore pathAfter f o) ->
  exists edits,
    handleRenameEvent cwd minimatch payloadBefore payloadAfter markdownFiles
      options = Ok edits /\ In e edits.
Proof.
  intros pathBefore pathAfter Hs Hf Hl Ho He. unfold handleRenameEvent.
  fold pathBefore pathAfter. rewrite Hs. cbn [negb].
  destruct (rebaseEdits_ok cwd pathBefore pathAfter
              (option_map content
                 (find (fun file => str_eqb (Posix.normalize (fpath file)) pathAfter)
                       (trackedFiles cwd minimatch markdownFiles options))))
    as [moved ->].
  destruct (repairEdits_ok cwd pathBefore pathAfter
              (trackedFiles cwd minimatch markdownFiles options))
    as [others Hothers].
  rewrite Hothers. cbn [bind]. exists (moved ++ others).
  split; [reflexivity|]. apply in_or_app. right.
  unfold repairEdits in Hothers.
  apply (@concatMapM_intro _ _ _ _ _ f
           (flat_map (repairEdit cwd pathBefore pathAfter f) links) e Hothers Hf).
  - unfold repairFile. now rewrite Hl.
  - apply in_flat_map. eauto.
Qed.

(** X20: every reference into a moved folder is rewritten.  Where the old
    path passes the glob filter, each reference of a tracked document that
    resolves to a path under [pathBefore] yields an edit of that document
    over the reference's target, whose new text is the way to the same
    place under [pathAfter], and which requires that place to exist. *)
Theorem nested_reference_rewritten (payloadBefore payloadAfter : str)
    (markdownFiles : FileList) (options : Options) (f : File)
    (links : list LinkOccurrence) (o : LinkOccurrence) (rest : str) :
  let pathBefore := Posix.normalize (windowsToPosix payloadBefore) in
  let pathAfter := Posix.normalize (windowsToPosix payloadAfter) in
  shouldIncludePath cwd minimatch options pathBefore = true ->
  In f (trackedFiles cwd minimatch markdownFiles options) ->
  getAllLinks (Some (content f)) = Ok links -> In o links ->
  resolvedTarget f o = pathBefore ++ js "/" ++ rest ->
  exists edits,
    handleRenameEvent cwd minimatch payloadBefore payloadAfter markdownFiles
      options = Ok edits /\
    In (nestedMoveEdit cwd pathAfter f o rest) edits.
Proof.
  intros pathBefore pathAfter Hs Hf Hl Ho Hr.
  apply (@repair_phase_intro payloadBefore payloadAfter markdownFiles options
           f links o _ Hs Hf Hl Ho).
  fold pathBefore pathAfter. rewrite (@repairEdit_nested cwd pathBefore pathAfter f o rest Hr).
  left. reflexivity.
Qed.

End RewriteFacts.

(** X20, witness: the folder [docs] became [manual], and [index.md] refers
    to [docs/guide.md]. *)
Lemma nested_reference_rewritten_witness :
  exists edits,
    handleRenameEvent Reference.cwd Reference.minimatch (js "docs")
      (js "manual") folderFiles noOptions = Ok edits /\
    In folderEdit edits.
Proof.
  apply (@nested_reference_rewritten Reference.cwd Reference.minimatch
           (js "docs") (js "manual") folderFiles noOptions
           (mkFile (js "index.md") (js "[g](docs/guide.md)"))
           [mkLink (js "docs/guide.md") 0 4 true]
           (mkLink (js "docs/guide.md") 0 4 true) (js "guide.md")).
  - vm_compute. reflexivity.
  - vm_compute. left. reflexivity.
  - vm_compute. reflexivity.
  - left. reflexivity.
  - vm_compute. reflexivity.
Defined.

(** X21: the references of the moved document are rebased.  Where the old
    path passes the glob filter and [f] is the first tracked document whose
    normalized path is [pathAfter], each reference of [f] whose normalized
    target differs from its rebased form yields an edit on [pathAfter] over
    the reference's target; the new text is the rebased form, and the path
    the reference resolved to from the old directory is required to
    exist. *)
Theorem moved_document_rebased (cwd : str) (minimatch : str -> str -> bool)
    (payloadBefore payloadAfter : str) (markdownFiles : FileList)
    (options : Options) (f : File) (links : list LinkOccurrence)
    (o : LinkOccurrence) :
  let pathBefore := Posix.normalize (windowsToPosix payloadBefore) in
  let pathAfter := Posix.normalize (windowsToPosix payloadAfter) in
  shouldIncludePath cwd minimatch options pathBefore = true ->
  find (fun file => str_eqb (Posix.normalize (fpath file)) pathAfter)
       (trackedFiles cwd minimatch markdownFiles options) = Some f ->
  getAllLinks (Some (content f)) = Ok links -> In o links ->
  Posix.normalize (target o) <> rebasedTarget cwd pathBefore pathAfter o ->
  exists edits,
    handleRenameEvent cwd minimatch payloadBefore payloadAfter markdownFiles
      options = Ok edits /\
    In (mkEdit pathAfter (targetRange o)
               (rebasedTarget cwd pathBefore pathAfter o)
               (Some (Posix.join (Posix.dirname pathBefore) (target o))))
       edits.
Proof.
  intros pathBefore pathAfter Hs Hfind Hl Ho Hne. unfold handleRenameEvent.
  fold pathBefore pathAfter. rewrite Hs, Hfind. cbn [negb option_map].
  unfold rebaseEdits. rewrite Hl. cbn [bind].
  destruct (repairEdits_ok cwd pathBefore pathAfter
              (trackedFiles cwd minimatch markdownFiles options))
    as [others ->].
  cbn [bind]. eexists. split; [reflexivity|]. apply in_or_app. left.
  apply in_flat_map. exists o. split; [exact Ho|].
  unfold rebaseEdit. cbv zeta. fold (rebasedTarget cwd pathBefore pathAfter o).
  apply str_eqb_neq in Hne. rewrite Hne. left. reflexivity.
Qed.

(** X21, witness: [/ws/a/doc.md] moved to [/ws/b/c/doc.md]; its reference
    [img.md] becomes [../../a/img.md]. *)
Lemma moved_document_rebased_witness :
  exists edits,
    handleRenameEvent Reference.cwd Reference.minimatch (js "/ws/a/doc.md")
      (js "/ws/b/c/doc.md") deepFiles noOptions = Ok edits /\
    In rebasedEdit edits.
Proof.
  apply (@moved_document_rebased Reference.cwd Reference.minimatch
           (js "/ws/a/doc.md") (js "/ws/b/c/doc.md") deepFiles noOptions
           (mkFile (js "/ws/b/c/doc.md") rebasedContent)
           [mkLink (js "img.md") 0 4 true] (mkLink (js "img.md") 0 4 true)).
  - vm_compute. reflexivity.
  - vm_compute. reflexivity.
  - vm_compute. reflexivity.
  - left. reflexivity.
  - vm_compute. discriminate.
Defined.

(** X22: the first loop needs the moved document's text.  Where no tracked
    document has [pathAfter] as its normalized path, or the first that has
    it is empty, the edits of a rename are those of the second loop
    alone. *)
Theorem rename_without_moved_text (cwd : str) (minimatch : str -> str -> bool)
    (payloadBefore payloadAfter : str) (markdownFiles : FileList)
    (options : Options) :
  let pathBefore := Posix.normalize (windowsToPosix payloadBefore) in
  let pathAfter := Posix.normalize (windowsToPosix payloadAfter) in
  let tracked := trackedFiles cwd minimatch markdownFiles options in
  shouldIncludePath cwd minimatch options pathBefore = true ->
  (forall f,
      find (fun file => str_eqb (Posix.normalize (fpath file)) pathAfter) tracked
        = Some f ->
      content f = []) ->
  handleRenameEvent cwd minimatch payloadBefore payloadAfter markdownFiles
    options = repairEdits cwd pathBefore pathAfter tracked.
Proof.
  intros pathBefore pathAfter tracked Hs Hempty. unfold handleRenameEvent.
  fold pathBefore pathAfter tracked. rewrite Hs. cbn [negb].
  assert (rebaseEdits cwd pathBefore pathAfter
            (option_map content
               (find (fun file => str_eqb (Posix.normalize (fpath file)) pathAfter)
                     tracked)) = Ok []) as ->.
  { destruct (find _ tracked) as [f|] eqn:F; [|reflexivity].
    cbn [option_map]. now rewrite (Hempty f eq_refl). }
  cbn [bind]. destruct (repairEdits cwd pathBefore pathAfter tracked);
    reflexivity.
Qed.

(** X22, witness: the set holds [c.md] only, not the moved document. *)
Lemma rename_without_moved_text_witness :
  handleRenameEvent Reference.cwd Reference.minimatch (js "folder/a.md")
    (js "folder/b.md") linkingFiles noOptions
  = repairEdits Reference.cwd
      (Posix.normalize (windowsToPosix (js "folder/a.md")))
      (Posix.normalize (windowsToPosix (js "folder/b.md")))
      (trackedFiles Reference.cwd Reference.minimatch linkingFiles noOptions).
Proof.
  apply (@rename_without_moved_text Reference.cwd Reference.minimatch
           (js "folder/a.md") (js "folder/b.md") linkingFiles noOptions).
  - vm_compute. reflexivity.
  - intros f Hf. vm_compute in Hf. discriminate Hf.
Defined.

(* ===================================================================== *)
(** ** C9: the engine returns where its collaborators return *)
(* ===================================================================== *)

(** C9, counterexample: a rename with an [exclude] pattern of 65537
    characters.  The document set is empty, so the first call of the matcher
    is the one for [pathBefore]; the matcher raises on the pattern, nothing
    catches the exception, and the engine raises. *)
Lemma pureGetEdits_returns_counterexample : ~ returns_as_stated.
Proof.
  intros H.
  destruct (H (RenameEvent (js "a.md") (js "b.md")) []
              (mkOptions (Some [longPattern]) None None)) as [edits E].
  vm_compute in E. discriminate E.
Qed.

Lemma resolve_absolute (c c' p : str) :
  Posix.isAbsolute p = true -> Posix.resolve c p = Posix.resolve c' p.
Proof.
  intros H. unfold Posix.resolve. destruct p as [|x p]; [discriminate|].
  now rewrite H.
Qed.

Lemma relative_absolute (c c' from to : str) :
  Posix.isAbsolute from = true -> Posix.isAbsolute to = true ->
  Posix.relative c from to = Posix.relative c' from to.
Proof.
  intros Hf Ht. unfold Posix.relative.
  now rewrite (resolve_absolute c c' _ Hf), (resolve_absolute c c' _ Ht).
Qed.

Module RaisingFacts.

Lemma relative_returns (c from to : str) :
  Raising.relative (Ok c) from to = Ok (Posix.relative c from to).
Proof.
  unfold Raising.relative. destruct (str_eqb from to) eqn:E.
  - unfold Posix.relative. now rewrite E.
  - destruct (Posix.isAbsolute from) eqn:Hf; [|reflexivity].
    destruct (Posix.isAbsolute to) eqn:Ht; [|reflexivity].
    simpl. f_equal. now apply relative_absolute.
Qed.

Lemma some_returns (f : str -> outcome bool) (l : list str) :
  (forall x, In x l -> exists b, f x = Ok b) ->
  exists b, Raising.some f l = Ok b.
Proof.
  induction l as [|x l IH]; intros H; simpl; [eauto|].
  destruct (H x (or_introl eq_refl)) as [b ->]. simpl.
  destruct b; [eauto|]. apply IH. intros y Hy. apply H. now right.
Qed.

Lemma filter_returns {A : Type} (f : A -> outcome bool) (l : list A) :
  (forall x, exists b, f x = Ok b) ->
  exists r, Raising.filter f l = Ok r /\ forall x, In x r -> In x l.
Proof.
  intros H. induction l as [|x l (r & IH & Hr)]; simpl.
  - exists []. auto.
  - destruct (H x) as [b ->]. rewrite IH. simpl.
    destruct b; eexists; (split; [reflexivity|]); simpl; intuition.
Qed.

Lemma concatMapM_lift {A B : Type} (g : A -> list B) (l : list A) :
  concatMapM (fun a => Ok (g a)) l = Ok (flat_map g l).
Proof. induction l as [|a l IH]; simpl; [reflexivity|]. now rewrite IH. Qed.

Lemma concatMapM_ext {A B : Type} (f g : A -> outcome (list B)) (l : list A) :
  (forall a, f a = g a) -> concatMapM f l = concatMapM g l.
Proof.
  intros H. induction l as [|a l IH]; simpl; [reflexivity|].
  now rewrite H, IH.
Qed.

Section WithCwd.
Variable c : str.
Variable minimatch : str -> str -> outcome bool.
Variable diffLines : str -> str -> outcome (list Change).
Variable headingToAnchor : str -> outcome str.

Lemma rebaseEdit_returns (pathBefore pathAfter : str) (o : LinkOccurrence) :
  Raising.rebaseEdit (Ok c) pathBefore pathAfter o
  = Ok (rebaseEdit c pathBefore pathAfter o).
Proof.
  unfold Raising.rebaseEdit, rebaseEdit. rewrite relative_returns. cbn [bind].
  destruct (str_eqb _ _); reflexivity.
Qed.

Lemma repairEdit_returns (pathBefore pathAfter : str) (f : File)
    (o : LinkOccurrence) :
  Raising.repairEdit (Ok c) pathBefore pathAfter f o
  = Ok (repairEdit c pathBefore pathAfter f o).
Proof.
  unfold Raising.repairEdit, repairEdit. cbv zeta.
  destruct (str_eqb _ pathBefore).
  - now rewrite relative_returns.
  - destruct (startsWith _ _); [|reflexivity]. now rewrite relative_returns.
Qed.

Lemma rebaseEdits_returns (pathBefore pathAfter : str)
    (fileContent : option str) :
  Raising.rebaseEdits (Ok c) pathBefore pathAfter fileContent
  = rebaseEdits c pathBefore pathAfter fileContent.
Proof.
  unfold Raising.rebaseEdits, rebaseEdits.
  destruct (getAllLinks fileContent) as [links| |]; try reflexivity.
  cbn [bind].
  rewrite (concatMapM_ext _ (fun o => Ok (rebaseEdit c pathBefore pathAfter o)))
    by (intros; apply rebaseEdit_returns).
  apply concatMapM_lift.
Qed.

Lemma repairEdits_returns (pathBefore pathAfter : str) (files : FileList) :
  Raising.repairEdits (Ok c) pathBefore pathAfter files
  = repairEdits c pathBefore pathAfter files.
Proof.
  unfold Raising.repairEdits, repairEdits. apply concatMapM_ext. intros f.
  unfold Raising.repairFile, repairFile.
  destruct (getAllLinks (Some (content f))) as [links| |]; try reflexivity.
  cbn [bind].
  rewrite (concatMapM_ext _ (fun o => Ok (repairEdit c pathBefore pathAfter f o)))
    by (intros; apply repairEdit_returns).
  apply concatMapM_lift.
Qed.

Lemma shouldIncludePath_returns (options : Options) (filePath : str) :
  (forall path pattern,
      In pattern (orEmpty (include options) ++ orEmpty (exclude options)) ->
      exists b, minimatch path pattern = Ok b) ->
  exists b, Raising.shouldIncludePath (Ok c) minimatch options filePath = Ok b.
Proof.
  intros H. unfold Raising.shouldIncludePath. rewrite relative_returns.
  cbn [bind].
  destruct (@some_returns
              (fun pattern => minimatch (Posix.relative c
                 (match workspacePath options with Some w => w | None => [] end)
                 filePath) pattern)
              (orEmpty (include options))) as [bi ->].
  { intros x Hx. apply H. apply in_or_app. now left. }
  cbn [bind]. destruct bi; [eauto|].
  destruct (0 <? length (orEmpty (include options))); [eauto|].
  destruct (@some_returns
              (fun pattern => minimatch (Posix.relative c
                 (match workspacePath options with Some w => w | None => [] end)
                 filePath) pattern)
              (orEmpty (exclude options))) as [be ->].
  { intros x Hx. apply H. apply in_or_app. now right. }
  cbn [bind]. eauto.
Qed.

Lemma handleRenameEvent_returns (payloadBefore payloadAfter : str)
    (markdownFiles : FileList) (options : Options) :
  (forall path pattern,
      In pattern (orEmpty (include options) ++ orEmpty (exclude options)) ->
      exists b, minimatch path pattern = Ok b) ->
  exists edits,
    Raising.handleRenameEvent (Ok c) minimatch payloadBefore payloadAfter
      markdownFiles options = Ok edits.
Proof.
  intros H. unfold Raising.handleRenameEvent, Raising.trackedFiles.
  destruct (@filter_returns _
              (fun f => Raising.shouldIncludePath (Ok c) minimatch options (fpath f))
              (map (fun file => mkFile (windowsToPosix (fpath file)) (content file))
                   markdownFiles))
    as (tracked & -> & _).
  { intros f. now apply shouldIncludePath_returns. }
  cbn [bind].
  destruct (shouldIncludePath_returns options
              (Posix.normalize (windowsToPosix payloadBefore)) H) as [b ->].
  cbn [bind]. destruct b; cbn [negb]; [|eauto].
  rewrite rebaseEdits_returns, repairEdits_returns.
  destruct (rebaseEdits_ok c (Posix.normalize (windowsToPosix payloadBefore))
              (Posix.normalize (windowsToPosix payloadAfter))
              (option_map content
                 (find (fun file =>
                          str_eqb (Posix.normalize (fpath file))
                                  (Posix.normalize (windowsToPosix payloadAfter)))
                       tracked))) as [moved ->].
  destruct (repairEdits_ok c (Posix.normalize (windowsToPosix payloadBefore))
              (Posix.normalize (windowsToPosix payloadAfter)) tracked)
    as [others ->].
  cbn [bind]. eauto.
Qed.

Lemma anchorEdits_returns (docPath : str) (renamed : list HeadingRename)
    (lineNumber : nat) (line : str) :
  (forall heading, exists anchor, headingToAnchor heading = Ok anchor) ->
  exists edits,
    Raising.anchorEdits headingToAnchor docPath renamed lineNumber line
    = Ok edits.
Proof.
  intros H. unfold Raising.anchorEdits.
  destruct (match_ mdLinkRegex line) as [m|]; [|eauto].
  destruct (Nat.eqb (m_end m) (m_index m)); [eauto|].
  destruct (capText 2 (m_caps m)) as [link|]; [|eauto].
  apply concatMapM_ok. intros h. unfold Raising.anchorEdit.
  destruct (H (oldHeader h)) as [old ->]. destruct (H (newHeader h)) as [new ->].
  cbn [bind]. destruct (str_eqb _ _); eauto.
Qed.

Lemma anchorLoop_returns (docPath : str) (renamed : list HeadingRename)
    (lines : list str) :
  (forall heading, exists anchor, headingToAnchor heading = Ok anchor) ->
  forall lineNumber,
    exists edits,
      Raising.anchorLoop headingToAnchor docPath renamed lineNumber lines
      = Ok edits.
Proof.
  intros H. induction lines as [|line lines IH]; intros lineNumber; simpl;
    [eauto|].
  destruct (anchorEdits_returns docPath renamed lineNumber line H) as [e ->].
  destruct (IH (S lineNumber)) as [r ->]. cbn [bind]. eauto.
Qed.

End WithCwd.
End RaisingFacts.

(** C9, amended: the engine has no exception and no endless loop of its
    own.  Whatever the event, the document set and the options, it returns a
    list of edits provided the functions it calls from outside return: the
    working directory, the matcher on the patterns of [include] and
    [exclude], the line differ and the slugger. *)
Theorem pureGetEdits_returns_when_callees_return (cwd : outcome str)
    (minimatch : str -> str -> outcome bool)
    (diffLines : str -> str -> outcome (list Change))
    (headingToAnchor : str -> outcome str)
    (event : ChangeEvent) (markdownFiles : FileList) (options : Options) :
  (exists c, cwd = Ok c) ->
  (forall path pattern,
      In pattern (orEmpty (include options) ++ orEmpty (exclude options)) ->
      exists b, minimatch path pattern = Ok b) ->
  (forall oldStr newStr, exists diff, diffLines oldStr newStr = Ok diff) ->
  (forall heading, exists anchor, headingToAnchor heading = Ok anchor) ->
  exists edits,
    Raising.pureGetEdits cwd minimatch diffLines headingToAnchor event
      markdownFiles options = Ok edits.
Proof.
  intros [c ->] Hm Hd Hh. destruct event as [pathBefore pathAfter|docPath cb ca].
  - now apply RaisingFacts.handleRenameEvent_returns.
  - cbn [Raising.pureGetEdits]. unfold Raising.handleSaveEvent.
    destruct (Hd cb ca) as [diff ->]. cbn [bind].
    now apply RaisingFacts.anchorLoop_returns.
Qed.

(** C9, witness: a rename under an [exclude] pattern the matcher accepts. *)
Lemma pureGetEdits_returns_witness :
  exists edits,
    Reference.getEditsChecked (RenameEvent (js "folder/a.md") (js "folder/b.md"))
      linkingFiles (mkOptions (Some [js "docs/**"]) None None) = Ok edits.
Proof.
  apply pureGetEdits_returns_when_callees_return.
  - exists Reference.cwd. reflexivity.
  - intros path pattern [<-|[]]. unfold Reference.minimatchChecked.
    replace (Reference.maxPatternLength <? length (js "docs/**")) with false
      by (vm_compute; reflexivity).
    eauto.
  - eauto.
  - eauto.
Defined.

(** Where every collaborator returns, the engine with raising
    collaborators computes what the engine with total ones computes: what
    is proved of the latter holds of the former whenever nothing raises. *)
Section Refinement.
Variable c : str.
Variable minimatch : str -> str -> bool.
Variable diffLines : str -> str -> list Change.
Variable headingToAnchor : str -> str.

Lemma some_total (g : str -> bool) (l : list str) :
  Raising.some (fun x => Ok (g x)) l = Ok (existsb g l).
Proof.
  induction l as [|x l IH]; simpl; [reflexivity|].
  destruct (g x); [reflexivity|exact IH].
Qed.

Lemma filter_total {A : Type} (g : A -> bool) (l : list A) :
  Raising.filter (fun x => Ok (g x)) l = Ok (filter g l).
Proof.
  induction l as [|x l IH]; simpl; [reflexivity|]. rewrite IH. simpl.
  destruct (g x); reflexivity.
Qed.

Lemma shouldIncludePath_total (options : Options) (filePath : str) :
  Raising.shouldIncludePath (Ok c) (fun p q => Ok (minimatch p q)) options filePath
  = Ok (shouldIncludePath c minimatch options filePath).
Proof.
  unfold Raising.shouldIncludePath, shouldIncludePath. cbv zeta.
  rewrite RaisingFacts.relative_returns. cbn [bind]. rewrite some_total.
  cbn [bind]. destruct (existsb _ (orEmpty (include options))); [reflexivity|].
  destruct (0 <? length (orEmpty (include options))); [reflexivity|].
  now rewrite some_total.
Qed.

Lemma anchorLoop_total (docPath : str) (renamed : list HeadingRename)
    (lines : list str) :
  forall lineNumber,
    Raising.anchorLoop (fun h => Ok (headingToAnchor h)) docPath renamed
      lineNumber lines
    = Ok (anchorLoop headingToAnchor docPath renamed lineNumber lines).
Proof.
  induction lines as [|line lines IH]; intros lineNumber; simpl; [reflexivity|].
  rewrite IH.
  assert (Raising.anchorEdits (fun h => Ok (headingToAnchor h)) docPath renamed
            lineNumber line
          = Ok (anchorEdits headingToAnchor docPath renamed lineNumber line))
    as ->; [|reflexivity].
  unfold Raising.anchorEdits, anchorEdits.
  destruct (match_ mdLinkRegex line) as [m|]; [|reflexivity].
  destruct (Nat.eqb (m_end m) (m_index m)); [reflexivity|].
  destruct (capText 2 (m_caps m)) as [link|]; [|reflexivity].
  rewrite <- RaisingFacts.concatMapM_lift. apply RaisingFacts.concatMapM_ext.
  intros h. unfold Raising.anchorEdit. cbn [bind].
  destruct (str_eqb _ _); reflexivity.
Qed.

Lemma pureGetEdits_total (event : ChangeEvent) (markdownFiles : FileList)
    (options : Options) :
  Raising.pureGetEdits (Ok c) (fun p q => Ok (minimatch p q))
    (fun oldStr newStr => Ok (diffLines oldStr newStr))
    (fun heading => Ok (headingToAnchor heading)) event markdownFiles options
  = pureGetEdits c minimatch diffLines headingToAnchor event markdownFiles
      options.
Proof.
  destruct event as [pathBefore pathAfter|docPath cb ca]; simpl.
  - unfold Raising.handleRenameEvent, handleRenameEvent,
      Raising.trackedFiles, trackedFiles.
    assert (Raising.filter
              (fun f => Raising.shouldIncludePath (Ok c)
                          (fun p q => Ok (minimatch p q)) options (fpath f))
              (map (fun file => mkFile (windowsToPosix (fpath file)) (content file))
                   markdownFiles)
            = Ok (filter (fun f => shouldIncludePath c minimatch options (fpath f))
                    (map (fun file =>
                            mkFile (windowsToPosix (fpath file)) (content file))
                         markdownFiles))) as ->.
    { rewrite <- filter_total. generalize (map (fun file =>
                            mkFile (windowsToPosix (fpath file)) (content file))
                         markdownFiles).
      intros l. induction l as [|x l IH]; simpl; [reflexivity|].
      now rewrite shouldIncludePath_total, IH. }
    cbn [bind]. rewrite shouldIncludePath_total. cbn [bind].
    destruct (shouldIncludePath c minimatch options _); cbn [negb];
      [|reflexivity].
    now rewrite RaisingFacts.rebaseEdits_returns,
      RaisingFacts.repairEdits_returns.
  - unfold Raising.handleSaveEvent, handleSaveEvent. cbn [bind].
    now rewrite anchorLoop_total.
Qed.

End Refinement.

(* ===================================================================== *)
(** ** C6: the second loop and the moved document *)
(* ===================================================================== *)

Lemma repairEdit_cases (cwd pathBefore pathAfter : str) (f : File)
    (o : LinkOccurrence) (e : Edit) :
  In e (repairEdit cwd pathBefore pathAfter f o) ->
  (resolvedTarget f o = pathBefore /\ e = exactMoveEdit cwd pathAfter f o) \/
  (exists rest,
      resolvedTarget f o = pathBefore ++ js "/" ++ rest /\
      e = nestedMoveEdit cwd pathAfter f o rest).
Proof.
  intros He. destruct (str_eqb (resolvedTarget f o) pathBefore) eqn:E.
  - apply str_eqb_eq in E. left. split; [exact E|].
    rewrite (@repairEdit_exact cwd pathBefore pathAfter f o E) in He.
    destruct He as [<-|[]]. reflexivity.
  - apply str_eqb_neq in E.
    destruct (startsWith (pathBefore ++ Posix.sep) (resolvedTarget f o)) eqn:S.
    + right. apply startsWith_inv in S. rewrite <- app_assoc in S.
      exists (skipn (length (pathBefore ++ Posix.sep)) (resolvedTarget f o)).
      split; [exact S|].
      rewrite (@repairEdit_nested cwd pathBefore pathAfter f o _ S) in He.
      destruct He as [<-|[]]. reflexivity.
    + assert (repairEdit cwd pathBefore pathAfter f o = []) as Hnil
        by (apply repairEdit_nil; auto).
      rewrite Hnil in He. destruct He.
Qed.

(** C6, amended: the second loop runs over every document that passes the
    glob filter, the moved document included, and rewrites in each the
    references that resolve to [pathBefore] or under it, and no other.  An
    edit is among its edits exactly when it is the edit for a reference of
    such a document whose resolved target is [pathBefore], or the edit for
    one whose resolved target is [pathBefore/rest].  The resolved target is
    the target joined to the document's own directory and normalized, with
    [.md] appended for a double-bracket reference whose resolved path holds
    no [.md]; the edit carries the document's path and covers the
    reference's target.  Whether the document is the moved one plays no
    part. *)
Theorem repair_edit_origin (cwd : str) (minimatch : str -> str -> bool)
    (payloadBefore payloadAfter : str) (markdownFiles : FileList)
    (options : Options) (others : list Edit) (e : Edit) :
  let pathBefore := Posix.normalize (windowsToPosix payloadBefore) in
  let pathAfter := Posix.normalize (windowsToPosix payloadAfter) in
  repairEdits cwd pathBefore pathAfter
    (trackedFiles cwd minimatch markdownFiles options) = Ok others ->
  (In e others <->
   exists file links o,
     In file markdownFiles /\
     shouldIncludePath cwd minimatch options (windowsToPosix (fpath file)) = true /\
     getAllLinks (Some (content file)) = Ok links /\ In o links /\
     path e = windowsToPosix (fpath file) /\
     range e = targetRange o /\
     ((resolvedTarget (posixFile file) o = pathBefore /\
       e = exactMoveEdit cwd pathAfter (posixFile file) o) \/
      (exists rest,
          resolvedTarget (posixFile file) o = pathBefore ++ js "/" ++ rest /\
          e = nestedMoveEdit cwd pathAfter (posixFile file) o rest))).
Proof.
  intros pathBefore pathAfter H. split.
  - intros Hin.
    destruct (@repairEdits_In cwd _ _ _ _ _ H Hin)
      as (f & links & o & Hf & Hl & Hol & He).
    apply trackedFiles_In in Hf as (Hs & file & Hfile & ->).
    pose proof (repairEdit_inv _ _ _ _ _ _ He) as [Hp Hr].
    exists file, links, o. simpl in Hs, Hl, Hp.
    split; [exact Hfile|]. split; [exact Hs|]. split; [exact Hl|].
    split; [exact Hol|]. split; [exact Hp|]. split; [exact Hr|].
    exact (repairEdit_cases _ _ _ _ _ _ He).
  - intros (file & links & o & Hfile & Hs & Hl & Hol & _ & _ & Hcase).
    unfold repairEdits in H.
    apply (@concatMapM_intro _ _ _ _ _ (posixFile file)
             (flat_map (repairEdit cwd pathBefore pathAfter (posixFile file)) links)
             e H).
    + unfold trackedFiles. apply filter_In. split; [|exact Hs].
      apply in_map_iff. exists file. auto.
    + unfold repairFile. cbn [posixFile content]. now rewrite Hl.
    + apply in_flat_map. exists o. split; [exact Hol|].
      destruct Hcase as [[Hr ->]|(rest & Hr & ->)].
      * rewrite (@repairEdit_exact cwd pathBefore pathAfter _ o Hr).
        left. reflexivity.
      * rewrite (@repairEdit_nested cwd pathBefore pathAfter _ o rest Hr).
        left. reflexivity.
Qed.

(** C6, witness: the moved document of the counterexample, [b/doc.md],
    holds a reference that resolves to the old path [a/doc.md]; it is
    rewritten by the second loop. *)
Lemma repair_edit_origin_witness :
  repairEdits Reference.cwd (js "a/doc.md") (js "b/doc.md")
    (trackedFiles Reference.cwd Reference.minimatch movedFiles noOptions)
    = Ok [movedEdit] /\
  (In movedEdit [movedEdit] <->
   exists file links o,
     In file movedFiles /\
     shouldIncludePath Reference.cwd Reference.minimatch noOptions
       (windowsToPosix (fpath file)) = true /\
     getAllLinks (Some (content file)) = Ok links /\ In o links /\
     path movedEdit = windowsToPosix (fpath file) /\
     range movedEdit = targetRange o /\
     ((resolvedTarget (posixFile file) o = js "a/doc.md" /\
       movedEdit = exactMoveEdit Reference.cwd (js "b/doc.md") (posixFile file) o) \/
      (exists rest,
          resolvedTarget (posixFile file) o = js "a/doc.md" ++ js "/" ++ rest /\
          movedEdit
          = nestedMoveEdit Reference.cwd (js "b/doc.md") (posixFile file) o rest))).
Proof.
  split; [vm_compute; reflexivity|].
  apply (@repair_edit_origin Reference.cwd Reference.minimatch
           (js "a/doc.md") (js "b/doc.md") movedFiles noOptions
           [movedEdit] movedEdit).
  vm_compute. reflexivity.
Defined.

(* ===================================================================== *)
(** ** Further properties: which references count as references to the
       moved document *)
(* ===================================================================== *)

Lemma startsWith_app_cancel (p a b : str) :
  startsWith (p ++ a) (p ++ b) = startsWith a b.
Proof.
  induction p as [|x p IH]; simpl; [reflexivity|].
  now rewrite Ascii.eqb_refl, IH.
Qed.

Lemma startsWith_longer (p s : str) :
  length s < length p -> startsWith p s = false.
Proof.
  revert s; induction p as [|x p IH]; intros s H; [simpl in H; lia|].
  destruct s as [|y s]; [reflexivity|]. simpl in *.
  rewrite IH by lia. apply andb_false_r.
Qed.

Lemma resolvedTarget_linkedPath (f : File) (o : LinkOccurrence) :
  resolvedTarget f o =
  if negb (replaceFileExtension o) then
    if negb (includes (js ".md") (linkedPath f o))
    then linkedPath f o ++ js ".md"
    else linkedPath f o
  else linkedPath f o.
Proof. reflexivity. Qed.

(** X19: which references are rewritten as references to the moved
    document.  Where the old path passes the glob filter, a reference of a
    tracked document yields the edit to [pathAfter] (over its target, with
    no path required) in three cases: it is an inline or media reference
    and the path it names, its target joined to the document's directory
    and normalized, is [pathBefore]; it is a double-bracket reference, that
    path is [pathBefore] and holds [.md]; it is a double-bracket reference,
    that path holds no [.md] and is [pathBefore] once [.md] is appended. *)
Theorem moved_reference_rewritten (cwd : str) (minimatch : str -> str -> bool)
    (payloadBefore payloadAfter : str) (markdownFiles : FileList)
    (options : Options) (f : File) (links : list LinkOccurrence)
    (o : LinkOccurrence) :
  let pathBefore := Posix.normalize (windowsToPosix payloadBefore) in
  let pathAfter := Posix.normalize (windowsToPosix payloadAfter) in
  shouldIncludePath cwd minimatch options pathBefore = true ->
  In f (trackedFiles cwd minimatch markdownFiles options) ->
  getAllLinks (Some (content f)) = Ok links -> In o links ->
  (replaceFileExtension o = true /\ linkedPath f o = pathBefore) \/
  (replaceFileExtension o = false /\
   includes (js ".md") (linkedPath f o) = true /\ linkedPath f o = pathBefore) \/
  (replaceFileExtension o = false /\
   includes (js ".md") (linkedPath f o) = false /\
   linkedPath f o ++ js ".md" = pathBefore) ->
  exists edits,
    handleRenameEvent cwd minimatch payloadBefore payloadAfter markdownFiles
      options = Ok edits /\
    In (exactMoveEdit cwd pathAfter f o) edits.
Proof.
  intros pathBefore pathAfter Hs Hf Hl Ho Hcase.
  apply (@repair_phase_intro cwd minimatch payloadBefore payloadAfter
           markdownFiles options f links o _ Hs Hf Hl Ho).
  fold pathBefore pathAfter.
  assert (resolvedTarget f o = pathBefore) as Hr.
  { rewrite resolvedTarget_linkedPath.
    destruct Hcase as [[-> E]|[(-> & -> & E)|(-> & -> & E)]]; exact E. }
  rewrite (@repairEdit_exact cwd pathBefore pathAfter f o Hr).
  left. reflexivity.
Qed.

(** X19, witness: [folder/a.md] became [folder/b.md], and [c.md] refers
    to it by an inline link. *)
Lemma moved_reference_rewritten_witness :
  exists edits,
    handleRenameEvent Reference.cwd Reference.minimatch (js "folder/a.md")
      (js "folder/b.md") linkingFiles noOptions = Ok edits /\
    In linkingEdit edits.
Proof.
  apply (@moved_reference_rewritten Reference.cwd Reference.minimatch
           (js "folder/a.md") (js "folder/b.md") linkingFiles noOptions
           (mkFile (js "c.md") (js "[x](folder/a.md)"))
           [mkLink (js "folder/a.md") 0 4 true]
           (mkLink (js "folder/a.md") 0 4 true)).
  - vm_compute. reflexivity.
  - vm_compute. left. reflexivity.
  - vm_compute. reflexivity.
  - left. reflexivity.
  - left. split; vm_compute; reflexivity.
Defined.

(** X23: double-bracket references to the moved document that are left
    alone.  The second loop yields nothing for a double-bracket reference
    when the path it names holds [.md] somewhere, in a folder name say, and
    is [pathBefore] only once [.md] is appended: no [.md] is appended to a
    path that holds one.  It yields nothing either when the path it names
    is [pathBefore] itself and holds no [.md], as for a moved image: [.md]
    is appended before the comparison. *)
Theorem extensionless_reference_left (cwd pathBefore pathAfter : str)
    (f : File) (o : LinkOccurrence) :
  replaceFileExtension o = false ->
  (includes (js ".md") (linkedPath f o) = true /\
   linkedPath f o ++ js ".md" = pathBefore) \/
  (includes (js ".md") (linkedPath f o) = false /\
   linkedPath f o = pathBefore) ->
  repairEdit cwd pathBefore pathAfter f o = [].
Proof.
  intros Hflag Hcase. apply repairEdit_nil. rewrite resolvedTarget_linkedPath.
  rewrite Hflag. cbn [negb].
  destruct Hcase as [[-> <-]|[-> <-]]; cbn [negb].
  - split.
    + intros E. apply (f_equal (@length ascii)) in E.
      rewrite length_app in E. simpl in E. lia.
    + apply startsWith_longer. rewrite !length_app. simpl. lia.
  - split.
    + intros E. apply (f_equal (@length ascii)) in E.
      rewrite length_app in E. simpl in E. lia.
    + rewrite startsWith_app_cancel. reflexivity.
Qed.

(** X23, witness: [[note]] in [my.mdocs/index.md], after
    [my.mdocs/note.md] became [new.md]. *)
Lemma extensionless_reference_left_witness :
  getAllLinks (Some (content dottedFile)) = Ok [mkLink (js "note") 0 2 false] /\
  repairEdit Reference.cwd (js "my.mdocs/note.md") (js "new.md") dottedFile
    (mkLink (js "note") 0 2 false) = [].
Proof.
  split; [vm_compute; reflexivity|].
  apply extensionless_reference_left; [reflexivity|].
  left. split; vm_compute; reflexivity.
Defined.

(* ===================================================================== *)
(** ** C5: a second run after the edits of the first are applied

    For documents whose references are inline links the scan, the edits
    and their application can be followed chunk by chunk. *)
(* ===================================================================== *)

Lemma lacks_In (chars s : str) (x : ascii) :
  lacks chars s = true -> In x chars -> ~ In x s.
Proof.
  unfold lacks. rewrite forallb_forall. intros H Hx Hs.
  specialize (H x Hs). apply negb_true_iff in H.
  assert (existsb (Ascii.eqb x) chars = true) as E; [|congruence].
  apply existsb_exists. exists x. split; [exact Hx|apply Ascii.eqb_refl].
Qed.

Lemma lacks_app (chars a b : str) :
  lacks chars (a ++ b) = lacks chars a && lacks chars b.
Proof. apply forallb_app. Qed.

Lemma plainTarget_spec (t : str) :
  plainTarget t = true ->
  ~ In "["%char t /\ ~ In "<"%char t /\ ~ In ")"%char t /\
  ~ In "#"%char t /\ ~ In "\"%char t /\ ~ In LF t.
Proof.
  unfold plainTarget. intros H.
  repeat split; apply (@lacks_In _ _ _ H); simpl; auto 10.
Qed.

Lemma wellFormed_spec (c : Chunk) :
  wellFormed c = true ->
  (~ In "["%char (chunkLead c) /\ ~ In "<"%char (chunkLead c)) /\
  (~ In "["%char (chunkLabel c) /\ ~ In "<"%char (chunkLabel c) /\
   ~ In "]"%char (chunkLabel c)) /\
  plainTarget (chunkTarget c) = true.
Proof.
  unfold wellFormed, plain, plainLabel. rewrite !andb_true_iff.
  intros [[Hl Hb] Ht].
  repeat split; try exact Ht;
    first [apply (@lacks_In _ _ _ Hl)|apply (@lacks_In _ _ _ Hb)]; simpl; auto.
Qed.

Lemma plain_spec (s : str) :
  plain s = true -> ~ In "["%char s /\ ~ In "<"%char s.
Proof. intros H. split; apply (@lacks_In _ _ _ H); simpl; auto. Qed.

(** [mdLinkRegexGlobal] at the start of an inline link with a plain
    target. *)
Lemma mdLinkRegexGlobal_at (label t post : str) (i : nat) :
  ~ In "]"%char label -> t <> [] -> ~ In ")"%char t -> ~ In "#"%char t ->
  exists c,
    rmatch mdLinkRegexGlobal finish (inlineLink label t ++ post) i [] =
      Some (i + length (inlineLink label t), c) /\
    capText 1 c = Some ("["%char :: label ++ js "](") /\
    capText 2 c = Some t.
Proof.
  intros Hlabel Hne Hparen Hhash.
  apply forallb_is_not in Hlabel.
  rewrite mdLinkRegexGlobal_unfold, inlineLink_app.
  change (rmatch (RSeq ?r1 ?r2) ?k) with (rmatch r1 (rmatch r2 k)).
  rewrite mdLinkRegexGlobal_prefix by assumption.
  eexists. split; [|split].
  - apply (@target_then_closing _ (RChar ")") ")"); auto; try discriminate.
    + now apply forallb_is_not.
    + cbn [rmatch]. rewrite Ascii.eqb_refl. unfold finish. f_equal. f_equal.
      unfold inlineLink. rewrite !length_app. simpl. lia.
  - reflexivity.
  - reflexivity.
Qed.

Lemma renderChunk_prefix (done : str) (c : Chunk) :
  done ++ renderChunk c =
  (done ++ chunkLead c ++ "["%char :: chunkLabel c ++ js "](")
  ++ chunkTarget c ++ js ")".
Proof.
  unfold renderChunk, inlineLink. cbn [js list_ascii_of_string app].
  rewrite <- !app_assoc. cbn [app]. do 2 f_equal.
  rewrite <- !app_assoc. reflexivity.
Qed.

Lemma renderChunk_length (c : Chunk) : 0 < length (renderChunk c).
Proof.
  unfold renderChunk, inlineLink. rewrite !length_app. simpl. lia.
Qed.

Lemma occAt_occurrenceOf (prefix raw rest : str) (flag : bool) :
  occurrenceOf (prefix ++ rest) (length prefix) raw true = occAt prefix raw.
Proof.
  unfold occAt, occurrenceOf, substring_to.
  rewrite firstn_app, Nat.sub_diag, !firstn_all. simpl.
  now rewrite app_nil_r.
Qed.

(** The loop's turn depends on [lastIndex] through [exec] only. *)
Lemma matchLoop_exec (fuel : nat) (regex : regex) (fileContent : str)
    (i j : nat) (flag : bool) :
  exec regex fileContent i = exec regex fileContent j ->
  matchLoop fuel regex fileContent i flag = matchLoop fuel regex fileContent j flag.
Proof. intros E. destruct fuel; [reflexivity|]. cbn [matchLoop]. now rewrite E. Qed.

Lemma exec_after (regex : regex) (done rest : str) :
  exec regex (done ++ rest) (length done) = search regex rest (length done).
Proof.
  unfold exec.
  destruct (Nat.ltb_spec (length (done ++ rest)) (length done)) as [Hlt|_].
  { rewrite length_app in Hlt. lia. }
  now rewrite skipn_length_app.
Qed.

(** [[label]()] is no inline link: the scan passes over it. *)
Lemma md_search_empty_target (lead label rest : str) (i : nat) :
  ~ In "["%char lead -> ~ In "["%char label -> ~ In "]"%char label ->
  search mdLinkRegexGlobal (lead ++ inlineLink label [] ++ rest) i =
  search mdLinkRegexGlobal rest (i + length (lead ++ inlineLink label [])).
Proof.
  intros Hlead Hl1 Hl2.
  rewrite (@search_skip mdLinkRegexGlobal "[" _ _ eq_refl Hlead), search_unfold.
  rewrite inlineLink_app.
  assert (rmatch mdLinkRegexGlobal finish
            ("["%char :: label ++ "]"%char :: "("%char :: [] ++ ")"%char :: rest)
            (i + length lead) [] = None) as ->.
  { rewrite mdLinkRegexGlobal_unfold.
    change (rmatch (RSeq ?r1 ?r2) ?k) with (rmatch r1 (rmatch r2 k)).
    rewrite mdLinkRegexGlobal_prefix by now apply forallb_is_not.
    reflexivity. }
  cbn [app].
  replace (label ++ "]"%char :: "("%char :: ")"%char :: rest)
    with ((label ++ js "]()") ++ rest) by (rewrite <- app_assoc; reflexivity).
  rewrite (@search_skip mdLinkRegexGlobal "[" (label ++ js "]()") rest eq_refl).
  - f_equal. unfold inlineLink. rewrite !length_app. simpl. lia.
  - intros Hin. apply in_app_or in Hin as [Hin|Hin]; [now apply Hl1|].
    simpl in Hin. intuition discriminate.
Qed.

(** The scan with the inline pattern of a text made of chunks yields the
    chunks' links, in order. *)
Lemma md_scan_chunks (chunks : list Chunk) (tail : str) :
  forallb wellFormed chunks = true -> plain tail = true ->
  forall fuel done,
    length (render chunks tail) < fuel ->
    matchLoop fuel mdLinkRegexGlobal (done ++ render chunks tail) (length done)
      true
    = Ok (occurrencesOf done chunks).
Proof.
  intros Hwf Htail. induction chunks as [|c cs IH]; intros fuel done Hfuel.
  - destruct fuel as [|fuel]; [lia|]. cbn [matchLoop render occurrencesOf].
    rewrite exec_after.
    rewrite (@search_needs_firstChar mdLinkRegexGlobal "[" tail eq_refl);
      [reflexivity|]. now apply plain_spec.
  - cbn [forallb] in Hwf. apply andb_true_iff in Hwf as [Hc Hcs].
    apply wellFormed_spec in Hc as ([Hl1 Hl2] & (Hb1 & Hb2 & Hb3) & Ht).
    apply plainTarget_spec in Ht as (Ht1 & Ht2 & Ht3 & Ht4 & Ht5 & Ht6).
    cbn [render occurrencesOf] in *.
    destruct (chunkTarget c) as [|t0 t] eqn:Et.
    + rewrite (@matchLoop_exec fuel _ _ (length done) (length (done ++ renderChunk c))).
      * rewrite app_assoc, (IH Hcs fuel (done ++ renderChunk c)).
        -- rewrite (renderChunk_prefix done c), Et. reflexivity.
        -- rewrite length_app in Hfuel. lia.
      * rewrite exec_after, app_assoc, exec_after. unfold renderChunk.
        rewrite Et, <- app_assoc.
        rewrite md_search_empty_target by assumption.
        f_equal. rewrite !length_app. lia.
    + rewrite <- Et in *.
      assert (chunkTarget c <> []) as Hne by (rewrite Et; discriminate).
      clear Et t0 t.
      destruct fuel as [|fuel]; [lia|].
      cbn [matchLoop]. rewrite exec_after.
      unfold renderChunk at 1. rewrite <- app_assoc.
      rewrite (@search_skip mdLinkRegexGlobal "[" _ _ eq_refl Hl1), search_unfold.
      destruct (@mdLinkRegexGlobal_at (chunkLabel c) (chunkTarget c)
                  (render cs tail) (length done + length (chunkLead c))
                  Hb3 Hne Ht3 Ht4) as (caps & -> & C1 & C2).
      cbn [m_caps m_index m_end]. rewrite C1, C2.
      replace (length done + length (chunkLead c)
               + length (inlineLink (chunkLabel c) (chunkTarget c)))
        with (length (done ++ renderChunk c))
        by (unfold renderChunk; rewrite !length_app; lia).
      rewrite app_assoc, (IH Hcs fuel (done ++ renderChunk c)).
      2:{ rewrite length_app in Hfuel. pose proof (renderChunk_length c). lia. }
      cbn [bind]. rewrite <- renderChunk_prefix. do 2 f_equal.
      rewrite (renderChunk_prefix done c), <- app_assoc.
      replace (length done + length (chunkLead c)
               + length ("["%char :: chunkLabel c ++ js "]("))
        with (length (done ++ chunkLead c ++ "["%char :: chunkLabel c ++ js "]("))
        by (rewrite !length_app; lia).
      apply (@occAt_occurrenceOf
               (done ++ chunkLead c ++ "["%char :: chunkLabel c ++ js "](")
               (chunkTarget c)
               ((chunkTarget c ++ js ")") ++ render cs tail) true).
Qed.

Lemma wikilinkRegex_start (s : str) (i : nat) :
  match s with
  | x :: y :: _ => Ascii.eqb x "[" && Ascii.eqb y "["
  | _ => false
  end = false ->
  rmatch wikilinkRegex finish s i [] = None.
Proof.
  rewrite wikilinkRegex_unfold. cbn [rmatch]. intros H.
  destruct s as [|x s]; [reflexivity|].
  rewrite (Ascii.eqb_sym "[" x).
  destruct (Ascii.eqb x "["); [|reflexivity].
  destruct s as [|y s]; [reflexivity|].
  rewrite (Ascii.eqb_sym "[" y). simpl in H. now rewrite H.
Qed.

Lemma search_wiki_none (s : str) :
  doubled s = false -> forall i, search wikilinkRegex s i = None.
Proof.
  induction s as [|x s IH]; intros H i; rewrite search_unfold.
  - now rewrite wikilinkRegex_start.
  - cbn [doubled] in H. apply orb_false_iff in H as [H1 H2].
    rewrite wikilinkRegex_start.
    + now apply IH.
    + destruct s; [reflexivity|exact H1].
Qed.

Lemma doubled_skip (a rest : str) :
  ~ In "["%char a -> doubled (a ++ rest) = doubled rest.
Proof.
  induction a as [|x a IH]; intros H; [reflexivity|]. cbn [app doubled].
  destruct (Ascii.eqb_spec x "[") as [->|_].
  - exfalso. apply H. left. reflexivity.
  - cbn [andb orb]. apply IH. intros Hin. apply H. now right.
Qed.

Lemma doubled_render (chunks : list Chunk) (tail : str) :
  forallb wellFormed chunks = true -> plain tail = true ->
  doubled (render chunks tail) = false.
Proof.
  intros Hwf Htail. induction chunks as [|c cs IH]; cbn [render].
  - rewrite <- (app_nil_r tail), doubled_skip; [reflexivity|].
    now apply plain_spec.
  - cbn [forallb] in Hwf. apply andb_true_iff in Hwf as [Hc Hcs].
    apply wellFormed_spec in Hc as ([Hl1 _] & (Hb1 & _ & _) & Ht).
    apply plainTarget_spec in Ht as (Ht1 & _).
    unfold renderChunk. rewrite <- app_assoc, doubled_skip by assumption.
    rewrite inlineLink_app. cbn [doubled].
    assert (match chunkLabel c ++ "]"%char :: "("%char :: chunkTarget c
                  ++ ")"%char :: render cs tail with
            | y :: _ => Ascii.eqb y "["
            | [] => false
            end = false) as ->.
    { destruct (chunkLabel c) as [|y l]; [reflexivity|]. cbn [app].
      destruct (Ascii.eqb_spec y "[") as [->|_]; [|reflexivity].
      exfalso. apply Hb1. left. reflexivity. }
    rewrite andb_false_r. cbn [orb].
    rewrite doubled_skip by assumption. cbn [doubled]. cbn [Ascii.eqb andb orb].
    change (doubled (chunkTarget c ++ ")"%char :: render cs tail) = false).
    rewrite doubled_skip by assumption. cbn [doubled].
    now apply IH.
Qed.

Lemma render_no_angle (chunks : list Chunk) (tail : str) :
  forallb wellFormed chunks = true -> plain tail = true ->
  ~ In "<"%char (render chunks tail).
Proof.
  intros Hwf Htail. induction chunks as [|c cs IH]; cbn [render].
  - now apply plain_spec.
  - cbn [forallb] in Hwf. apply andb_true_iff in Hwf as [Hc Hcs].
    apply wellFormed_spec in Hc as ([_ Hl2] & (_ & Hb2 & _) & Ht).
    apply plainTarget_spec in Ht as (_ & Ht2 & _).
    unfold renderChunk, inlineLink. rewrite !in_app_iff. simpl.
    specialize (IH Hcs). intuition discriminate.
Qed.

(** The references of a text made of chunks are the chunks' links. *)
Lemma getAllLinks_render (chunks : list Chunk) (tail : str) :
  forallb wellFormed chunks = true -> plain tail = true ->
  getAllLinks (Some (render chunks tail)) = Ok (occurrencesOf [] chunks).
Proof.
  intros Hwf Htail. unfold getAllLinks.
  rewrite (@getMatchingLinks_needs_firstChar imgRegex "<" _ _ eq_refl
             (render_no_angle _ _ Hwf Htail)).
  assert (getMatchingLinks wikilinkRegex (Some (render chunks tail)) false = Ok [])
    as ->.
  { unfold getMatchingLinks. destruct (render chunks tail) eqn:E; [reflexivity|].
    rewrite <- E. cbn [matchLoop]. unfold exec. cbn [Nat.ltb Nat.leb skipn].
    rewrite search_wiki_none; [reflexivity|]. now apply doubled_render. }
  assert (getMatchingLinks mdLinkRegexGlobal (Some (render chunks tail)) true
          = Ok (occurrencesOf [] chunks)) as ->.
  { unfold getMatchingLinks. destruct (render chunks tail) eqn:E.
    - destruct chunks as [|c cs]; [reflexivity|]. cbn [render] in E.
      pose proof (renderChunk_length c) as Hl.
      apply (f_equal (@length ascii)) in E. rewrite length_app in E.
      simpl in E. lia.
    - rewrite <- E.
      apply (@md_scan_chunks chunks tail Hwf Htail
               (S (length (render chunks tail))) []).
      lia. }
  cbn [bind]. now rewrite !app_nil_r.
Qed.

(** *** Applying an edit to the text it was computed for *)

Lemma join_split (sep : ascii) (s : str) : join_with [sep] (split sep s) = s.
Proof.
  induction s as [|c s IH]; [reflexivity|]. cbn [split].
  pose proof (split_not_nil sep s) as Hne.
  destruct (split sep s) as [|l ls]; [congruence|].
  destruct (Ascii.eqb_spec c sep) as [->|_].
  - change (join_with [sep] ([] :: l :: ls)) with (sep :: join_with [sep] (l :: ls)).
    now rewrite IH.
  - destruct ls as [|l2 ls]; cbn [join_with app] in *; now rewrite IH.
Qed.

Lemma split_tl_no_sep (sep : ascii) (raw post : str) :
  ~ In sep raw -> tl (split sep (raw ++ post)) = tl (split sep post).
Proof.
  induction raw as [|c raw IH]; intros Hn; [reflexivity|]. cbn [app split].
  destruct (Ascii.eqb_spec c sep) as [->|_].
  - exfalso. apply Hn. simpl. auto.
  - assert (~ In sep raw) as Hn' by (intros Hi; apply Hn; simpl; auto).
    specialize (IH Hn'). pose proof (split_not_nil sep (raw ++ post)).
    destruct (split sep (raw ++ post)); [congruence|]. exact IH.
Qed.

Lemma split_around (sep : ascii) (a raw b : str) :
  ~ In sep raw ->
  split sep (a ++ raw ++ b) =
  removelast (split sep a) ++
  (last (split sep a) [] ++ raw ++ hd [] (split sep b)) :: tl (split sep b).
Proof.
  intros Hn. now rewrite split_app, split_hd_no_sep, split_tl_no_sep.
Qed.

Lemma updateLine_at (f : str -> str) (before : list str) (l : str)
    (after : list str) :
  updateLine (length before) f (before ++ l :: after) = before ++ f l :: after.
Proof. induction before as [|x before IH]; simpl; [reflexivity|]. now rewrite IH. Qed.

Lemma length_removelast_split (sep : ascii) (s : str) :
  length (removelast (split sep s)) = length (split sep s) - 1.
Proof. rewrite removelast_firstn_len, length_firstn. lia. Qed.

(** An edit over the span of [raw] in [a ++ raw ++ b] puts its text in the
    place of [raw]. *)
Lemma applyEdit_at (a raw b : str) (e : Edit) :
  ~ In LF raw -> ~ In LF (newText e) ->
  pline (start (range e)) = length (split LF a) - 1 ->
  character (start (range e)) = length (last (split LF a) []) ->
  character (end_ (range e)) = length (last (split LF a) []) + length raw ->
  applyEdit (a ++ raw ++ b) e = a ++ newText e ++ b.
Proof.
  intros Hraw Hnew Hline Hcol Hend. unfold applyEdit.
  rewrite split_around by assumption.
  rewrite Hline, <- length_removelast_split, updateLine_at.
  unfold replaceInLine. rewrite Hcol, Hend.
  rewrite firstn_app, Nat.sub_diag, firstn_all. cbn [firstn]. rewrite app_nil_r.
  rewrite skipn_app, skipn_all2 by lia. cbn [app].
  replace (length (last (split LF a) []) + length raw
           - length (last (split LF a) [])) with (length raw) by lia.
  rewrite skipn_app, skipn_all, Nat.sub_diag. cbn [skipn app].
  transitivity (join_with NL (split LF (a ++ newText e ++ b)));
    [|apply join_split].
  f_equal. symmetry. now apply split_around.
Qed.

(** *** The order of the edits of one document *)

Lemma posLe_trans (p q r : Position) : posLe p q -> posLe q r -> posLe p r.
Proof. unfold posLe. lia. Qed.

Lemma lineCol_app (a b : str) : posLe (lineCol a) (lineCol (a ++ b)).
Proof.
  unfold posLe, lineCol. cbn [pline character]. rewrite split_app.
  pose proof (split_not_nil LF a) as Ha. pose proof (split_not_nil LF b) as Hb.
  rewrite length_app, length_removelast_split. cbn [length].
  destruct (split LF b) as [|hb tb]; [congruence|]. cbn [hd tl].
  destruct tb as [|x tb].
  - right. split; [destruct (split LF a); [congruence|simpl; lia]|].
    rewrite last_last, length_app. lia.
  - left. destruct (split LF a); [congruence|]. simpl. lia.
Qed.

Lemma startsAfter_posLe (e1 e2 : Edit) :
  posLe (start (range e1)) (start (range e2)) -> startsAfter e1 e2 = false.
Proof.
  unfold posLe, startsAfter. intros H. apply orb_false_iff. split.
  - apply Nat.ltb_ge. lia.
  - destruct (Nat.eqb_spec (pline (start (range e2))) (pline (start (range e1))));
      [|reflexivity].
    cbn [andb]. apply Nat.ltb_ge. lia.
Qed.

Lemma insertEdit_last (e : Edit) (l : list Edit) :
  Forall (fun x => startsAfter e x = false) l -> insertEdit e l = l ++ [e].
Proof.
  induction 1 as [|x l Hx _ IH]; [reflexivity|]. cbn [insertEdit app].
  now rewrite Hx, IH.
Qed.

Lemma lastFirst_ascending (edits : list Edit) :
  StronglySorted (fun e1 e2 => startsAfter e1 e2 = false) edits ->
  lastFirst edits = rev edits.
Proof.
  induction 1 as [|e edits _ IH Hall]; [reflexivity|].
  unfold lastFirst in *. cbn [fold_right rev]. rewrite IH.
  apply insertEdit_last. apply Forall_forall. intros x Hx.
  rewrite Forall_forall in Hall. apply Hall. now apply in_rev.
Qed.

(** *** The edits of one document and their application *)

Lemma occAt_fields (prefix t : str) :
  ~ In "\"%char t ->
  target (occAt prefix t) = t /\
  replaceFileExtension (occAt prefix t) = true /\
  mkPosition (line (occAt prefix t)) (col (occAt prefix t)) = lineCol prefix.
Proof.
  intros Ht. unfold occAt, occurrenceOf, substring_to, lineCol.
  rewrite firstn_all. cbn [target replaceFileExtension line col].
  rewrite windowsToPosix_id by assumption. now rewrite nth_last.
Qed.

Section DocumentEdits.
Variables cwd pathBefore pathAfter : str.
Variable f : File.

(** What the second loop yields for a reference depends on its position
    through the range only. *)
Lemma repairEdit_position (o : LinkOccurrence) :
  replaceFileExtension o = true ->
  repairEdit cwd pathBefore pathAfter f o =
  map (fun e => mkEdit (path e) (targetRange o) (newText e) (requiresPathToExist e))
      (repairEdit cwd pathBefore pathAfter f (inlineRef (target o))).
Proof.
  destruct o as [t l c fl]. cbn [replaceFileExtension target]. intros ->.
  unfold repairEdit, inlineRef. cbn [replaceFileExtension target negb].
  destruct (str_eqb _ pathBefore); [reflexivity|].
  destruct (startsWith _ _); reflexivity.
Qed.

Lemma repairEdit_single (o : LinkOccurrence) :
  repairEdit cwd pathBefore pathAfter f o = [] \/
  exists e, repairEdit cwd pathBefore pathAfter f o = [e] /\ path e = fpath f.
Proof.
  unfold repairEdit.
  destruct (str_eqb _ pathBefore); [right; eexists; split; reflexivity|].
  destruct (startsWith _ _); [right; eexists; split; reflexivity|now left].
Qed.

Lemma repairEdit_occAt (prefix t : str) :
  ~ In "\"%char t ->
  match repairedTarget cwd pathBefore pathAfter f t with
  | None => repairEdit cwd pathBefore pathAfter f (occAt prefix t) = []
  | Some n =>
      exists req,
        repairEdit cwd pathBefore pathAfter f (occAt prefix t) =
        [mkEdit (fpath f) (targetRange (occAt prefix t)) n req]
  end.
Proof.
  intros Ht. destruct (@occAt_fields prefix t Ht) as (Etarget & Eflag & _).
  rewrite (@repairEdit_position _ Eflag), Etarget. unfold repairedTarget.
  destruct (repairEdit_single (inlineRef t)) as [->|(e & -> & Hp)]; [reflexivity|].
  cbn [hd_error option_map map]. rewrite Hp. eexists. reflexivity.
Qed.

Lemma rebaseEdit_position (o : LinkOccurrence) :
  rebasedAlready cwd pathBefore pathAfter (target o) = true ->
  rebaseEdit cwd pathBefore pathAfter o = [].
Proof.
  unfold rebasedAlready, rebaseEdit, inlineRef. cbn [target].
  destruct (str_eqb _ _); [reflexivity|discriminate].
Qed.

Lemma chunkEdits_cons (done : str) (c : Chunk) (cs : list Chunk) :
  let prefix := done ++ chunkLead c ++ "["%char :: chunkLabel c ++ js "](" in
  chunkEdits cwd pathBefore pathAfter f done (c :: cs) =
  match chunkTarget c with
  | [] => []
  | _ => repairEdit cwd pathBefore pathAfter f (occAt prefix (chunkTarget c))
  end ++ chunkEdits cwd pathBefore pathAfter f (done ++ renderChunk c) cs.
Proof.
  intros prefix. unfold chunkEdits. cbn [occurrencesOf]. fold prefix.
  rewrite (renderChunk_prefix done c). fold prefix.
  destruct (chunkTarget c); reflexivity.
Qed.

Lemma retarget_spec (c : Chunk) :
  retarget cwd pathBefore pathAfter f c =
  match chunkTarget c with
  | [] => c
  | _ =>
      match repairedTarget cwd pathBefore pathAfter f (chunkTarget c) with
      | Some n => mkChunk (chunkLead c) (chunkLabel c) n
      | None => c
      end
  end.
Proof. unfold retarget. destruct (chunkTarget c); reflexivity. Qed.

(** Applied from the last to the first, the edits of a document put each
    new target in the place of the old one. *)
Lemma apply_chunkEdits (chunks : list Chunk) (tail : str) :
  forallb wellFormed chunks = true ->
  (forall c n, In c chunks -> chunkTarget c <> [] ->
               repairedTarget cwd pathBefore pathAfter f (chunkTarget c) = Some n ->
               ~ In LF n) ->
  forall done,
    fold_right (fun e text => applyEdit text e) (done ++ render chunks tail)
      (chunkEdits cwd pathBefore pathAfter f done chunks)
    = done ++ render (map (retarget cwd pathBefore pathAfter f) chunks) tail.
Proof.
  induction chunks as [|c cs IH]; intros Hwf Hnew done; [reflexivity|].
  cbn [forallb] in Hwf. apply andb_true_iff in Hwf as [Hc Hcs].
  apply wellFormed_spec in Hc as (_ & _ & Ht).
  apply plainTarget_spec in Ht as (_ & _ & _ & _ & Hbs & Hlf).
  rewrite chunkEdits_cons. cbn [map render].
  rewrite fold_right_app, (app_assoc done (renderChunk c)).
  rewrite IH; [|exact Hcs|intros c' n Hin; apply Hnew; now right].
  rewrite (retarget_spec c).
  destruct (chunkTarget c) as [|t0 t] eqn:Et.
  - cbn [app fold_right]. now rewrite <- app_assoc.
  - rewrite <- Et in *.
    assert (chunkTarget c <> []) as Hne by (rewrite Et; discriminate).
    clear Et t0 t.
    set (prefix := done ++ chunkLead c ++ "["%char :: chunkLabel c ++ js "](").
    pose proof (@repairEdit_occAt prefix (chunkTarget c) Hbs) as Hedit.
    destruct (repairedTarget cwd pathBefore pathAfter f (chunkTarget c))
      as [n|] eqn:En.
    + destruct Hedit as [req ->]. cbn [fold_right].
      set (R := render (map (retarget cwd pathBefore pathAfter f) cs) tail).
      destruct (@occAt_fields prefix (chunkTarget c) Hbs) as (Etarget & _ & Epos).
      pose proof (f_equal pline Epos) as Eline.
      pose proof (f_equal character Epos) as Ecol.
      cbn [pline character lineCol] in Eline, Ecol.
      transitivity (prefix ++ n ++ (js ")" ++ R)).
      * rewrite (renderChunk_prefix done c). fold prefix.
        replace ((prefix ++ chunkTarget c ++ js ")") ++ R)
          with (prefix ++ chunkTarget c ++ (js ")" ++ R))
          by now rewrite <- !app_assoc.
        apply applyEdit_at;
          cbn [newText range targetRange start end_ pline character].
        -- exact Hlf.
        -- apply (Hnew c n); [now left|exact Hne|exact En].
        -- exact Eline.
        -- exact Ecol.
        -- rewrite Ecol, Etarget. reflexivity.
      * rewrite (app_assoc done), (renderChunk_prefix done (mkChunk _ _ n)).
        cbn [chunkLead chunkLabel chunkTarget]. fold prefix.
        now rewrite <- !app_assoc.
    + rewrite Hedit. cbn [fold_right]. now rewrite <- app_assoc.
Qed.

Lemma chunkEdits_ascending (chunks : list Chunk) :
  forallb wellFormed chunks = true ->
  forall done,
    StronglySorted (fun e1 e2 => startsAfter e1 e2 = false)
      (chunkEdits cwd pathBefore pathAfter f done chunks) /\
    Forall (fun e => posLe (lineCol done) (start (range e)))
      (chunkEdits cwd pathBefore pathAfter f done chunks).
Proof.
  induction chunks as [|c cs IH]; intros Hwf done.
  - split; constructor.
  - cbn [forallb] in Hwf. apply andb_true_iff in Hwf as [Hc Hcs].
    apply wellFormed_spec in Hc as (_ & _ & Ht).
    apply plainTarget_spec in Ht as (_ & _ & _ & _ & Hbs & _).
    rewrite chunkEdits_cons.
    destruct (IH Hcs (done ++ renderChunk c)) as [Hsorted Hafter].
    assert (Forall (fun e => posLe (lineCol done) (start (range e)))
              (chunkEdits cwd pathBefore pathAfter f (done ++ renderChunk c) cs))
      as Hafter'.
    { eapply Forall_impl; [|exact Hafter]. intros e He.
      eapply posLe_trans; [apply lineCol_app|exact He]. }
    set (prefix := done ++ chunkLead c ++ "["%char :: chunkLabel c ++ js "](").
    assert (match chunkTarget c with
            | [] => []
            | _ => repairEdit cwd pathBefore pathAfter f (occAt prefix (chunkTarget c))
            end = [] \/
            exists e,
              match chunkTarget c with
              | [] => []
              | _ => repairEdit cwd pathBefore pathAfter f
                       (occAt prefix (chunkTarget c))
              end = [e] /\ start (range e) = lineCol prefix) as [->|(e & -> & He)].
    { destruct (chunkTarget c) as [|t0 t] eqn:Et; [now left|]. rewrite <- Et in *.
      pose proof (@repairEdit_occAt prefix (chunkTarget c) Hbs) as Hedit.
      destruct (repairedTarget _ _ _ _ _); [|now left].
      destruct Hedit as [req ->]. right. eexists. split; [reflexivity|].
      cbn [range targetRange start].
      now destruct (@occAt_fields prefix (chunkTarget c) Hbs) as (_ & _ & ->). }
    + split; assumption.
    + cbn [app]. split.
      * constructor; [exact Hsorted|].
        eapply Forall_impl; [|exact Hafter]. intros x Hx.
        apply startsAfter_posLe. rewrite He.
        eapply posLe_trans; [|exact Hx].
        rewrite (renderChunk_prefix done c). fold prefix. apply lineCol_app.
      * constructor; [|exact Hafter'].
        rewrite He. unfold prefix. apply lineCol_app.
Qed.

Lemma apply_document_edits (chunks : list Chunk) (tail : str) :
  forallb wellFormed chunks = true ->
  (forall c n, In c chunks -> chunkTarget c <> [] ->
               repairedTarget cwd pathBefore pathAfter f (chunkTarget c) = Some n ->
               ~ In LF n) ->
  fold_left applyEdit (lastFirst (chunkEdits cwd pathBefore pathAfter f [] chunks))
    (render chunks tail)
  = render (map (retarget cwd pathBefore pathAfter f) chunks) tail.
Proof.
  intros Hwf Hnew.
  rewrite lastFirst_ascending by now apply chunkEdits_ascending.
  rewrite <- (fold_left_rev_right (fun e text => applyEdit text e)).
  rewrite rev_involutive.
  exact (apply_chunkEdits chunks tail Hwf Hnew []).
Qed.

End DocumentEdits.

(** *** A rename over documents made of chunks *)

Lemma concatMapM_flat {A B : Type} (f : A -> outcome (list B))
    (g : A -> list B) (l : list A) :
  (forall x, In x l -> f x = Ok (g x)) -> concatMapM f l = Ok (flat_map g l).
Proof.
  induction l as [|a l IH]; intros H; [reflexivity|]. cbn [concatMapM flat_map].
  rewrite (H a) by now left. rewrite IH by (intros x Hx; apply H; now right).
  reflexivity.
Qed.

Lemma flat_map_only {A B : Type} (g : A -> list B) (d : A) (l : list A) :
  NoDup l -> In d l -> (forall x, In x l -> x <> d -> g x = []) ->
  flat_map g l = g d.
Proof.
  induction l as [|a l IH]; intros Hnd Hin Hg; [contradiction|].
  inversion Hnd as [|? ? Hna Hnd']; subst. cbn [flat_map].
  destruct Hin as [->|Hin].
  - assert (flat_map g l = []) as ->; [|apply app_nil_r].
    apply flat_map_nil. intros x Hx. apply Hg; [now right|].
    intros ->. contradiction.
  - rewrite (Hg a); [|now left|intros ->; contradiction].
    apply IH; [assumption..|]. intros x Hx. apply Hg. now right.
Qed.

Lemma NoDup_map_eq {A B : Type} (key : A -> B) (l : list A) (x y : A) :
  NoDup (map key l) -> In x l -> In y l -> key x = key y -> x = y.
Proof.
  induction l as [|a l IH]; intros Hnd Hx Hy E; [contradiction|].
  cbn [map] in Hnd. inversion Hnd as [|? ? Hna Hnd']; subst.
  destruct Hx as [->|Hx], Hy as [->|Hy]; auto.
  - exfalso. apply Hna. rewrite E. now apply in_map.
  - exfalso. apply Hna. rewrite <- E. now apply in_map.
Qed.

Lemma repairEdit_path (cwd pathBefore pathAfter : str) (f f' : File)
    (o : LinkOccurrence) :
  fpath f = fpath f' ->
  repairEdit cwd pathBefore pathAfter f o = repairEdit cwd pathBefore pathAfter f' o.
Proof. intros E. unfold repairEdit. now rewrite E. Qed.

Lemma repairedTarget_path (cwd pathBefore pathAfter : str) (f f' : File) (t : str) :
  fpath f = fpath f' ->
  repairedTarget cwd pathBefore pathAfter f t
  = repairedTarget cwd pathBefore pathAfter f' t.
Proof. intros E. unfold repairedTarget. now rewrite (repairEdit_path _ _ _ _ _ _ E). Qed.

Section RenameOverDocs.
Variable cwd : str.
Variable minimatch : str -> str -> bool.
Variable options : Options.
Variables payloadBefore payloadAfter pathBefore pathAfter : str.
Hypothesis HpathBefore :
  Posix.normalize (windowsToPosix payloadBefore) = pathBefore.
Hypothesis HpathAfter :
  Posix.normalize (windowsToPosix payloadAfter) = pathAfter.

Lemma trackedFiles_docs (docs : list Doc) :
  trackedFiles cwd minimatch (map toFile docs) options =
  map (fun d => posixFile (toFile d))
      (filter (trackedDoc cwd minimatch options) docs).
Proof.
  unfold trackedFiles. induction docs as [|d docs IH]; [reflexivity|].
  cbn [map filter fpath toFile]. unfold trackedDoc at 1.
  destruct (shouldIncludePath cwd minimatch options (windowsToPosix (docPath d)));
    cbn [map]; rewrite IH; reflexivity.
Qed.

Lemma chunkEdits_none (f : File) (chunks : list Chunk) :
  forallb wellFormed chunks = true ->
  (forall c, In c chunks -> chunkTarget c <> [] ->
             repairedTarget cwd pathBefore pathAfter f (chunkTarget c) = None) ->
  forall done, chunkEdits cwd pathBefore pathAfter f done chunks = [].
Proof.
  induction chunks as [|c cs IH]; intros Hwf Hnone done; [reflexivity|].
  cbn [forallb] in Hwf. apply andb_true_iff in Hwf as [Hc Hcs].
  apply wellFormed_spec in Hc as (_ & _ & Ht).
  apply plainTarget_spec in Ht as (_ & _ & _ & _ & Hbs & _).
  rewrite chunkEdits_cons, IH; [|exact Hcs|intros c' Hin; apply Hnone; now right].
  rewrite app_nil_r.
  destruct (chunkTarget c) as [|t0 t] eqn:Et; [reflexivity|]. rewrite <- Et in *.
  pose proof (@repairEdit_occAt cwd pathBefore pathAfter f
                (done ++ chunkLead c ++ "["%char :: chunkLabel c ++ js "](")
                (chunkTarget c) Hbs) as Hedit.
  rewrite (Hnone c) in Hedit; [exact Hedit|now left|rewrite Et; discriminate].
Qed.

Lemma rebase_chunks_none (chunks : list Chunk) :
  forallb wellFormed chunks = true ->
  (forall c, In c chunks -> chunkTarget c <> [] ->
             rebasedAlready cwd pathBefore pathAfter (chunkTarget c) = true) ->
  forall done,
    flat_map (rebaseEdit cwd pathBefore pathAfter) (occurrencesOf done chunks) = [].
Proof.
  induction chunks as [|c cs IH]; intros Hwf Hnone done; [reflexivity|].
  cbn [forallb] in Hwf. apply andb_true_iff in Hwf as [Hc Hcs].
  apply wellFormed_spec in Hc as (_ & _ & Ht).
  apply plainTarget_spec in Ht as (_ & _ & _ & _ & Hbs & _).
  cbn [occurrencesOf].
  destruct (chunkTarget c) as [|t0 t] eqn:Et.
  - apply IH; [exact Hcs|]. intros c' Hin. apply Hnone. now right.
  - rewrite <- Et in *. cbn [flat_map].
    rewrite IH; [|exact Hcs|intros c' Hin; apply Hnone; now right].
    rewrite app_nil_r. apply rebaseEdit_position.
    destruct (@occAt_fields
                (done ++ chunkLead c ++ "["%char :: chunkLabel c ++ js "](")
                (chunkTarget c) Hbs) as (-> & _).
    apply Hnone; [now left|rewrite Et; discriminate].
Qed.

Lemma repairEdits_docs (docs : list Doc) :
  (forall d, In d docs -> wellFormedDoc d = true) ->
  repairEdits cwd pathBefore pathAfter (map (fun d => posixFile (toFile d)) docs)
  = Ok (flat_map (docEdits cwd pathBefore pathAfter) docs).
Proof.
  unfold repairEdits. induction docs as [|d docs IH]; intros Hwf; [reflexivity|].
  cbn [map concatMapM flat_map]. unfold repairFile at 1.
  cbn [content posixFile toFile].
  pose proof (Hwf d (or_introl eq_refl)) as Hd.
  apply andb_true_iff in Hd as [Hchunks Htail].
  rewrite getAllLinks_render by assumption. cbn [bind].
  rewrite IH by (intros d' Hd'; apply Hwf; now right). reflexivity.
Qed.

(** A rename over documents made of chunks, the moved one settled: the
    first loop yields nothing, the second the edits of the tracked
    documents, in order. *)
Lemma rename_over_docs (docs : list Doc) :
  shouldIncludePath cwd minimatch options pathBefore = true ->
  forallb wellFormedDoc docs = true ->
  movedSettled cwd minimatch options pathBefore pathAfter docs ->
  handleRenameEvent cwd minimatch payloadBefore payloadAfter (map toFile docs)
    options
  = Ok (flat_map (docEdits cwd pathBefore pathAfter)
          (filter (trackedDoc cwd minimatch options) docs)).
Proof.
  intros Hinc Hwf Hmoved. unfold handleRenameEvent.
  rewrite HpathBefore, HpathAfter, Hinc. cbn [negb].
  rewrite trackedFiles_docs.
  rewrite forallb_forall in Hwf.
  assert (rebaseEdits cwd pathBefore pathAfter
            (option_map content
               (find (fun file => str_eqb (Posix.normalize (fpath file)) pathAfter)
                  (map (fun d => posixFile (toFile d))
                     (filter (trackedDoc cwd minimatch options) docs))))
          = Ok []) as ->.
  { destruct (find _ _) as [f|] eqn:Efind; [|reflexivity].
    apply find_some in Efind as [Hin Hkey].
    apply in_map_iff in Hin as (d & <- & Hd).
    apply filter_In in Hd as [Hd Htracked].
    apply str_eqb_eq in Hkey. cbn [option_map content posixFile toFile].
    unfold rebaseEdits. specialize (Hwf d Hd).
    apply andb_true_iff in Hwf as [Hchunks Htail].
    rewrite getAllLinks_render by assumption. cbn [bind]. f_equal.
    apply rebase_chunks_none; [exact Hchunks|].
    intros c Hc Hne. now apply (Hmoved d c). }
  cbn [bind app]. rewrite repairEdits_docs; [reflexivity|].
  intros d Hd. apply Hwf. apply filter_In in Hd. tauto.
Qed.

Lemma docEdits_path (d : Doc) (e : Edit) :
  In e (docEdits cwd pathBefore pathAfter d) ->
  path e = windowsToPosix (docPath d).
Proof.
  unfold docEdits, chunkEdits. intros Hin.
  apply in_flat_map in Hin as (o & _ & Hin).
  now apply repairEdit_inv in Hin as [-> _].
Qed.

Lemma filter_flat_map {A B : Type} (p : B -> bool) (g : A -> list B) (l : list A) :
  filter p (flat_map g l) = flat_map (fun x => filter p (g x)) l.
Proof.
  induction l as [|a l IH]; [reflexivity|]. cbn [flat_map].
  now rewrite filter_app, IH.
Qed.

Lemma filter_all {A : Type} (p : A -> bool) (l : list A) :
  (forall x, In x l -> p x = true) -> filter p l = l.
Proof.
  induction l as [|a l IH]; intros H; [reflexivity|]. cbn [filter].
  rewrite (H a) by now left. rewrite IH; [reflexivity|].
  intros x Hx. apply H. now right.
Qed.

Lemma filter_none {A : Type} (p : A -> bool) (l : list A) :
  (forall x, In x l -> p x = false) -> filter p l = [].
Proof.
  induction l as [|a l IH]; intros H; [reflexivity|]. cbn [filter].
  rewrite (H a) by now left. apply IH. intros x Hx. apply H. now right.
Qed.

(** The host finds for each document its own edits. *)
Lemma editsOf_docs (docs : list Doc) (d : Doc) :
  NoDup (map docKey docs) -> In d docs ->
  editsOf (toFile d)
    (flat_map (docEdits cwd pathBefore pathAfter)
       (filter (trackedDoc cwd minimatch options) docs))
  = if trackedDoc cwd minimatch options d
    then docEdits cwd pathBefore pathAfter d else [].
Proof.
  intros Hnd Hd. unfold editsOf. rewrite filter_flat_map.
  cbn [fpath toFile]. fold (docKey d).
  assert (forall d', 
             filter (fun e => str_eqb (Posix.normalize (path e)) (docKey d))
               (docEdits cwd pathBefore pathAfter d')
             = if str_eqb (docKey d') (docKey d)
               then docEdits cwd pathBefore pathAfter d' else []) as Hfilter.
  { intros d'. destruct (str_eqb (docKey d') (docKey d)) eqn:E.
    - apply filter_all. intros e He. now rewrite (docEdits_path _ _ He).
    - apply filter_none. intros e He. now rewrite (docEdits_path _ _ He). }
  assert (NoDup docs) as Hnd' by exact (NoDup_map_inv _ _ Hnd).
  destruct (trackedDoc cwd minimatch options d) eqn:Ed.
  - rewrite (@flat_map_only _ _ _ d).
    + now rewrite Hfilter, str_eqb_refl.
    + now apply NoDup_filter.
    + apply filter_In. now split.
    + intros x Hx Hne. apply filter_In in Hx as [Hx _]. rewrite Hfilter.
      destruct (str_eqb (docKey x) (docKey d)) eqn:E; [|reflexivity].
      apply str_eqb_eq in E. exfalso. apply Hne.
      exact (NoDup_map_eq docKey docs x d Hnd Hx Hd E).
  - apply flat_map_nil. intros x Hx. apply filter_In in Hx as [Hx Htr].
    rewrite Hfilter.
    destruct (str_eqb (docKey x) (docKey d)) eqn:E; [|reflexivity].
    apply str_eqb_eq in E.
    rewrite (NoDup_map_eq docKey docs x d Hnd Hx Hd E) in Htr. congruence.
Qed.

(** Applying the edits of a run gives the documents with their rewritten
    references retargeted. *)
Lemma applyEdits_docs (docs : list Doc) :
  NoDup (map docKey docs) ->
  forallb wellFormedDoc docs = true ->
  (forall d c n,
      In d docs -> trackedDoc cwd minimatch options d = true ->
      In c (docChunks d) -> chunkTarget c <> [] ->
      repairedTarget cwd pathBefore pathAfter (posixFile (toFile d))
        (chunkTarget c) = Some n ->
      plainTarget n = true) ->
  applyEdits
    (flat_map (docEdits cwd pathBefore pathAfter)
       (filter (trackedDoc cwd minimatch options) docs))
    (map toFile docs)
  = map toFile (map (updatedDoc cwd minimatch options pathBefore pathAfter) docs).
Proof.
  intros Hnd Hwf Hnew. unfold applyEdits. rewrite !map_map.
  apply map_ext_in. intros d Hd.
  rewrite (editsOf_docs docs d Hnd Hd).
  rewrite forallb_forall in Hwf. specialize (Hwf d Hd).
  apply andb_true_iff in Hwf as [Hchunks Htail].
  unfold updatedDoc. cbn [fpath posixFile toFile content].
  unfold trackedDoc in *.
  destruct (shouldIncludePath cwd minimatch options (windowsToPosix (docPath d)))
    eqn:Etracked; [|reflexivity].
  unfold docEdits. rewrite apply_document_edits; [reflexivity|exact Hchunks|].
  intros c n Hc Hne En.
  pose proof (Hnew d c n Hd Etracked Hc Hne En) as Hplain.
  now apply plainTarget_spec in Hplain.
Qed.

Lemma updatedDoc_path (d : Doc) :
  docPath (updatedDoc cwd minimatch options pathBefore pathAfter d) = docPath d.
Proof.
  unfold updatedDoc. now destruct (shouldIncludePath _ _ _ _).
Qed.

Lemma updatedDoc_tail (d : Doc) :
  docTail (updatedDoc cwd minimatch options pathBefore pathAfter d) = docTail d.
Proof.
  unfold updatedDoc. now destruct (shouldIncludePath _ _ _ _).
Qed.

Lemma updatedDoc_chunk (d : Doc) (c' : Chunk) :
  In c' (docChunks (updatedDoc cwd minimatch options pathBefore pathAfter d)) ->
  (In c' (docChunks d) /\
   (trackedDoc cwd minimatch options d = true -> chunkTarget c' <> [] ->
    repairedTarget cwd pathBefore pathAfter (posixFile (toFile d)) (chunkTarget c')
      = None)) \/
  exists c n,
    trackedDoc cwd minimatch options d = true /\
    In c (docChunks d) /\ chunkTarget c <> [] /\
    repairedTarget cwd pathBefore pathAfter (posixFile (toFile d)) (chunkTarget c)
      = Some n /\
    c' = mkChunk (chunkLead c) (chunkLabel c) n.
Proof.
  unfold updatedDoc, trackedDoc. cbn [fpath posixFile toFile].
  destruct (shouldIncludePath _ _ _ _); [|left; split; [assumption|discriminate]].
  cbn [docChunks]. intros Hin. apply in_map_iff in Hin as (c & <- & Hc).
  rewrite retarget_spec.
  destruct (chunkTarget c) as [|t0 t] eqn:Et.
  { left. split; [exact Hc|]. rewrite Et. congruence. }
  rewrite <- Et.
  destruct (repairedTarget _ _ _ _ _) as [n|] eqn:En; [|left; auto].
  right. exists c, n. repeat split; auto. rewrite Et. discriminate.
Qed.

(** After the edits of a run are applied, a second run yields nothing,
    provided the moved document is settled and the retargeted references
    settle. *)
Lemma second_run_over_docs (docs : list Doc) :
  shouldIncludePath cwd minimatch options pathBefore = true ->
  forallb wellFormedDoc docs = true ->
  NoDup (map docKey docs) ->
  movedSettled cwd minimatch options pathBefore pathAfter docs ->
  retargetsSettle cwd minimatch options pathBefore pathAfter docs ->
  exists edits,
    handleRenameEvent cwd minimatch payloadBefore payloadAfter (map toFile docs)
      options = Ok edits /\
    applyEdits edits (map toFile docs)
    = map toFile (map (updatedDoc cwd minimatch options pathBefore pathAfter) docs) /\
    handleRenameEvent cwd minimatch payloadBefore payloadAfter
      (applyEdits edits (map toFile docs)) options = Ok [].
Proof.
  intros Hinc Hwf Hnd Hmoved Hsettle.
  eexists. split; [now apply rename_over_docs|].
  assert (applyEdits
            (flat_map (docEdits cwd pathBefore pathAfter)
               (filter (trackedDoc cwd minimatch options) docs))
            (map toFile docs)
          = map toFile
              (map (updatedDoc cwd minimatch options pathBefore pathAfter) docs))
    as Happly.
  { apply applyEdits_docs; [assumption..|].
    intros d c n Hd Htr Hc Hne En. now apply (Hsettle d c n). }
  split; [exact Happly|]. rewrite Happly.
  set (docs' := map (updatedDoc cwd minimatch options pathBefore pathAfter) docs).
  assert (forall d', In d' docs' ->
            exists d, In d docs /\
                      d' = updatedDoc cwd minimatch options pathBefore pathAfter d)
    as Hdocs'.
  { intros d' Hd'. apply in_map_iff in Hd' as (d & <- & Hd). eauto. }
  rewrite forallb_forall in Hwf.
  assert (forall d c',
             In d docs ->
             In c' (docChunks
                      (updatedDoc cwd minimatch options pathBefore pathAfter d)) ->
             wellFormed c' = true) as Hwf'.
  { intros d c' Hd Hc'. pose proof (Hwf d Hd) as Hwfd.
    apply andb_true_iff in Hwfd as [Hchunks _].
    rewrite forallb_forall in Hchunks.
    apply updatedDoc_chunk in Hc' as [[Hc' _]|(c & n & Htr & Hc & Hne & En & ->)];
      [now apply Hchunks|].
    specialize (Hchunks c Hc). unfold wellFormed in *.
    cbn [chunkLead chunkLabel chunkTarget].
    apply andb_true_iff in Hchunks as [Hll _]. rewrite Hll. cbn [andb].
    now apply (Hsettle d c n). }
  rewrite rename_over_docs.
  - f_equal. apply flat_map_nil. intros d' Hd'.
    apply filter_In in Hd' as [Hd' Htr'].
    destruct (Hdocs' d' Hd') as (d & Hd & ->).
    assert (trackedDoc cwd minimatch options d = true) as Htr.
    { unfold trackedDoc in *. now rewrite updatedDoc_path in Htr'. }
    unfold docEdits. apply chunkEdits_none.
    + apply forallb_forall. intros c' Hc'. now apply (Hwf' d).
    + intros c' Hc' Hne'.
      rewrite (repairedTarget_path cwd pathBefore pathAfter _
                 (posixFile (toFile d)) _)
        by (cbn [fpath posixFile toFile]; now rewrite updatedDoc_path).
      apply updatedDoc_chunk in Hc'
          as [[Hc' Hnone]|(c & n & _ & Hc & Hne & En & ->)].
      * now apply Hnone.
      * cbn [chunkTarget] in *. now apply (Hsettle d c n).
  - exact Hinc.
  - apply forallb_forall. intros d' Hd'.
    destruct (Hdocs' d' Hd') as (d & Hd & ->).
    apply andb_true_iff. split.
    + apply forallb_forall. intros c' Hc'. now apply (Hwf' d).
    + pose proof (Hwf d Hd) as Hwfd.
      apply andb_true_iff in Hwfd as [_ Htail].
      now rewrite updatedDoc_tail.
  - intros d' c' Hd' Htr' Hkey' Hc' Hne'.
    destruct (Hdocs' d' Hd') as (d & Hd & ->).
    assert (trackedDoc cwd minimatch options d = true) as Htr.
    { unfold trackedDoc in *. now rewrite updatedDoc_path in Htr'. }
    assert (docKey d = pathAfter) as Hkey.
    { unfold docKey in *. now rewrite updatedDoc_path in Hkey'. }
    apply updatedDoc_chunk in Hc'
        as [[Hc' _]|(c & n & _ & Hc & Hne & En & ->)].
    + now apply (Hmoved d c').
    + cbn [chunkTarget] in *. now apply (Hsettle d c n).
Qed.

End RenameOverDocs.

(* ===================================================================== *)
(** ** Plain paths under [path.posix] *)
(* ===================================================================== *)

Module PlainPaths.
Import Posix PosixShape PosixFacts.

Lemma plainName_spec (s : str) :
  plainName s = true ->
  isName s /\ ~ In "["%char s /\ ~ In "<"%char s /\ ~ In ")"%char s /\
  ~ In "#"%char s /\ ~ In "\"%char s /\ ~ In LF s.
Proof.
  unfold plainName. rewrite !andb_true_iff, !negb_true_iff.
  intros [[[[H0 H1] H2] Hs] H].
  apply str_eqb_neq in H0, H1, H2.
  split; [|now apply plainTarget_spec].
  repeat split; auto. apply (@lacks_In _ _ _ Hs). simpl. auto.
Qed.

Lemma plainNames_names (names : list str) :
  forallb plainName names = true -> Forall isName names.
Proof.
  rewrite forallb_forall. intros H. apply Forall_forall. intros s Hs.
  now apply plainName_spec, H.
Qed.

Lemma names_segments (names : list str) :
  Forall isName names -> Forall isSegment names /\ Forall slashFree names.
Proof.
  intros H. split; (eapply Forall_impl; [|exact H]); intros s (H0 & _ & _ & Hs);
    [split|]; assumption.
Qed.

Lemma split_sep_app (a b : str) :
  split "/" (a ++ "/"%char :: b) = split "/" a ++ split "/" b.
Proof.
  induction a as [|c a IH]; [reflexivity|]. cbn [app split]. rewrite IH.
  pose proof (split_not_nil "/" a) as Hne.
  destruct (Ascii.eqb c "/"); [reflexivity|].
  destruct (split "/" a); [congruence|reflexivity].
Qed.

Lemma split_names (names : list str) :
  names <> [] -> Forall isName names ->
  split "/" (join_with sep names) = names.
Proof. intros Hne Hn. apply split_join; [exact Hne|]. now apply names_segments. Qed.

Lemma split_pathOf (absolute : bool) (names : list str) :
  names <> [] -> Forall isName names ->
  split "/" (pathOf absolute names) = (if absolute then [[]] else []) ++ names.
Proof.
  intros Hne Hn. unfold pathOf. destruct absolute.
  - change (split "/" (sep ++ ?x)) with ([] :: split "/" x).
    cbn [app]. f_equal. now apply split_names.
  - now apply split_names.
Qed.

(** The segments of a place leave its names on the stack. *)
Lemma fold_placeOf (allow absolute : bool) (names res : list str) :
  Forall isName names ->
  fold_left (pushSegment allow) (split "/" (placeOf absolute names)) res
  = rev names ++ res.
Proof.
  intros Hn. destruct names as [|n names].
  - destruct absolute; reflexivity.
  - cbn [placeOf]. rewrite split_pathOf by (assumption || discriminate).
    rewrite fold_left_app.
    destruct absolute; now apply fold_pushSegment_names.
Qed.

Lemma fold_dotdots_pop (allow : bool) (j : nat) :
  forall top res,
    Forall isName top -> j <= length top ->
    fold_left (pushSegment allow) (repeat dotdot j) (top ++ res)
    = skipn j top ++ res.
Proof.
  induction j as [|j IH]; intros top res Hn Hj; [reflexivity|].
  destruct top as [|x top]; [simpl in Hj; lia|].
  inversion Hn as [|? ? (_ & _ & Hx & _) Hn']; subst.
  assert (pushSegment allow (x :: top ++ res) dotdot = top ++ res) as Hpop.
  { unfold pushSegment.
    change (str_eqb dotdot [] || str_eqb dotdot dot) with false.
    change (str_eqb dotdot dotdot) with true. cbv iota.
    apply str_eqb_neq in Hx. now rewrite Hx. }
  cbn [repeat fold_left app skipn]. rewrite Hpop.
  apply IH; [assumption|simpl in Hj; lia].
Qed.

Lemma dotdot_segment : isSegment dotdot.
Proof. split; [discriminate|]. intros [H|[H|[]]]; discriminate. Qed.

Lemma target_segments (j : nat) (qs : list str) :
  Forall isName qs -> Forall isSegment (repeat dotdot j ++ qs).
Proof.
  intros Hq. apply Forall_app. split.
  - apply Forall_forall. intros s Hs. apply repeat_spec in Hs as ->.
    exact dotdot_segment.
  - now apply names_segments.
Qed.

Lemma targetOf_cases (j : nat) (qs : list str) :
  (j = 0 /\ qs = [] /\ targetOf j qs = dot) \/
  (repeat dotdot j ++ qs <> [] /\
   targetOf j qs = join_with sep (repeat dotdot j ++ qs)).
Proof.
  unfold targetOf. destruct (repeat dotdot j ++ qs) as [|s segs] eqn:E.
  - left. apply app_eq_nil in E as [Ej ->]. destruct j; [auto|discriminate].
  - right. split; [discriminate|reflexivity].
Qed.

Lemma fold_targetOf (allow : bool) (j : nat) (qs top res : list str) :
  Forall isName top -> Forall isName qs -> j <= length top ->
  fold_left (pushSegment allow) (split "/" (targetOf j qs)) (top ++ res)
  = rev qs ++ skipn j top ++ res.
Proof.
  intros Htop Hq Hj.
  destruct (targetOf_cases j qs) as [(-> & -> & ->)|[Hne ->]]; [reflexivity|].
  pose proof (target_segments j Hq) as Hseg.
  rewrite split_join; [|exact Hne|].
  - rewrite fold_left_app, fold_dotdots_pop by assumption.
    now apply fold_pushSegment_names.
  - eapply Forall_impl; [|exact Hseg]. now intros s [_ Hs].
Qed.

Lemma targetOf_shape (j : nat) (qs : list str) :
  Forall isName qs ->
  targetOf j qs <> [] /\
  (forall tail, isAbsolute (targetOf j qs ++ tail) = false) /\
  (forall pre, hasTrailingSeparator (pre ++ targetOf j qs) = false).
Proof.
  intros Hq.
  destruct (targetOf_cases j qs) as [(-> & -> & ->)|[Hne ->]].
  - split; [discriminate|]. split; [reflexivity|].
    intros pre. unfold hasTrailingSeparator. now rewrite rev_app_distr.
  - pose proof (target_segments j Hq) as Hseg. split; [|split].
    + now apply (join_not_absolute []).
    + intros tail. now apply join_not_absolute.
    + intros pre. now apply join_no_trailing_separator.
Qed.

Lemma join_names_not_nil (names : list str) :
  names <> [] -> Forall isName names -> join_with sep names <> [].
Proof.
  intros Hne Hn. apply (join_not_absolute [] Hne). now apply names_segments.
Qed.

Lemma placeOf_shape (absolute : bool) (names : list str) :
  Forall isName names ->
  placeOf absolute names <> [] /\
  (forall tail, isAbsolute (placeOf absolute names ++ tail) = absolute).
Proof.
  intros Hn. destruct names as [|n names].
  - destruct absolute; split; (discriminate || reflexivity).
  - assert (n :: names <> []) as Hne by discriminate.
    pose proof (names_segments Hn) as [Hseg _].
    cbn [placeOf]. unfold pathOf. destruct absolute.
    + split; [discriminate|reflexivity].
    + cbn [app]. split; [now apply join_names_not_nil|].
      intros tail. now apply join_not_absolute.
Qed.

(** A text whose segments leave the names [names] on the stack normalizes
    to the place of these names. *)
Lemma normalize_to_place (s : str) (names : list str) :
  s <> [] -> hasTrailingSeparator s = false ->
  fold_left (pushSegment (negb (isAbsolute s))) (split "/" s) [] = rev names ->
  Forall isName names ->
  normalize s = placeOf (isAbsolute s) names.
Proof.
  intros Hs Htr Hfold Hn. unfold normalize. destruct s as [|c s']; [congruence|].
  set (s := c :: s') in *. unfold normalizeString, segments, normalizeSegments.
  rewrite Hfold, rev_involutive, Htr.
  destruct names as [|n names].
  - cbn [join_with placeOf]. destruct (isAbsolute s); reflexivity.
  - assert (n :: names <> []) as Hne by discriminate.
    pose proof (join_names_not_nil Hne Hn) as Hbody.
    cbn [placeOf]. unfold pathOf.
    destruct (join_with sep (n :: names)) eqn:E; [congruence|].
    now rewrite app_nil_r.
Qed.

(** A plain reference, read from a place, names the place reached by
    climbing and going down. *)
Lemma join_place_target (absolute : bool) (ds : list str) (j : nat) (qs : list str) :
  Forall isName ds -> Forall isName qs -> j <= length ds ->
  join (placeOf absolute ds) (targetOf j qs)
  = placeOf absolute (firstn (length ds - j) ds ++ qs).
Proof.
  intros Hd Hq Hj.
  destruct (placeOf_shape absolute Hd) as [Hp Habs].
  destruct (targetOf_shape j Hq) as (Ht & _ & Htr).
  unfold join.
  destruct (placeOf absolute ds) as [|p0 p'] eqn:Ep; [congruence|].
  destruct (targetOf j qs) as [|t0 t'] eqn:Et; [congruence|].
  rewrite <- Ep, <- Et in *. clear Ep Et p0 p' t0 t'.
  set (s := placeOf absolute ds ++ sep ++ targetOf j qs).
  assert (isAbsolute s = absolute) as Es by apply Habs.
  rewrite <- Es at 1. apply normalize_to_place.
  - unfold s. intros E. apply app_eq_nil in E as [E _]. congruence.
  - unfold s. rewrite app_assoc. apply Htr.
  - rewrite Es. unfold s. cbn [sep js list_ascii_of_string app].
    rewrite split_sep_app, fold_left_app, fold_placeOf by assumption.
    rewrite fold_targetOf; [|now apply Forall_rev|assumption|now rewrite length_rev].
    rewrite !app_nil_r, rev_app_distr, skipn_rev. reflexivity.
  - apply Forall_app. split; [|assumption].
    apply Forall_forall. intros x Hx.
    rewrite Forall_forall in Hd. apply Hd.
    rewrite <- (firstn_skipn (length ds - j) ds). apply in_or_app. now left.
Qed.

Lemma filter_names (names : list str) :
  Forall isName names ->
  filter (fun seg => negb (str_eqb seg [])) names = names.
Proof.
  intros Hn. apply filter_all. intros s Hs.
  rewrite Forall_forall in Hn. destruct (Hn s Hs) as [H0 _].
  apply str_eqb_neq in H0. now rewrite H0.
Qed.

Lemma resolvedSegments_names (names : list str) :
  Forall isName names ->
  resolvedSegments (sep ++ join_with sep names) = names.
Proof.
  intros Hn. unfold resolvedSegments, segments. cbn [sep js list_ascii_of_string app tl].
  destruct names as [|n names]; [reflexivity|].
  rewrite split_names by (assumption || discriminate). now apply filter_names.
Qed.

(** Resolving a place puts its names after the names of the root it is
    taken from. *)
Lemma resolve_place (cwd : str) (absolute : bool) :
  (absolute = false -> isAbsolute cwd = true) ->
  exists root,
    Forall isName root /\
    forall names,
      Forall isName names ->
      resolve cwd (placeOf absolute names) = sep ++ join_with sep (root ++ names).
Proof.
  intros Hcwd. destruct absolute.
  - exists []. split; [constructor|]. intros names Hn.
    destruct (placeOf_shape true Hn) as [Hp Habs].
    unfold resolve. specialize (Habs []). rewrite app_nil_r in Habs.
    destruct (placeOf true names) as [|p0 p'] eqn:Ep; [congruence|].
    rewrite <- Ep in *. rewrite Habs. cbn [negb]. f_equal.
    unfold normalizeString, segments.
    rewrite split_snoc_sep, normalizeSegments_empty_back.
    unfold normalizeSegments. rewrite fold_placeOf by assumption.
    now rewrite app_nil_r, rev_involutive.
  - specialize (Hcwd eq_refl).
    destruct (@normalizeSegments_normal false (split "/" cwd) (split_slashFree cwd))
      as (stack & Hstack & names0 & k & -> & Hnames0 & Hk).
    rewrite (Hk eq_refl) in Hstack. cbn [repeat] in Hstack.
    rewrite app_nil_r in Hstack.
    exists (rev names0). split; [now apply Forall_rev|]. intros names Hn.
    destruct (placeOf_shape false Hn) as [Hp Habs].
    unfold resolve. specialize (Habs []). rewrite app_nil_r in Habs.
    destruct (placeOf false names) as [|p0 p'] eqn:Ep; [congruence|].
    rewrite <- Ep in *. rewrite Habs.
    destruct cwd as [|c0 cwd'] eqn:Ec; [discriminate|]. rewrite <- Ec in *.
    rewrite Hcwd. cbn [negb]. f_equal.
    unfold normalizeString, segments.
    rewrite !app_assoc, split_snoc_sep, normalizeSegments_empty_back.
    rewrite <- app_assoc. cbn [sep js list_ascii_of_string app].
    rewrite split_sep_app. unfold normalizeSegments in *.
    rewrite fold_left_app.
    apply (f_equal (@rev str)) in Hstack. rewrite !rev_involutive in Hstack.
    rewrite Hstack, fold_placeOf by assumption.
    now rewrite rev_app_distr, rev_involutive.
Qed.

Lemma commonPrefix_app (r a b : list str) :
  commonPrefix (r ++ a) (r ++ b) = length r + commonPrefix a b.
Proof.
  induction r as [|x r IH]; [reflexivity|]. cbn [app commonPrefix length].
  now rewrite str_eqb_refl, IH.
Qed.

Lemma commonPrefix_same (a : list str) : commonPrefix a a = length a.
Proof.
  rewrite <- (app_nil_r a) at 1 2. rewrite commonPrefix_app.
  destruct a; simpl; lia.
Qed.

Lemma commonPrefix_spec (a b : list str) :
  commonPrefix a b <= length a /\ commonPrefix a b <= length b /\
  firstn (commonPrefix a b) a = firstn (commonPrefix a b) b /\
  (forall x y,
      nth_error a (commonPrefix a b) = Some x ->
      nth_error b (commonPrefix a b) = Some y -> x <> y).
Proof.
  revert b. induction a as [|x a IH]; intros b.
  - cbn. repeat split; try lia. intros x y E. destruct b; discriminate.
  - destruct b as [|y b].
    + cbn. repeat split; try lia. discriminate.
    + cbn [commonPrefix]. destruct (str_eqb x y) eqn:E.
      * apply str_eqb_eq in E as ->.
        destruct (IH b) as (H1 & H2 & H3 & H4).
        cbn [length firstn nth_error]. rewrite H3.
        repeat split; try lia. exact H4.
      * apply str_eqb_neq in E. cbn. repeat split; try lia.
        intros x' y' Ex Ey. congruence.
Qed.

(** The relative path from a place to another climbs out of what the two
    do not share and names the rest of the way. *)
Lemma relative_place (cwd : str) (absolute : bool) (ds xs : list str) :
  (absolute = false -> isAbsolute cwd = true) ->
  Forall isName ds -> Forall isName xs ->
  relative cwd (placeOf absolute ds) (placeOf absolute xs)
  = join_with sep
      (repeat dotdot (length ds - commonPrefix ds xs)
       ++ skipn (commonPrefix ds xs) xs).
Proof.
  intros Hcwd Hd Hx.
  destruct (@resolve_place cwd absolute Hcwd) as (root & Hroot & Hres).
  assert (forall names, Forall isName names ->
            resolvedSegments (resolve cwd (placeOf absolute names)) = root ++ names)
    as Hsegs.
  { intros names Hn. rewrite Hres by assumption.
    apply resolvedSegments_names. now apply Forall_app. }
  assert (resolve cwd (placeOf absolute ds) = resolve cwd (placeOf absolute xs) ->
          [] = join_with sep
                 (repeat dotdot (length ds - commonPrefix ds xs)
                  ++ skipn (commonPrefix ds xs) xs)) as Hsame.
  { intros E. apply (f_equal resolvedSegments) in E.
    rewrite !Hsegs in E by assumption. apply app_inv_head in E as ->.
    now rewrite commonPrefix_same, Nat.sub_diag, skipn_all. }
  unfold relative.
  destruct (str_eqb (placeOf absolute ds) (placeOf absolute xs)) eqn:E1.
  { apply str_eqb_eq in E1. apply Hsame. now rewrite E1. }
  destruct (str_eqb (resolve cwd (placeOf absolute ds))
                    (resolve cwd (placeOf absolute xs))) eqn:E2.
  { apply str_eqb_eq in E2. now apply Hsame. }
  rewrite !Hsegs by assumption. rewrite commonPrefix_app, length_app.
  replace (length root + length ds - (length root + commonPrefix ds xs))
    with (length ds - commonPrefix ds xs) by lia.
  rewrite skipn_app, (skipn_all2 root) by lia. cbn [app].
  replace (length root + commonPrefix ds xs - length root)
    with (commonPrefix ds xs) by lia.
  reflexivity.
Qed.

Lemma join_with_snoc (names : list str) (n : str) :
  names <> [] ->
  join_with sep (names ++ [n]) = join_with sep names ++ sep ++ n.
Proof.
  induction names as [|x names IH]; intros Hne; [congruence|].
  destruct names as [|y names]; [reflexivity|].
  change (join_with sep ((x :: y :: names) ++ [n]))
    with (x ++ sep ++ join_with sep ((y :: names) ++ [n])).
  rewrite IH by discriminate.
  change (join_with sep (x :: y :: names))
    with (x ++ sep ++ join_with sep (y :: names)).
  now rewrite <- !app_assoc.
Qed.

Lemma pathOf_snoc (absolute : bool) (names : list str) (n : str) :
  names <> [] ->
  pathOf absolute (names ++ [n]) = pathOf absolute names ++ sep ++ n.
Proof.
  intros Hne. unfold pathOf. rewrite join_with_snoc by assumption.
  now rewrite <- app_assoc.
Qed.

Lemma dirnameEnd_skip (r l : str) (i : nat) (m : bool) :
  ~ In "/"%char r ->
  dirnameEnd (r ++ l) i m
  = dirnameEnd l (i - length r) (match r with [] => m | _ => false end).
Proof.
  revert i m. induction r as [|c r IH]; intros i m Hr.
  - cbn. now rewrite Nat.sub_0_r.
  - cbn [app dirnameEnd length].
    destruct (Ascii.eqb_spec c "/") as [->|_]; [exfalso; apply Hr; now left|].
    rewrite IH by (intros H; apply Hr; now right).
    replace (i - 1 - length r) with (i - S (length r)) by lia.
    now destruct r.
Qed.

(** The directory of a plain path is the place of the names before the
    last. *)
Lemma dirname_pathOf (absolute : bool) (names : list str) (n : str) :
  Forall isName names -> isName n ->
  dirname (pathOf absolute (names ++ [n])) = placeOf absolute names.
Proof.
  intros Hn (Hn0 & _ & _ & Hsf).
  assert (~ In "/"%char (rev n)) as Hrev by (intros H; apply Hsf; now apply in_rev).
  destruct names as [|x names].
  - unfold pathOf. cbn [app join_with placeOf]. destruct absolute.
    + cbn [app sep js list_ascii_of_string]. unfold dirname.
      rewrite <- (app_nil_r (rev n)), dirnameEnd_skip by assumption.
      destruct (rev n); reflexivity.
    + destruct n as [|c n']; [congruence|]. unfold dirname. cbn [app].
      assert (~ In "/"%char (rev n')) as Hrev'.
      { intros H. apply Hsf. right. now apply in_rev. }
      rewrite <- (app_nil_r (rev n')), dirnameEnd_skip by assumption.
      destruct (Ascii.eqb_spec c "/") as [->|_]; [exfalso; apply Hsf; now left|].
      destruct (rev n'); reflexivity.
  - rewrite pathOf_snoc by discriminate. cbn [placeOf].
    destruct (@placeOf_shape absolute (x :: names) Hn) as [Hp Habs].
    cbn [placeOf] in Hp, Habs.
    set (pre := pathOf absolute (x :: names)) in *.
    destruct pre as [|c0 pre'] eqn:Epre; [congruence|].
    unfold dirname. cbn [app sep js list_ascii_of_string].
    rewrite rev_app_distr. cbn [rev]. rewrite <- !app_assoc. cbn [app].
    rewrite dirnameEnd_skip by assumption.
    assert (rev n <> []) as Hrn.
    { intros E. apply (f_equal (@rev ascii)) in E.
      rewrite rev_involutive in E. exact (Hn0 E). }
    destruct (rev n) as [|r0 r'] eqn:Er; [congruence|]. rewrite <- Er.
    cbn [dirnameEnd]. rewrite Ascii.eqb_refl.
    replace (length (c0 :: pre' ++ "/"%char :: n) - 1 - length (rev n))
      with (S (length pre'))
      by (rewrite length_rev; cbn [length]; rewrite length_app; cbn [length]; lia).
    assert (Ascii.eqb c0 "/" && (S (length pre') =? 1) = false) as ->.
    { destruct absolute.
      - subst pre. unfold pathOf in Epre.
        change (sep ++ ?j) with ("/"%char :: j) in Epre. injection Epre as _ E.
        pose proof (@join_names_not_nil (x :: names) ltac:(discriminate) Hn) as Hj.
        change (join_with sep (x :: names) = pre') in E.
        rewrite E in Hj. destruct pre'; [congruence|].
        cbn [length Nat.eqb]. apply andb_false_r.
      - specialize (Habs []). rewrite app_nil_r in Habs. cbn in Habs.
        now rewrite Habs. }
    cbn [firstn]. f_equal. rewrite firstn_app, Nat.sub_diag, firstn_all.
    cbn [firstn]. apply app_nil_r.
Qed.

(** Normalizing and converting separators leave a plain path as it is. *)
Lemma normalize_pathOf (absolute : bool) (names : list str) :
  names <> [] -> Forall isName names ->
  normalize (pathOf absolute names) = pathOf absolute names.
Proof.
  intros Hne Hn.
  destruct (@placeOf_shape absolute names Hn) as [Hp Habs].
  assert (placeOf absolute names = pathOf absolute names) as Eplace
    by (destruct names; [congruence|reflexivity]).
  rewrite Eplace in *. specialize (Habs []). rewrite app_nil_r in Habs.
  rewrite <- Eplace at 2. rewrite <- Habs at 2.
  apply normalize_to_place; [exact Hp| | |exact Hn].
  - unfold pathOf. apply join_no_trailing_separator; [exact Hne|].
    now apply names_segments.
  - rewrite <- Eplace, fold_placeOf by assumption. apply app_nil_r.
Qed.

Lemma pathOf_inj (absolute : bool) (xs ys : list str) :
  xs <> [] -> ys <> [] -> Forall isName xs -> Forall isName ys ->
  pathOf absolute xs = pathOf absolute ys -> xs = ys.
Proof.
  intros Hx Hy Hnx Hny E. apply (f_equal (split "/")) in E.
  rewrite !split_pathOf in E by assumption. now apply app_inv_head in E.
Qed.

Lemma split_placeOf (absolute : bool) (names : list str) :
  Forall isName names ->
  split "/" (placeOf absolute names) =
  match names with
  | [] => if absolute then [[]; []] else [dot]
  | _ => (if absolute then [[]] else []) ++ names
  end.
Proof.
  intros Hn. destruct names as [|x names].
  - destruct absolute; reflexivity.
  - cbn [placeOf]. apply split_pathOf; [discriminate|assumption].
Qed.

(** A place equal to a plain path has the path's names; a place under a
    plain path has the path's names and more. *)
Lemma placeOf_is_path (absolute : bool) (xs bs : list str) :
  bs <> [] -> Forall isName xs -> Forall isName bs ->
  placeOf absolute xs = pathOf absolute bs -> xs = bs.
Proof.
  intros Hb Hx Hnb E. apply (f_equal (split "/")) in E.
  rewrite split_placeOf, split_pathOf in E by assumption.
  destruct xs as [|x xs]; [|now apply app_inv_head in E].
  exfalso. destruct bs as [|b bs]; [congruence|].
  inversion Hnb as [|? ? (Hb0 & Hb1 & _) _]; subst.
  destruct absolute; cbn [app] in E.
  - injection E as E _. congruence.
  - injection E as E _. congruence.
Qed.

Lemma placeOf_under_path (absolute : bool) (xs bs : list str) (rest : str) :
  bs <> [] -> Forall isName xs -> Forall isName bs ->
  placeOf absolute xs = pathOf absolute bs ++ sep ++ rest ->
  exists rs, rs <> [] /\ xs = bs ++ rs /\ rest = join_with sep rs.
Proof.
  intros Hb Hx Hnb E. pose proof E as Esplit.
  apply (f_equal (split "/")) in Esplit.
  cbn [sep js list_ascii_of_string app] in Esplit.
  rewrite split_sep_app, split_placeOf, split_pathOf in Esplit by assumption.
  exists (split "/" rest). split; [apply split_not_nil|].
  split; [|symmetry; apply join_split].
  destruct xs as [|x xs].
  - exfalso. destruct bs as [|b bs]; [congruence|].
    inversion Hnb as [|? ? (Hb0 & Hb1 & _) _]; subst.
    pose proof (split_not_nil "/" rest) as Hr.
    destruct absolute; cbn [app] in Esplit.
    + injection Esplit as E1 E2. congruence.
    + injection Esplit as E1 E2. congruence.
  - rewrite <- app_assoc in Esplit. now apply app_inv_head in Esplit.
Qed.

End PlainPaths.

(* ===================================================================== *)
(** ** Renames between plain paths over notes *)
(* ===================================================================== *)

Module PlainRenames.
Import Posix PosixShape PosixFacts PlainPaths.

Lemma isPrefix_spec (a b : list str) :
  isPrefix a b = true <-> exists r, b = a ++ r.
Proof.
  revert b. induction a as [|x a IH]; intros b.
  - split; [intros _; now exists b|reflexivity].
  - destruct b as [|y b]; cbn [isPrefix].
    + split; [discriminate|intros [r E]; discriminate].
    + rewrite andb_true_iff, str_eqb_eq, IH. split.
      * intros [-> [r ->]]. now exists r.
      * intros [r E]. injection E as -> ->. split; [reflexivity|now exists r].
Qed.

Lemma In_join (c : ascii) (segs : list str) :
  In c (join_with sep segs) -> c = "/"%char \/ exists s, In s segs /\ In c s.
Proof.
  induction segs as [|s segs IH]; [intros []|].
  destruct segs as [|s2 segs].
  - intros H. right. exists s. split; [now left|exact H].
  - change (join_with sep (s :: s2 :: segs))
      with (s ++ "/"%char :: join_with sep (s2 :: segs)).
    rewrite in_app_iff. intros [H|[H|H]].
    + right. exists s. split; [now left|exact H].
    + now left.
    + destruct (IH H) as [->|(s' & Hs' & Hc)]; [now left|].
      right. exists s'. split; [now right|exact Hc].
Qed.

Lemma In_pathOf (c : ascii) (absolute : bool) (names : list str) :
  In c (pathOf absolute names) -> c = "/"%char \/ exists s, In s names /\ In c s.
Proof.
  unfold pathOf. rewrite in_app_iff. intros [H|H]; [|now apply In_join].
  destruct absolute; [|destruct H]. destruct H as [<-|[]]. now left.
Qed.

Lemma windowsToPosix_pathOf (absolute : bool) (names : list str) :
  forallb plainName names = true ->
  windowsToPosix (pathOf absolute names) = pathOf absolute names.
Proof.
  intros Hn. apply windowsToPosix_id. intros Hin.
  apply In_pathOf in Hin as [E|(s & Hs & Hc)]; [discriminate|].
  rewrite forallb_forall in Hn.
  destruct (plainName_spec _ (Hn s Hs)) as (_ & _ & _ & _ & _ & Hbs & _).
  contradiction.
Qed.

Lemma lacks_forall (chars s : str) :
  lacks chars s = true <-> forall c, In c s -> ~ In c chars.
Proof.
  unfold lacks. rewrite forallb_forall. split; intros H c Hc.
  - specialize (H c Hc). apply negb_true_iff in H. intros Hin.
    assert (existsb (Ascii.eqb c) chars = true) as E; [|congruence].
    apply existsb_exists. exists c. split; [exact Hin|apply Ascii.eqb_refl].
  - apply negb_true_iff. destruct (existsb (Ascii.eqb c) chars) eqn:E; [|reflexivity].
    apply existsb_exists in E as (x & Hx & Ex). apply Ascii.eqb_eq in Ex as <-.
    exfalso. exact (H c Hc Hx).
Qed.

Lemma plainTarget_targetOf (j : nat) (qs : list str) :
  forallb plainName qs = true -> plainTarget (targetOf j qs) = true.
Proof.
  intros Hq. unfold plainTarget. apply lacks_forall. intros c Hc.
  assert (c = "."%char \/ c = "/"%char \/ exists s, In s qs /\ In c s) as Hcases.
  { destruct (targetOf_cases j qs) as [(_ & _ & E)|[_ E]]; rewrite E in Hc.
    - destruct Hc as [<-|[]]. now left.
    - apply In_join in Hc as [->|(s & Hs & Hcs)]; [auto|].
      apply in_app_or in Hs as [Hs|Hs].
      + apply repeat_spec in Hs as ->. left.
        destruct Hcs as [<-|[<-|[]]]; reflexivity.
      + right. right. now exists s. }
  destruct Hcases as [->|[->|(s & Hs & Hcs)]].
  - simpl. intuition discriminate.
  - simpl. intuition discriminate.
  - rewrite forallb_forall in Hq. specialize (Hq s Hs).
    unfold plainName in Hq. apply andb_true_iff in Hq as [_ Hq].
    unfold plainTarget in Hq. now apply (proj1 (lacks_forall _ _) Hq).
Qed.

Lemma normalize_placeOf (absolute : bool) (names : list str) :
  Forall isName names ->
  normalize (placeOf absolute names) = placeOf absolute names.
Proof.
  intros Hn. destruct names as [|x names].
  - destruct absolute; reflexivity.
  - cbn [placeOf]. apply normalize_pathOf; [discriminate|assumption].
Qed.

Lemma normalize_join_target (j : nat) (qs : list str) :
  Forall isName qs ->
  normalize (join_with sep (repeat dotdot j ++ qs)) = targetOf j qs.
Proof.
  intros Hq. destruct (targetOf_cases j qs) as [(-> & -> & ->)|[Hne ->]];
    [reflexivity|].
  pose proof (target_segments j Hq) as Hseg.
  pose proof (join_not_absolute [] Hne Hseg) as [Hbody Habs].
  rewrite app_nil_r in Habs.
  pose proof (join_no_trailing_separator [] Hne Hseg) as Htr. cbn [app] in Htr.
  unfold normalize.
  destruct (join_with sep (repeat dotdot j ++ qs)) as [|c s'] eqn:E; [congruence|].
  rewrite <- E in *. rewrite Habs, Htr. cbn [negb].
  unfold normalizeString, segments. rewrite split_join; [|exact Hne|].
  2:{ eapply Forall_impl; [|exact Hseg]. now intros s [_ Hs]. }
  assert (normalizeSegments true (repeat dotdot j ++ qs) = repeat dotdot j ++ qs)
    as ->.
  { rewrite <- (rev_involutive (repeat dotdot j ++ qs)).
    apply normalizeSegments_fixed. exists (rev qs), j.
    split; [now rewrite rev_app_distr, rev_repeat|].
    split; [now apply Forall_rev|discriminate]. }
  rewrite E at 1. cbn [app]. apply app_nil_r.
Qed.

Lemma normalize_targetOf (j : nat) (qs : list str) :
  Forall isName qs -> normalize (targetOf j qs) = targetOf j qs.
Proof.
  intros Hq. rewrite <- (normalize_join_target j Hq) at 1.
  rewrite normalize_idempotent. now apply normalize_join_target.
Qed.

Lemma placeOf_pathOf (absolute : bool) (names : list str) :
  names <> [] -> placeOf absolute names = pathOf absolute names.
Proof. destruct names; [congruence|reflexivity]. Qed.

Lemma join_with_app (xs ys : list str) :
  xs <> [] -> ys <> [] ->
  join_with sep (xs ++ ys) = join_with sep xs ++ sep ++ join_with sep ys.
Proof.
  induction xs as [|x xs IH]; intros Hx Hy; [congruence|].
  destruct xs as [|x2 xs].
  - destruct ys as [|y ys]; [congruence|reflexivity].
  - change (join_with sep ((x :: x2 :: xs) ++ ys))
      with (x ++ sep ++ join_with sep ((x2 :: xs) ++ ys)).
    rewrite IH by (assumption || discriminate).
    change (join_with sep (x :: x2 :: xs))
      with (x ++ sep ++ join_with sep (x2 :: xs)).
    now rewrite <- !app_assoc.
Qed.

Lemma pathOf_app (absolute : bool) (xs ys : list str) :
  xs <> [] -> ys <> [] ->
  pathOf absolute (xs ++ ys) = pathOf absolute xs ++ sep ++ join_with sep ys.
Proof.
  intros Hx Hy. unfold pathOf. rewrite join_with_app by assumption.
  now rewrite <- app_assoc.
Qed.

Lemma dirname_path (absolute : bool) (xs : list str) :
  xs <> [] -> Forall isName xs ->
  dirname (pathOf absolute xs) = placeOf absolute (removelast xs).
Proof.
  intros Hne Hx. rewrite (app_removelast_last [] Hne) in Hx |- * at 1.
  apply Forall_app in Hx as [Hd Hl]. inversion Hl; subst.
  now apply dirname_pathOf.
Qed.

Lemma names_firstn (k : nat) (xs : list str) :
  Forall isName xs -> Forall isName (firstn k xs).
Proof.
  intros H. apply Forall_forall. intros x Hx. rewrite Forall_forall in H.
  apply H. rewrite <- (firstn_skipn k xs). apply in_or_app. now left.
Qed.

Lemma names_skipn (k : nat) (xs : list str) :
  Forall isName xs -> Forall isName (skipn k xs).
Proof.
  intros H. apply Forall_forall. intros x Hx. rewrite Forall_forall in H.
  apply H. rewrite <- (firstn_skipn k xs). apply in_or_app. now right.
Qed.

Lemma plainNames_app (xs ys : list str) :
  forallb plainName (xs ++ ys) = true <->
  forallb plainName xs = true /\ forallb plainName ys = true.
Proof. rewrite forallb_app. apply andb_true_iff. Qed.

Lemma plainRef_spec (dir : list str) (r : Ref) :
  plainRef dir r = true ->
  plain (refLead r) = true /\ plainLabel (refLabel r) = true /\
  forallb plainName (refNames r) = true /\ refUps r <= length dir.
Proof.
  unfold plainRef. rewrite !andb_true_iff, Nat.leb_le. tauto.
Qed.

Lemma plainNote_spec (n : Note) :
  plainNote n = true ->
  forallb plainName (noteDir n) = true /\ plainName (noteName n) = true /\
  forallb plainName (notePath n) = true /\
  forallb (plainRef (noteDir n)) (noteRefs n) = true /\
  plain (noteTail n) = true.
Proof.
  unfold plainNote. rewrite !andb_true_iff. intros [[Hp Hr] Ht].
  pose proof Hp as Hp'. unfold notePath in Hp'.
  apply plainNames_app in Hp' as [Hd Hn]. cbn [forallb] in Hn.
  rewrite andb_true_r in Hn. tauto.
Qed.

Lemma noteDoc_key (absolute : bool) (n : Note) :
  plainNote n = true ->
  windowsToPosix (docPath (noteDoc absolute n)) = pathOf absolute (notePath n) /\
  docKey (noteDoc absolute n) = pathOf absolute (notePath n).
Proof.
  intros Hn. destruct (@plainNote_spec n Hn) as (_ & _ & Hp & _).
  unfold docKey. cbn [docPath noteDoc].
  rewrite windowsToPosix_pathOf by assumption. split; [reflexivity|].
  apply normalize_pathOf; [|now apply plainNames_names].
  unfold notePath. intros E. apply app_eq_nil in E as [_ E]. discriminate.
Qed.

Lemma noteDoc_wellFormed (absolute : bool) (n : Note) :
  plainNote n = true -> wellFormedDoc (noteDoc absolute n) = true.
Proof.
  intros Hn. destruct (@plainNote_spec n Hn) as (_ & _ & _ & Hr & Ht).
  unfold wellFormedDoc. cbn [docChunks docTail noteDoc]. rewrite Ht, andb_true_r.
  apply forallb_forall. intros c Hc. apply in_map_iff in Hc as (r & <- & Hin).
  rewrite forallb_forall in Hr.
  destruct (@plainRef_spec _ _ (Hr r Hin)) as (H1 & H2 & H3 & _).
  unfold wellFormed. cbn [chunkLead chunkLabel chunkTarget refChunk].
  now rewrite H1, H2, plainTarget_targetOf.
Qed.

Lemma notes_wellFormed (absolute : bool) (notes : list Note) :
  forallb plainNote notes = true ->
  forallb wellFormedDoc (map (noteDoc absolute) notes) = true.
Proof.
  intros Hn. apply forallb_forall. intros d Hd.
  apply in_map_iff in Hd as (n & <- & Hin). rewrite forallb_forall in Hn.
  now apply noteDoc_wellFormed, Hn.
Qed.

Lemma notePath_not_nil (n : Note) : notePath n <> [].
Proof. unfold notePath. intros E. apply app_eq_nil in E as [_ E]. discriminate. Qed.

Lemma notes_keys (absolute : bool) (notes : list Note) :
  forallb plainNote notes = true ->
  NoDup (map notePath notes) ->
  NoDup (map docKey (map (noteDoc absolute) notes)).
Proof.
  intros Hn. rewrite forallb_forall in Hn.
  induction notes as [|n notes IH]; intros Hnd; [constructor|].
  cbn [map] in *. inversion Hnd as [|? ? Hnotin Hnd']; subst.
  constructor.
  - intros Hin. apply Hnotin. apply in_map_iff in Hin as (d & Ed & Hd).
    apply in_map_iff in Hd as (n' & <- & Hn').
    apply in_map_iff. exists n'. split; [|exact Hn'].
    destruct (@noteDoc_key absolute n (Hn n (or_introl eq_refl))) as [_ Ek].
    destruct (@noteDoc_key absolute n' (Hn n' (or_intror Hn'))) as [_ Ek'].
    rewrite Ek, Ek' in Ed.
    destruct (@plainNote_spec n (Hn n (or_introl eq_refl))) as (_ & _ & Hp & _).
    destruct (@plainNote_spec n' (Hn n' (or_intror Hn'))) as (_ & _ & Hp' & _).
    apply pathOf_inj in Ed;
      [exact Ed|apply notePath_not_nil|apply notePath_not_nil|
       now apply plainNames_names|now apply plainNames_names].
  - apply IH; [|exact Hnd']. intros x Hx. apply Hn. now right.
Qed.

Lemma commonPrefix_firstn (dir : list str) (m : nat) (rest : list str) :
  m <= length dir ->
  commonPrefix dir (firstn m dir ++ rest) = m + commonPrefix (skipn m dir) rest.
Proof.
  intros Hm. rewrite <- (firstn_skipn m dir) at 1. rewrite commonPrefix_app.
  rewrite length_firstn. f_equal. lia.
Qed.

(** The place a reference in shortest form reaches shares with the
    directory only the names the reference does not climb out of. *)
Lemma shortest_spec (dir : list str) (r : Ref) :
  refUps r <= length dir -> shortest dir r = true ->
  commonPrefix dir (firstn (length dir - refUps r) dir ++ refNames r)
  = length dir - refUps r.
Proof.
  intros Hups Hs. rewrite commonPrefix_firstn by lia.
  assert (commonPrefix (skipn (length dir - refUps r) dir) (refNames r) = 0)
    as ->; [|lia].
  unfold shortest in Hs. destruct (refUps r) as [|j] eqn:Ej.
  - rewrite Nat.sub_0_r, skipn_all. reflexivity.
  - destruct (refNames r) as [|q qs]; [now destruct (skipn _ dir)|].
    destruct (skipn (length dir - S j) dir) as [|x rest] eqn:Es; [reflexivity|].
    cbn [commonPrefix].
    assert (nth (length dir - S j) dir [] = x) as Ex.
    { rewrite <- (firstn_skipn (length dir - S j) dir) at 2.
      rewrite app_nth2 by (rewrite length_firstn; lia).
      rewrite length_firstn, Es.
      replace (length dir - S j - Nat.min (length dir - S j) (length dir))
        with 0 by lia.
      reflexivity. }
    rewrite Ex in Hs. apply negb_true_iff in Hs.
    rewrite str_eqb_neq in Hs. 
    destruct (str_eqb x q) eqn:E; [|reflexivity].
    apply str_eqb_eq in E. congruence.
Qed.

Section Rename.
Variable cwd : str.
Variable absolute : bool.
Variables bs ps : list str.
Hypothesis Hcwd : absolute = false -> isAbsolute cwd = true.
Hypothesis Hbs : forallb plainName bs = true.
Hypothesis Hps : forallb plainName ps = true.
Hypothesis Hbp : isPrefix bs ps = false.
Hypothesis Hpb : isPrefix ps bs = false.

Lemma before_not_nil : bs <> [].
Proof. intros E. rewrite E in Hbp. discriminate. Qed.

Lemma after_not_nil : ps <> [].
Proof. intros E. rewrite E in Hpb. discriminate. Qed.

(** The place a plain reference of a document names. *)
Lemma resolved_ref (f : File) (ds : list str) (nm : str) (j : nat)
    (qs : list str) :
  fpath f = pathOf absolute (ds ++ [nm]) ->
  Forall isName ds -> isName nm -> Forall isName qs -> j <= length ds ->
  resolvedTarget f (inlineRef (targetOf j qs))
  = placeOf absolute (firstn (length ds - j) ds ++ qs).
Proof.
  intros Hf Hd Hnm Hq Hj. unfold resolvedTarget.
  cbn [inlineRef target replaceFileExtension negb].
  rewrite Hf, dirname_pathOf, join_place_target by assumption.
  apply normalize_placeOf. apply Forall_app. split; [|assumption].
  now apply names_firstn.
Qed.

(** The new location and what lies under it is neither the old location
    nor under it. *)
Lemma not_moved (xs : list str) :
  Forall isName xs -> (exists rs, xs = ps ++ rs) ->
  placeOf absolute xs <> pathOf absolute bs /\
  startsWith (pathOf absolute bs ++ sep) (placeOf absolute xs) = false.
Proof.
  intros Hx [rs ->]. pose proof (plainNames_names _ Hbs) as Hnb. split.
  - intros E. apply placeOf_is_path in E; [|exact before_not_nil|assumption..].
    assert (isPrefix ps bs = true) as F by (apply isPrefix_spec; eauto).
    congruence.
  - destruct (startsWith _ _) eqn:E; [|reflexivity]. exfalso.
    apply startsWith_inv in E. rewrite <- app_assoc in E.
    apply placeOf_under_path in E as (rs' & _ & E & _);
      [|exact before_not_nil|assumption..].
    apply app_eq_app in E as [l [[E _]|[E _]]].
    + assert (isPrefix bs ps = true) as F by (apply isPrefix_spec; eauto).
      congruence.
    + assert (isPrefix ps bs = true) as F by (apply isPrefix_spec; eauto).
      congruence.
Qed.

(** What the second loop makes of a plain reference: the way to the new
    location, or to what lay under the old one. *)
Lemma new_target (f : File) (ds : list str) (nm : str) (j : nat)
    (qs : list str) (n : str) :
  fpath f = pathOf absolute (ds ++ [nm]) ->
  forallb plainName ds = true -> isName nm ->
  forallb plainName qs = true -> j <= length ds ->
  repairedTarget cwd (pathOf absolute bs) (pathOf absolute ps) f (targetOf j qs)
    = Some n ->
  exists xs,
    forallb plainName xs = true /\ (exists rs, xs = ps ++ rs) /\
    (n = [] \/
     n = targetOf (length ds - commonPrefix ds xs) (skipn (commonPrefix ds xs) xs)).
Proof.
  intros Hf Hds Hnm Hqs Hj Hn.
  pose proof (plainNames_names _ Hds) as Hd.
  pose proof (plainNames_names _ Hqs) as Hq.
  pose proof (plainNames_names _ Hbs) as Hnb.
  pose proof (plainNames_names _ Hps) as Hnp.
  assert (Forall isName (firstn (length ds - j) ds ++ qs)) as Hreached.
  { apply Forall_app. split; [now apply names_firstn|assumption]. }
  unfold repairedTarget in Hn.
  destruct (repairEdit _ _ _ _ _) as [|e l] eqn:E; [discriminate|].
  cbn [hd_error option_map] in Hn. injection Hn as <-.
  assert (In e (repairEdit cwd (pathOf absolute bs) (pathOf absolute ps) f
                  (inlineRef (targetOf j qs)))) as He by (rewrite E; now left).
  apply repairEdit_cases in He as [[Hr ->]|(rest & Hr & ->)];
    rewrite (@resolved_ref f ds nm j qs Hf Hd Hnm Hq Hj) in Hr.
  - exists ps. split; [exact Hps|]. split; [exists []; now rewrite app_nil_r|].
    right. unfold exactMoveEdit.
    cbn [newText inlineRef replaceFileExtension negb].
    rewrite Hf, dirname_pathOf by assumption.
    rewrite <- (placeOf_pathOf absolute after_not_nil).
    rewrite relative_place by assumption.
    apply normalize_join_target. now apply names_skipn.
  - apply placeOf_under_path in Hr as (rs & Hrs & EA & ->);
      [|exact before_not_nil|assumption..].
    assert (forallb plainName rs = true) as Hprs.
    { assert (forallb plainName (firstn (length ds - j) ds ++ qs) = true) as Hall.
      { apply plainNames_app. split; [|exact Hqs].
        apply forallb_forall. intros x Hx. rewrite forallb_forall in Hds.
        apply Hds. rewrite <- (firstn_skipn (length ds - j) ds).
        apply in_or_app. now left. }
      rewrite EA in Hall. now apply plainNames_app in Hall. }
    exists (ps ++ rs). split; [apply plainNames_app; now split|].
    split; [now exists rs|].
    unfold nestedMoveEdit. cbn [newText inlineRef replaceFileExtension negb].
    rewrite Hf, dirname_pathOf by assumption.
    change (js "/") with sep.
    rewrite <- (pathOf_app absolute after_not_nil Hrs).
    assert (ps ++ rs <> []) as Hne.
    { intros F. apply app_eq_nil in F as [F _]. exact (after_not_nil F). }
    rewrite <- (placeOf_pathOf absolute Hne).
    assert (Forall isName (ps ++ rs)) as Hxs.
    { apply Forall_app. split; [assumption|now apply plainNames_names]. }
    rewrite relative_place by assumption.
    destruct (targetOf_cases (length ds - commonPrefix ds (ps ++ rs))
                (skipn (commonPrefix ds (ps ++ rs)) (ps ++ rs)))
      as [(-> & -> & _)|[_ ->]]; [now left|now right].
Qed.

(** The second loop leaves its new targets alone. *)
Lemma settled_target (f : File) (ds : list str) (nm : str) (xs : list str) :
  fpath f = pathOf absolute (ds ++ [nm]) ->
  Forall isName ds -> isName nm -> Forall isName xs ->
  (exists rs, xs = ps ++ rs) ->
  repairedTarget cwd (pathOf absolute bs) (pathOf absolute ps) f
    (targetOf (length ds - commonPrefix ds xs) (skipn (commonPrefix ds xs) xs))
  = None.
Proof.
  intros Hf Hd Hnm Hx Hrs. unfold repairedTarget.
  assert (repairEdit cwd (pathOf absolute bs) (pathOf absolute ps) f
            (inlineRef
               (targetOf (length ds - commonPrefix ds xs)
                  (skipn (commonPrefix ds xs) xs))) = []) as ->; [|reflexivity].
  apply repairEdit_nil.
  destruct (commonPrefix_spec ds xs) as (Hk1 & Hk2 & Hk3 & _).
  rewrite (@resolved_ref f ds nm _ _ Hf Hd Hnm)
    by (try apply names_skipn; assumption || lia).
  replace (length ds - (length ds - commonPrefix ds xs))
    with (commonPrefix ds xs) by lia.
  rewrite Hk3, firstn_skipn. now apply not_moved.
Qed.

(** The first loop leaves a reference in shortest form alone when the
    rename keeps the directory. *)
Lemma rebased_target (ds : list str) (j : nat) (qs : list str) :
  removelast bs = ds -> removelast ps = ds ->
  Forall isName ds -> Forall isName qs -> j <= length ds ->
  commonPrefix ds (firstn (length ds - j) ds ++ qs) = length ds - j ->
  rebasedAlready cwd (pathOf absolute bs) (pathOf absolute ps) (targetOf j qs)
  = true.
Proof.
  intros Eb Ep Hd Hq Hj Hshort.
  pose proof (plainNames_names _ Hbs) as Hnb.
  pose proof (plainNames_names _ Hps) as Hnp.
  unfold rebasedAlready, rebaseEdit. cbn [inlineRef target].
  rewrite !dirname_path by (assumption || apply before_not_nil || apply after_not_nil).
  rewrite Eb, Ep, join_place_target by assumption.
  rewrite relative_place; [|assumption..|].
  2:{ apply Forall_app. split; [now apply names_firstn|assumption]. }
  rewrite Hshort.
  replace (length ds - (length ds - j)) with j by lia.
  rewrite skipn_app, skipn_all2 by (rewrite length_firstn; lia).
  replace (length ds - j - length (firstn (length ds - j) ds)) with 0
    by (rewrite length_firstn; lia).
  cbn [skipn app].
  rewrite normalize_join_target, normalize_targetOf by assumption.
  now rewrite str_eqb_refl.
Qed.

Variable minimatch : str -> str -> bool.
Variable options : Options.

Lemma moved_note (n : Note) :
  plainNote n = true ->
  docKey (noteDoc absolute n) = pathOf absolute ps -> notePath n = ps.
Proof.
  intros Hn Ek. destruct (@noteDoc_key absolute n Hn) as [_ Ek']. rewrite Ek' in Ek.
  destruct (@plainNote_spec n Hn) as (_ & _ & Hp & _).
  apply pathOf_inj in Ek;
    [exact Ek|apply notePath_not_nil|apply after_not_nil|
     now apply plainNames_names|now apply plainNames_names].
Qed.

Lemma notes_moved (notes : list Note) :
  forallb plainNote notes = true ->
  movedInPlace bs ps notes ->
  movedSettled cwd minimatch options (pathOf absolute bs) (pathOf absolute ps)
    (map (noteDoc absolute) notes).
Proof.
  intros Hn Hmoved d c Hd _ Hkey Hc _. rewrite forallb_forall in Hn.
  apply in_map_iff in Hd as (n & <- & Hin). specialize (Hn n Hin).
  cbn [docChunks noteDoc] in Hc. apply in_map_iff in Hc as (r & <- & Hr).
  pose proof (@moved_note n Hn Hkey) as Epath.
  destruct (Hmoved n Hin Epath) as [E|[Edir Hshort]].
  { rewrite E in Hr. destruct Hr. }
  destruct (@plainNote_spec n Hn) as (Hdir & _ & _ & Hrefs & _).
  rewrite forallb_forall in Hrefs, Hshort.
  destruct (@plainRef_spec _ _ (Hrefs r Hr)) as (_ & _ & Hnames & Hups).
  cbn [chunkTarget refChunk].
  apply (@rebased_target (noteDir n)); auto using plainNames_names.
  - rewrite <- Epath. unfold notePath. apply removelast_last.
  - now apply shortest_spec, Hshort.
Qed.

Lemma notes_settle (notes : list Note) :
  forallb plainNote notes = true ->
  movedInPlace bs ps notes ->
  retargetsSettle cwd minimatch options (pathOf absolute bs) (pathOf absolute ps)
    (map (noteDoc absolute) notes).
Proof.
  intros Hn Hmoved d c n' Hd _ Hc _ Hnew. rewrite forallb_forall in Hn.
  apply in_map_iff in Hd as (n & <- & Hin). specialize (Hn n Hin).
  cbn [docChunks noteDoc] in Hc. apply in_map_iff in Hc as (r & <- & Hr).
  cbn [chunkTarget refChunk] in Hnew.
  destruct (@plainNote_spec n Hn) as (Hdir & Hname & _ & Hrefs & _).
  rewrite forallb_forall in Hrefs.
  destruct (@plainRef_spec _ _ (Hrefs r Hr)) as (_ & _ & Hnames & Hups).
  destruct (@noteDoc_key absolute n Hn) as [Epath _].
  assert (fpath (posixFile (toFile (noteDoc absolute n)))
          = pathOf absolute (noteDir n ++ [noteName n])) as Hf by exact Epath.
  pose proof (@plainNames_names _ Hdir) as Hd.
  destruct (@plainName_spec _ Hname) as [Hnm _].
  destruct (@new_target _ _ _ _ _ _ Hf Hdir Hnm Hnames Hups Hnew)
    as (xs & Hxs & Hrs & [-> | ->]).
  { split; [reflexivity|]. intros F. congruence. }
  pose proof (@plainNames_names _ Hxs) as Hx.
  split.
  { apply plainTarget_targetOf. apply forallb_forall. intros x Hin'.
    rewrite forallb_forall in Hxs. apply Hxs.
    rewrite <- (firstn_skipn (commonPrefix (noteDir n) xs) xs).
    apply in_or_app. now right. }
  intros _. split; [now apply (@settled_target _ _ (noteName n))|].
  intros Hkey. pose proof (@moved_note n Hn Hkey) as Ep.
  destruct (Hmoved n Hin Ep) as [E|[Edir _]].
  { rewrite E in Hr. destruct Hr. }
  destruct (commonPrefix_spec (noteDir n) xs) as (Hk1 & Hk2 & Hk3 & _).
  apply (@rebased_target (noteDir n)); auto using names_skipn; try lia.
  - rewrite <- Ep. unfold notePath. apply removelast_last.
  - replace (length (noteDir n) - (length (noteDir n) - commonPrefix (noteDir n) xs))
      with (commonPrefix (noteDir n) xs) by lia.
    now rewrite Hk3, firstn_skipn.
Qed.

End Rename.

End PlainRenames.

(* ===================================================================== *)
(** ** C5: the second run of a plain rename over notes *)
(* ===================================================================== *)



(** Outside these bounds a second run can rewrite again.  Moving a folder
    into itself: [a] becomes [a/b], and a reference to [a/x.md], rewritten
    to [a/b/x.md], still lies under [a]. *)
Example second_run_inside_old_location :
  let files := [mkFile (js "c.md") (js "[x](a/x.md)")] in
  let event := RenameEvent (js "a") (js "a/b") in
  exists edits,
    Reference.getEdits event files noOptions = Ok edits /\
    applyEdits edits files = [mkFile (js "c.md") (js "[x](a/b/x.md)")] /\
    Reference.getEdits event (applyEdits edits files) noOptions
    = Ok [mkEdit (js "c.md") (mkRange (mkPosition 0 4) (mkPosition 0 12))
            (js "a/b/b/x.md") (Some (js "a/b/b/x.md"))].
Proof. eexists. repeat split; vm_compute; reflexivity. Qed.

(** A reference of the moved note that is not in shortest form and names
    the note itself gets two edits over the same range, one from each
    loop. *)
Example moved_note_edits_overlap :
  Reference.getEdits (RenameEvent (js "folder/a.md") (js "folder/b.md"))
    [mkFile (js "folder/b.md") (js "[self](../folder/a.md)")] noOptions
  = Ok [mkEdit (js "folder/b.md") (mkRange (mkPosition 0 7) (mkPosition 0 21))
          (js "a.md") (Some (js "folder/a.md"));
        mkEdit (js "folder/b.md") (mkRange (mkPosition 0 7) (mkPosition 0 21))
          (js "b.md") None].
Proof. vm_compute. reflexivity. Qed.

(** A double-bracket reference without extension to a note whose new name
    does not hold [.md]: the edit puts the text that is there already, and
    every run yields it again. *)
Example wikilink_rewritten_again :
  let files := [mkFile (js "index.md") (js "[[note]]")] in
  let event := RenameEvent (js "note.md") (js "note.MD") in
  let edit :=
    mkEdit (js "index.md") (mkRange (mkPosition 0 2) (mkPosition 0 6))
      (js "note") None in
  Reference.getEdits event files noOptions = Ok [edit] /\
  applyEdits [edit] files = files /\
  Reference.getEdits event (applyEdits [edit] files) noOptions = Ok [edit].
Proof. repeat split; vm_compute; reflexivity. Qed.
